(** * ges-models-classifier: the two-stage image classifier of [index.js]

    A shallow embedding of [batchPredict], [averageByTag], [getMaxLabel] and
    the [POST /classify] handler, followed by the properties of the service.

    Modelling conventions.
    - A JavaScript Number is a binary64 value: one of the three special
      values [NaN], [+Infinity], [-Infinity], or a finite number, which is
      represented by the rational it denotes.  Every sum and quotient is
      rounded to the nearest binary64 number, ties to even, and overflows
      to an infinity ([binary64] below).  [+0] and [-0] are one value: the
      program compares them, tests them for truthiness and divides them by
      a positive count, none of which tells them apart.
    - A list stands for an array, and [count] for the exact number of its
      elements: an array is shorter than [2^32], so that counting it in
      binary64 never rounds.
    - A plain object literal [{}] is the ordered list of its own enumerable
      properties, in the order [Object.entries] enumerates them (array
      indices ascending, then the other keys by creation), together with the
      members it inherits from [Object.prototype].
    - The network is an oracle answering every [axios.post]; a promise
      carries the event-loop tick at which it settles, and [Promise.all]
      rejects with the rejection that settles first.
    - [req.body] is what [express.json()] left there: a parsed JSON object
      or array, or [undefined] when the request carried no JSON body
      (Express 5).  The elements of [imageUrls] are strings, a remote answer
      carries an array of [{ tagName, probability }] objects under
      [predictions] or no such field, and probabilities are finite
      numbers. *)

From Stdlib Require Import List String Ascii Bool Arith NArith ZArith QArith Qcanon Lia.
From Stdlib Require Import Qround Qpower Lqa Permutation.
From Stdlib Require Floats.SpecFloat.
Import ListNotations.

Local Close Scope Qc_scope.
Local Close Scope Q_scope.
Local Open Scope nat_scope.
Local Open Scope string_scope.
Local Open Scope list_scope.

(** ** JavaScript numbers *)

Inductive number : Type :=
| Fin (q : Qc)
| NaN
| PosInfinity
| NegInfinity.

Definition Qc_of_nat (n : nat) : Qc := Q2Qc (inject_Z (Z.of_nat n)).

Definition Qc_ltb (x y : Qc) : bool := negb (Qle_bool y x).
Definition Qc_leb (x y : Qc) : bool := Qle_bool x y.
Definition Qc_is_zero (x : Qc) : bool := Qeq_bool x 0%Q.

(** *** Rounding to binary64 *)

(** [2^e]. *)
Definition pow2 (e : Z) : Q := ((2 # 1) ^ e)%Q.

(** [floor (log2 x)], for [0 < x]. *)
Definition Qlog2 (x : Q) : Z :=
  let l := (Z.log2 (Qnum x) - Z.log2 (Zpos (Qden x)))%Z in
  if Qle_bool (pow2 l) x then l else (l - 1)%Z.

(** The nearest integer; of two equally near, the even one. *)
Definition round_half_even (x : Q) : Z :=
  let f := Qfloor x in
  match (x - inject_Z f ?= 1 # 2)%Q with
  | Lt => f
  | Gt => (f + 1)%Z
  | Eq => if Z.even f then f else (f + 1)%Z
  end.

(** The exponent of the last bit of the binary64 numbers around [x > 0]:
    53 significant bits from [2^-1022] on, multiples of [2^-1074] below. *)
Definition ulp_exponent (x : Q) : Z := Z.max (Qlog2 x - 52) (-1074).

(** The multiple of [2^c] nearest to [x]. *)
Definition round_at (c : Z) (x : Q) : Q :=
  (inject_Z (round_half_even (x / pow2 c)) * pow2 c)%Q.

Definition round_magnitude (x : Q) : Q := round_at (ulp_exponent x) x.

(** The Number nearest to the real number [q]: round to nearest, ties to
    even, and an infinity once the rounded magnitude reaches [2^1024]. *)
Definition binary64 (q : Qc) : number :=
  match (q ?= 0)%Qc with
  | Eq => Fin 0%Qc
  | Gt => let r := round_magnitude q in
          if Qle_bool (pow2 1024) r then PosInfinity else Fin (Q2Qc r)
  | Lt => let r := round_magnitude (- q) in
          if Qle_bool (pow2 1024) r then NegInfinity else Fin (Q2Qc (- r))
  end.
Arguments binary64 q : simpl never.

(** The same Number. *)
Definition number_eqb (x y : number) : bool :=
  match x, y with
  | Fin a, Fin b => Qeq_bool a b
  | NaN, NaN | PosInfinity, PosInfinity | NegInfinity, NegInfinity => true
  | _, _ => false
  end.

(** [q] is a finite binary64 number: rounding leaves it as it is. *)
Definition is_binary64 (q : Qc) : bool := number_eqb (binary64 q) (Fin q).

(** A finite Number, such as a JSON text carries. *)
Record double : Type := {
  value :> Qc;
  value_is_binary64 : is_binary64 value = true
}.

(** The value of the decimal literal [q]. *)
Definition literal (q : Q) : number := binary64 (Q2Qc q).

Definition zero : double := {| value := 0%Qc; value_is_binary64 := eq_refl |}.

Definition as_double (q : Qc) : double :=
  match is_binary64 q as b return is_binary64 q = b -> double with
  | true => fun H => {| value := q; value_is_binary64 := H |}
  | false => fun _ => zero
  end eq_refl.

(** The finite Number that the decimal numeral [q] of a JSON text denotes,
    for a numeral within the finite range. *)
Definition nearest_double (q : Q) : double :=
  match literal q with
  | Fin r => as_double r
  | _ => zero
  end.

(** [Number.MAX_VALUE]. *)
Definition max_double : Qc := Q2Qc (inject_Z ((2 ^ 53 - 1) * 2 ^ 971)).

(** [x + y] on Numbers. *)
Definition js_add (x y : number) : number :=
  match x, y with
  | NaN, _ | _, NaN => NaN
  | Fin a, Fin b => binary64 (a + b)%Qc
  | PosInfinity, NegInfinity | NegInfinity, PosInfinity => NaN
  | PosInfinity, _ | _, PosInfinity => PosInfinity
  | NegInfinity, _ | _, NegInfinity => NegInfinity
  end.

(** [x / n] where [n] is a non-negative integer count. *)
Definition js_div (x : number) (n : nat) : number :=
  match x with
  | NaN => NaN
  | PosInfinity => PosInfinity
  | NegInfinity => NegInfinity
  | Fin a =>
      match n with
      | O => if Qc_is_zero a then NaN
             else if Qc_ltb 0 a then PosInfinity else NegInfinity
      | S _ => binary64 (a / Qc_of_nat n)%Qc
      end
  end.

(** *** The same operations in the Standard Library's IEEE 754 model *)

(** The Number that a [spec_float] denotes. *)
Definition of_spec_float (f : SpecFloat.spec_float) : number :=
  match f with
  | SpecFloat.S754_zero _ => Fin 0%Qc
  | SpecFloat.S754_infinity s => if s then NegInfinity else PosInfinity
  | SpecFloat.S754_nan => NaN
  | SpecFloat.S754_finite s m e =>
      Fin (Q2Qc ((if s then -1 else 1) * inject_Z (Zpos m) * pow2 e)%Q)
  end.

(** The binary64 [spec_float] of a finite Number, whose denominator is a
    power of two. *)
Definition to_spec_float (q : Qc) : SpecFloat.spec_float :=
  SpecFloat.binary_normalize 53 1024 (Qnum q) (- Z.log2 (Zpos (Qden q))) false.

(** Operands on which the two models are compared: ordinary probabilities,
    integers around [2^53], subnormal numbers, and numbers next to
    [Number.MAX_VALUE], of both signs. *)
Definition operands : list Qc :=
  map (fun q => value (nearest_double q))
      [ 0; 1 # 10; 2 # 10; 3 # 10; 8 # 10; 9 # 10; 95 # 100; 1 # 3; 1;
        inject_Z (2 ^ 53); 1 # (2 ^ 1074); 3 # (2 ^ 1074);
        inject_Z (10 ^ 308); inject_Z ((2 ^ 53 - 1) * 2 ^ 971);
        - (3 # 10); - inject_Z (10 ^ 308) ]%Q.

Definition counts : list nat := [1; 2; 3; 7; 10; 1000].

(** [x > y]: false as soon as one side is [NaN]. *)
Definition js_gt (x y : number) : bool :=
  match x, y with
  | NaN, _ | _, NaN => false
  | Fin a, Fin b => Qc_ltb b a
  | PosInfinity, PosInfinity => false
  | PosInfinity, _ => true
  | _, PosInfinity => false
  | NegInfinity, _ => false
  | Fin _, NegInfinity => true
  end.

(** [x >= y]: false as soon as one side is [NaN]. *)
Definition js_ge (x y : number) : bool :=
  match x, y with
  | NaN, _ | _, NaN => false
  | Fin a, Fin b => Qc_leb b a
  | PosInfinity, _ => true
  | _, NegInfinity => true
  | _, PosInfinity => false
  | NegInfinity, _ => false
  end.

(** ** Plain objects used as dictionaries *)

(** The own enumerable string-keyed properties of an object, in
    [OrdinaryOwnPropertyKeys] order. *)
Definition object (A : Type) : Type := list (string * A).

Definition entries {A : Type} (o : object A) : list (string * A) := o.

Definition keys {A : Type} (o : object A) : list string := map fst o.

Fixpoint get_own {A : Type} (o : object A) (k : string) : option A :=
  match o with
  | [] => None
  | (k', v) :: o' => if k' =? k then Some v else get_own o' k
  end.

Definition digit_of (c : ascii) : option N :=
  let n := N_of_ascii c in
  if ((48 <=? n) && (n <=? 57))%N then Some (n - 48)%N else None.

Fixpoint digits_value (s : string) (acc : N) : option N :=
  match s with
  | EmptyString => Some acc
  | String c s' =>
      match digit_of c with
      | Some d => digits_value s' (10 * acc + d)%N
      | None => None
      end
  end.

(** A property key is an array index when it is the canonical decimal form
    of an integer below [2^32 - 1]. *)
Definition array_index (k : string) : option N :=
  match k with
  | EmptyString => None
  | String "0"%char EmptyString => Some 0%N
  | String "0"%char _ => None
  | _ =>
      match digits_value k 0 with
      | Some n => if (n <? 4294967295)%N then Some n else None
      | None => None
      end
  end.

Fixpoint replace_own {A : Type} (o : object A) (k : string) (v : A) : object A :=
  match o with
  | [] => []
  | (k', v') :: o' =>
      if k' =? k then (k', v) :: o' else (k', v') :: replace_own o' k v
  end.

Fixpoint insert_index {A : Type} (o : object A) (i : N) (k : string) (v : A)
  : object A :=
  match o with
  | [] => [(k, v)]
  | (k', v') :: o' =>
      match array_index k' with
      | Some j =>
          if (j <? i)%N then (k', v') :: insert_index o' i k v
          else (k, v) :: o
      | None => (k, v) :: o
      end
  end.

(** Create or overwrite the own data property [k]. *)
Definition define_own {A : Type} (o : object A) (k : string) (v : A) : object A :=
  match get_own o k with
  | Some _ => replace_own o k v
  | None =>
      match array_index k with
      | Some i => insert_index o i k v
      | None => o ++ [(k, v)]
      end
  end.

(** The names every object created by [{}] inherits from [Object.prototype]. *)
Definition Object_prototype : list string :=
  [ "constructor"; "hasOwnProperty"; "isPrototypeOf"; "propertyIsEnumerable";
    "toLocaleString"; "toString"; "valueOf"; "__proto__";
    "__defineGetter__"; "__defineSetter__"; "__lookupGetter__";
    "__lookupSetter__" ].

Definition inherited (k : string) : bool := existsb (String.eqb k) Object_prototype.

(** The result of reading [o[k]]. *)
Inductive lookup (A : Type) : Type :=
| Undefined
| Own (a : A)
| Inherited (name : string).
Arguments Undefined {A}.
Arguments Own {A} a.
Arguments Inherited {A} name.

Definition Get {A : Type} (o : object A) (k : string) : lookup A :=
  match get_own o k with
  | Some a => Own a
  | None => if inherited k then Inherited k else Undefined
  end.

(** The assignment [o[k] = v] of a primitive value [v]: the inherited
    [__proto__] setter ignores primitives, every other key becomes (or
    stays) an own data property. *)
Definition Put {A : Type} (o : object A) (k : string) (v : A) : object A :=
  if k =? "__proto__" then o else define_own o k v.

(** ** The data of [index.js] *)

(** One [{ tagName, probability }] pair. *)
Record Prediction : Type := {
  tagName : string;
  probability : double
}.

(** One [{ imageUrl, predictions }] element of a batch. *)
Record ImagePrediction : Type := {
  imageUrl : string;
  predictions : list Prediction
}.

(** What a slot of [sums] can hold.  A string arises only when [+=] meets a
    member inherited from [Object.prototype]: it is that member's text
    followed by the decimal forms of the numbers appended so far, hence
    never empty and never numeric. *)
Inductive text : Type :=
| Source (name : string)
| Append (t : text) (x : Qc).

Inductive slot : Type :=
| SNum (x : number)
| SStr (t : text).

(** Truthiness of [sums[k]]. *)
Definition ToBoolean (v : lookup slot) : bool :=
  match v with
  | Undefined => false
  | Own (SNum (Fin q)) => negb (Qc_is_zero q)
  | Own (SNum NaN) => false
  | Own (SNum _) => true
  | Own (SStr _) => true
  | Inherited _ => true
  end.

(** The value [sums[k] + p] that [sums[k] += p] stores. *)
Definition plus_assign (v : lookup slot) (p : Qc) : slot :=
  match v with
  | Undefined => SNum NaN
  | Own (SNum x) => SNum (js_add x (Fin p))
  | Own (SStr t) => SStr (Append t p)
  | Inherited name => SStr (Append (Source name) p)
  end.

Definition ToNumber (s : slot) : number :=
  match s with
  | SNum x => x
  | SStr _ => NaN
  end.

(** ** [averageByTag] *)

(** The body of the inner loop: lines 50-51. *)
Definition accumulate (sums : object slot) (p : Prediction) : object slot :=
  let sums :=
    if negb (ToBoolean (Get sums (tagName p)))
    then Put sums (tagName p) (SNum (Fin 0))
    else sums in
  Put sums (tagName p) (plus_assign (Get sums (tagName p)) (probability p)).

(** The two nested loops of lines 47-53: the final [sums] and [count]. *)
Definition tally (perImage : list ImagePrediction) : object slot * nat :=
  fold_left
    (fun '(sums, count) img =>
       (fold_left accumulate (predictions img) sums, count + 1))
    perImage ([], 0).

(** [count || 1]. *)
Definition divisor (count : nat) : nat :=
  if (count =? 0)%nat then 1 else count.

Definition averageByTag (perImage : list ImagePrediction) : object number :=
  let '(sums, count) := tally perImage in
  let n := divisor count in
  fold_left
    (fun averages '(tag, sum) => Put averages tag (js_div (ToNumber sum) n))
    (entries sums) [].

(** ** [getMaxLabel] *)

Module MaxLabel.
Record t : Type := {
  label : option string;
  probability : number
}.
End MaxLabel.

Definition getMaxLabel (probMap : object number) : MaxLabel.t :=
  let '(bestLabel, bestProb) :=
    fold_left
      (fun '(bestLabel, bestProb) '(label, prob) =>
         if js_gt prob bestProb then (Some label, prob)
         else (bestLabel, bestProb))
      (entries probMap) (None, Fin (Q2Qc (-1))) in
  {| MaxLabel.label := bestLabel; MaxLabel.probability := bestProb |}.

(** ** The remote classifier and [batchPredict] *)

(** The arguments of one [axios.post] call. *)
Record Request : Type := {
  url : string;
  Url : string;
  Prediction_Key : string;
  Content_Type : string;
  timeout : N
}.

Module Remote.
(** An element of the remote [predictions] array: the two fields the
    service reads, and whatever else the classifier sends along. *)
Record prediction : Type := {
  tagName : string;
  probability : double;
  others : list (string * string)
}.
(** [resp.data]; [predictions] is [None] when the array is absent. *)
Record data : Type := {
  predictions : option (list prediction)
}.
End Remote.

(** The body of a remote error response, as axios hands it over: a JSON
    scalar, a text, or a structured value (an object or an array); a
    missing or [null] body is [None] in [response_data] below. *)
Inductive payload : Type :=
| Bool_payload (b : bool)
| Number_payload (x : Qc)
| Text_payload (s : string)
| Structured_payload (fields : list (string * string)).

(** The rejection of [axios.post]: [response_data] is [err.response.data]
    when the classifier answered, [message] is [err.message]. *)
Record AxiosError : Type := {
  response_data : option payload;
  message : string
}.

(** A settled promise: when it settled and how. *)
Record settled (A : Type) : Type := {
  tick : nat;
  result : AxiosError + A
}.
Arguments tick {A} s.
Arguments result {A} s.

Inductive promise (A : Type) : Type :=
| Fulfilled (value : A)
| Rejected (err : AxiosError).
Arguments Fulfilled {A} value.
Arguments Rejected {A} err.

(** The network: the answer to the [seq]-th request issued while one
    [/classify] call is handled. *)
Definition Network : Type := nat -> Request -> settled Remote.data.

(** The rejection that settles first; of two at the same tick, the one of
    the earlier promise. *)
Fixpoint earliest_rejection {A : Type} (ps : list (settled A))
  : option (nat * AxiosError) :=
  match ps with
  | [] => None
  | p :: ps' =>
      match result p, earliest_rejection ps' with
      | inl e, Some (t, e') =>
          if (t <? tick p)%nat then Some (t, e') else Some (tick p, e)
      | inl e, None => Some (tick p, e)
      | inr _, r => r
      end
  end.

Fixpoint fulfilled_values {A : Type} (ps : list (settled A)) : list A :=
  match ps with
  | [] => []
  | p :: ps' =>
      match result p with
      | inl _ => fulfilled_values ps'
      | inr a => a :: fulfilled_values ps'
      end
  end.

(** [Promise.all]: rejects with the first rejection, otherwise fulfils with
    every value in the order of the promises. *)
Definition Promise_all {A : Type} (ps : list (settled A)) : promise (list A) :=
  match earliest_rejection ps with
  | Some (_, e) => Rejected e
  | None => Fulfilled (fulfilled_values ps)
  end.

Definition request_for (endpointUrl predictionKey imageUrl : string) : Request :=
  {| url := endpointUrl;
     Url := imageUrl;
     Prediction_Key := predictionKey;
     Content_Type := "application/json";
     timeout := 25000%N |}.

(** [resp.data.predictions || []], then the projection of lines 29-32. *)
Definition normalize (imageUrl : string) (data : Remote.data) : ImagePrediction :=
  let predictions :=
    match Remote.predictions data with
    | Some ps => ps
    | None => []
    end in
  {| imageUrl := imageUrl;
     predictions :=
       map (fun p => {| tagName := Remote.tagName p;
                        probability := Remote.probability p |})
           predictions |}.

(** The async callback of line 13, for the request numbered [seq]. *)
Definition predict_one (axios_post : Network) (endpointUrl predictionKey : string)
  (seq : nat) (imageUrl : string) : settled ImagePrediction :=
  let resp := axios_post seq (request_for endpointUrl predictionKey imageUrl) in
  {| tick := tick resp;
     result :=
       match result resp with
       | inl err => inl err
       | inr data => inr (normalize imageUrl data)
       end |}.

Fixpoint map_from {A B : Type} (f : nat -> A -> B) (start : nat) (l : list A)
  : list B :=
  match l with
  | [] => []
  | a :: l' => f start a :: map_from f (S start) l'
  end.

(** [batchPredict], threading the list of requests issued so far. *)
Definition batchPredict (axios_post : Network) (issued : list Request)
  (imageUrls : list string) (endpointUrl predictionKey : string)
  : list Request * promise (list ImagePrediction) :=
  let requests :=
    map_from (predict_one axios_post endpointUrl predictionKey)
             (List.length issued) imageUrls in
  (issued ++ map (request_for endpointUrl predictionKey) imageUrls,
   Promise_all requests).

(** ** The [POST /classify] handler *)

(** [process.env]: the six variables the handler reads. *)
Record Env : Type := {
  MODEL_NOT_MODEL_URL : option string;
  MODEL_NOT_MODEL_KEY : option string;
  CIVILIAN_HYBRID_URL : option string;
  CIVILIAN_HYBRID_KEY : option string;
  SUPERMODEL_COMMON_URL : option string;
  SUPERMODEL_COMMON_KEY : option string
}.

(** [v || d] on an environment variable. *)
Definition or_else (v : option string) (d : string) : string :=
  match v with
  | Some s => if s =? "" then d else s
  | None => d
  end.

(** [!v] on an environment variable. *)
Definition unset (v : option string) : bool :=
  match v with
  | Some s => s =? ""
  | None => true
  end.

(** The string sent as [Prediction-Key] once [v] is known to be set. *)
Definition key_of (v : option string) : string :=
  match v with
  | Some s => s
  | None => ""
  end.

(** A JSON value found under [imageUrls] in the request body. *)
Inductive json : Type :=
| JNull
| JBool (b : bool)
| JNumber (x : Qc)
| JString (s : string)
| JArray (items : list string)
| JObject (fields : list (string * string)).

(** [req.body]: [undefined] when [express.json()] parsed no body, otherwise
    the parsed value, of which the handler reads [imageUrls] only:
    [imageUrls] is [None] when the body has no such field. *)
Inductive Body : Type :=
| Body_undefined
| Body_object (imageUrls : option json).

(** The value under [imageUrls] of a body that has one. *)
Definition body_imageUrls (body : Body) : option json :=
  match body with
  | Body_undefined => None
  | Body_object imageUrls => imageUrls
  end.

(** The array behind a value for which [Array.isArray] holds. *)
Definition as_array (v : option json) : option (list string) :=
  match v with
  | Some (JArray items) => Some items
  | _ => None
  end.

Module Stage1.
Record t : Type := {
  predictor : string;
  averages : object number;
  perImage : list ImagePrediction;
  isModel : bool;
  modelProbability : number;
  notModelProbability : number
}.
End Stage1.

Module Stage2.
Record t : Type := {
  predictor : string;
  branch : string;
  averages : object number;
  perImage : list ImagePrediction;
  finalLabel : option string;
  finalLabelProbability : number;
  highConfidence : bool;
  confidenceThreshold : number
}.
End Stage2.

Record Input : Type := {
  imageCount : nat;
  imageUrls : list string
}.

(** The success payload. *)
Record ClassificationResult : Type := {
  input : Input;
  stage1 : Stage1.t;
  stage2 : Stage2.t
}.

(** The [details] field of the 500 body. *)
Inductive Details : Type :=
| Remote_payload (p : payload)
| Error_message (s : string).

Inductive ResponseBody : Type :=
| Error_only (error : string)
| Error_with_details (error : string) (details : Details)
| Result (r : ClassificationResult).

Record Response : Type := {
  status : nat;
  json_body : ResponseBody
}.

(** What handling one request did: the response sent, whether control
    reached the credential check of line 110, and the requests posted. *)
Record Handled : Type := {
  response : Response;
  credentials_checked : bool;
  posted : list Request
}.

(** Truthiness of a payload, as [||] tests it. *)
Definition payload_truthy (p : payload) : bool :=
  match p with
  | Bool_payload b => b
  | Number_payload x => negb (Qc_is_zero x)
  | Text_payload s => negb (s =? "")
  | Structured_payload _ => true
  end.

(** [err.message || "Unknown error"]. *)
Definition message_or_unknown (err : AxiosError) : Details :=
  if message err =? "" then Error_message "Unknown error"
  else Error_message (message err).

(** [err?.response?.data || err.message || "Unknown error"]. *)
Definition error_details (err : AxiosError) : Details :=
  match response_data err with
  | Some p => if payload_truthy p then Remote_payload p else message_or_unknown err
  | None => message_or_unknown err
  end.

(** The [catch] block of lines 180-189. *)
Definition internal_error (err : AxiosError) (issued : list Request) : Handled :=
  {| response :=
       {| status := 500;
          json_body := Error_with_details "Internal server error" (error_details err) |};
     credentials_checked := true;
     posted := issued |}.

(** What [req.body.imageUrls] throws on line 85 when [req.body] is
    [undefined], seen through the two fields the [catch] block reads: a
    [TypeError] has a message and no [response]. *)
Definition body_TypeError : AxiosError :=
  {| response_data := None;
     message := "Cannot read properties of undefined (reading 'imageUrls')" |}.

(** The [catch] block, reached from line 85. *)
Definition unreadable_body : Handled :=
  {| response :=
       {| status := 500;
          json_body :=
            Error_with_details "Internal server error"
                               (error_details body_TypeError) |};
     credentials_checked := false;
     posted := [] |}.

Definition bad_request : Handled :=
  {| response :=
       {| status := 400;
          json_body := Error_only "imageUrls must be a non-empty array of URLs" |};
     credentials_checked := false;
     posted := [] |}.

Definition keys_not_set : Handled :=
  {| response :=
       {| status := 500;
          json_body :=
            Error_only
              "Prediction keys not set (MODEL_NOT_MODEL_KEY / CIVILIAN_HYBRID_KEY / SUPERMODEL_COMMON_KEY)" |};
     credentials_checked := true;
     posted := [] |}.

(** [v ?? d] on the result of a property read.  An inherited member is not
    nullish; in a numeric comparison it behaves as [NaN]. *)
Definition nullish_or (v : lookup number) (d : number) : number :=
  match v with
  | Own x => x
  | Undefined => d
  | Inherited _ => NaN
  end.

Definition default_modelNotModelUrl : string :=
  "https://gesmodelsclassification-prediction.cognitiveservices.azure.com/customvision/v3.0/Prediction/35afe559-03ae-4d8c-91e9-ed001feac52e/classify/iterations/ModelNotModelPredictor/url".

Definition default_civilianHybridUrl : string :=
  "https://gesmodelsclassification-prediction.cognitiveservices.azure.com/customvision/v3.0/Prediction/d784e366-21a8-4231-8058-6f2ad50a72e0/classify/iterations/CivilianHybridPredictor/url".

Definition default_superCommonUrl : string :=
  "https://germanywestcentral.api.cognitive.microsoft.com/customvision/v3.0/Prediction/133f6dd8-c9e3-4a86-84d7-c1b6fdd4ef69/classify/iterations/SuperModelCommonModelPredictor/url".

(** Lines 95-108: the three endpoints, each with its default. *)
Definition modelNotModelUrl (env : Env) : string :=
  or_else (MODEL_NOT_MODEL_URL env) default_modelNotModelUrl.

Definition civilianHybridUrl (env : Env) : string :=
  or_else (CIVILIAN_HYBRID_URL env) default_civilianHybridUrl.

Definition superCommonUrl (env : Env) : string :=
  or_else (SUPERMODEL_COMMON_URL env) default_superCommonUrl.

Definition modelNotModelKey (env : Env) : option string := MODEL_NOT_MODEL_KEY env.
Definition civilianHybridKey (env : Env) : option string := CIVILIAN_HYBRID_KEY env.
Definition superCommonKey (env : Env) : option string := SUPERMODEL_COMMON_KEY env.

(** Lines 130-133: the stage-1 decision. *)
Definition modelProb (stage1Averages : object number) : number :=
  nullish_or (Get stage1Averages "Model") (Fin 0).

Definition notModelProb (stage1Averages : object number) : number :=
  nullish_or (Get stage1Averages "NOT Model") (Fin 0).

Definition isModel (stage1Averages : object number) : bool :=
  js_ge (modelProb stage1Averages) (notModelProb stage1Averages).

(** Lines 139-146: the branch. *)
Definition useSuperCommon (stage1Averages : object number) : bool :=
  isModel stage1Averages.

Definition stage2Url (env : Env) (stage1Averages : object number) : string :=
  if useSuperCommon stage1Averages then superCommonUrl env
  else civilianHybridUrl env.

Definition stage2Key (env : Env) (stage1Averages : object number) : string :=
  if useSuperCommon stage1Averages then key_of (superCommonKey env)
  else key_of (civilianHybridKey env).

Definition predictorName (stage1Averages : object number) : string :=
  if useSuperCommon stage1Averages then "SuperModel/Common Model Predictor"
  else "Civilian/Hybrid Predictor".

Definition branch (stage1Averages : object number) : string :=
  if useSuperCommon stage1Averages then "SuperModelCommonModel"
  else "CivilianHybrid".

(** Lines 153-154: the literal [0.95] is the binary64 number nearest to
    95/100. *)
Definition threshold : number := literal (95 # 100).

Definition thresholdMet (finalResult : MaxLabel.t) : bool :=
  js_ge (MaxLabel.probability finalResult) threshold.

(** Lines 149-150 and the object of lines 156-179. *)
Definition result_object (imageUrls : list string)
  (stage1PerImage stage2PerImage : list ImagePrediction) : ClassificationResult :=
  let stage1Averages := averageByTag stage1PerImage in
  let stage2Averages := averageByTag stage2PerImage in
  let finalResult := getMaxLabel stage2Averages in
  {| input :=
       {| imageCount := List.length imageUrls;
          imageUrls := imageUrls |};
     stage1 :=
       {| Stage1.predictor := "Model/NOT Model Predictor";
          Stage1.averages := stage1Averages;
          Stage1.perImage := stage1PerImage;
          Stage1.isModel := isModel stage1Averages;
          Stage1.modelProbability := modelProb stage1Averages;
          Stage1.notModelProbability := notModelProb stage1Averages |};
     stage2 :=
       {| Stage2.predictor := predictorName stage1Averages;
          Stage2.branch := branch stage1Averages;
          Stage2.averages := stage2Averages;
          Stage2.perImage := stage2PerImage;
          Stage2.finalLabel := MaxLabel.label finalResult;
          Stage2.finalLabelProbability := MaxLabel.probability finalResult;
          Stage2.highConfidence := thresholdMet finalResult;
          Stage2.confidenceThreshold := threshold |} |}.

(** [res.json(...)] of line 156: status 200. *)
Definition ok (issued : list Request) (r : ClassificationResult) : Handled :=
  {| response := {| status := 200; json_body := Result r |};
     credentials_checked := true;
     posted := issued |}.

(** The handler of lines 83-190. *)
Definition classify (env : Env) (axios_post : Network) (body : Body) : Handled :=
  match body with
  | Body_undefined => unreadable_body
  | Body_object imageUrls =>
      match as_array imageUrls with
      | None => bad_request
      | Some imageUrls =>
          if (List.length imageUrls =? 0)%nat then bad_request
          else if unset (modelNotModelKey env) || unset (civilianHybridKey env)
                  || unset (superCommonKey env)
          then keys_not_set
          else
            let '(issued, stage1) :=
              batchPredict axios_post [] imageUrls (modelNotModelUrl env)
                           (key_of (modelNotModelKey env)) in
            match stage1 with
            | Rejected err => internal_error err issued
            | Fulfilled stage1PerImage =>
                let stage1Averages := averageByTag stage1PerImage in
                let '(issued, stage2) :=
                  batchPredict axios_post issued imageUrls
                               (stage2Url env stage1Averages)
                               (stage2Key env stage1Averages) in
                match stage2 with
                | Rejected err => internal_error err issued
                | Fulfilled stage2PerImage =>
                    ok issued
                       (result_object imageUrls stage1PerImage stage2PerImage)
                end
            end
      end
  end.

(** ** Vocabulary of the specification *)

(** A probability is a finite number between 0 and 1. *)
Definition is_probability (x : number) : Prop :=
  exists q : Qc, x = Fin q /\ (0 <= q)%Qc /\ (q <= 1)%Qc.

(** Some prediction of the list carries the label [L]. *)
Definition mentions (L : string) (ps : list Prediction) : bool :=
  existsb (fun p => tagName p =? L) ps.

(** The probability a list of predictions gives to [L]: what its entries
    for [L] add up to, 0 when it has none. *)
Fixpoint total (L : string) (ps : list Prediction) : Qc :=
  match ps with
  | [] => 0%Qc
  | p :: ps' =>
      ((if tagName p =? L then value (probability p) else 0) + total L ps')%Qc
  end.

Definition image_probability (L : string) (img : ImagePrediction) : Qc :=
  total L (predictions img).

(** The sum over all images of the image's probability for [L]. *)
Fixpoint batch_sum (L : string) (perImage : list ImagePrediction) : Qc :=
  match perImage with
  | [] => 0%Qc
  | img :: rest => (image_probability L img + batch_sum L rest)%Qc
  end.

(** That sum divided by the number of images. *)
Definition mean_over_images (L : string) (perImage : list ImagePrediction) : Qc :=
  (batch_sum L perImage / Qc_of_nat (List.length perImage))%Qc.

(** What lines 50-51 make of the running sum [acc] of [L] over a list of
    predictions: every probability given to [L] is added in turn, and every
    addition is rounded. *)
Definition add_mentions (L : string) (acc : number) (ps : list Prediction)
  : number :=
  fold_left
    (fun acc p => if tagName p =? L then js_add acc (Fin (probability p)) else acc)
    ps acc.

(** The sum for [L] as the loops compute it: from 0, image after image. *)
Definition rounded_sum (L : string) (perImage : list ImagePrediction) : number :=
  fold_left (fun acc img => add_mentions L acc (predictions img)) perImage (Fin 0).

(** That sum divided by the number of images, the quotient rounded. *)
Definition rounded_mean (L : string) (perImage : list ImagePrediction) : number :=
  js_div (rounded_sum L perImage) (List.length perImage).

(** [L] occurs in the predictions of at least one image. *)
Definition seen (L : string) (perImage : list ImagePrediction) : bool :=
  existsb (fun img => mentions L (predictions img)) perImage.

(** No image lists a label twice. *)
Definition distinct_labels (perImage : list ImagePrediction) : Prop :=
  forall img, In img perImage -> NoDup (map tagName (predictions img)).

(** Every prediction of the batch carries a probability in [0,1]. *)
Definition probabilities_valid (perImage : list ImagePrediction) : Prop :=
  forall img p, In img perImage -> In p (predictions img) ->
    (0 <= probability p)%Qc /\ (probability p <= 1)%Qc.

(** [o[k]] with a default for an absent key. *)
Definition lookup_or_zero (o : object number) (k : string) : number :=
  match get_own o k with
  | Some x => x
  | None => Fin 0
  end.

(** The configuration passes the check of line 110. *)
Definition keys_set (env : Env) : Prop :=
  unset (modelNotModelKey env) = false /\
  unset (civilianHybridKey env) = false /\
  unset (superCommonKey env) = false.

(** The request numbered [seq] among those [h] posted was rejected with [err]. *)
Definition rejected_at (axios_post : Network) (h : Handled) (seq : nat)
  (err : AxiosError) : Prop :=
  exists req, nth_error (posted h) seq = Some req /\
              result (axios_post seq req) = inl err.

(** Every request [h] posted was answered successfully. *)
Definition all_answered (axios_post : Network) (h : Handled) : Prop :=
  forall seq req, nth_error (posted h) seq = Some req ->
    exists data, result (axios_post seq req) = inr data.

(** ** Invariants used in the proofs *)

(** An object built by assignments from [{}]: its keys are distinct and
    [__proto__] is not among them. *)
Definition well_formed {A : Type} (o : object A) : Prop :=
  NoDup (keys o) /\ ~ In "__proto__" (keys o).

(** The slot of [sums] for [L] holds the number [s] when [m] is true and
    does not exist when [m] is false; [s] is never [NaN]. *)
Definition slot_is (sums : object slot) (L : string) (m : bool) (s : number)
  : Prop :=
  get_own sums L = (if m then Some (SNum s) else None) /\
  (m = false -> s = Fin 0) /\
  s <> NaN.

(** The slot of [sums] for [L] holds a string when [m] is true and does
    not exist when [m] is false. *)
Definition slot_is_text (sums : object slot) (L : string) (m : bool) : Prop :=
  if m then exists t, get_own sums L = Some (SStr t) else get_own sums L = None.

(** A slot whose numeric value, when finite, is at most [Number.MAX_VALUE]
    in magnitude. *)
Definition slot_bounded (s : slot) : Prop :=
  forall a, ToNumber s = Fin a ->
    (- max_double <= a)%Qc /\ (a <= max_double)%Qc.

(** The largest value a sum of [k] probabilities can reach: binary64
    additions of numbers up to 1 are exact up to [2^53], and stay there. *)
Definition cap (k : nat) : Qc :=
  Q2Qc (inject_Z (Z.min (Z.of_nat k) (2 ^ 53))).

(** A number that is at least 0: finite and not negative, or [+Infinity]. *)
Definition nonnegative (x : number) : Prop := js_ge x (Fin 0) = true.

(** ** Sample inputs *)

Definition prediction (t : string) (q : Q) : Prediction :=
  {| tagName := t; probability := nearest_double q |}.

Definition image (u : string) (ps : list Prediction) : ImagePrediction :=
  {| imageUrl := u; predictions := ps |}.

(** A classifier whose only tag is called [constructor]. *)
Definition constructor_batch : list ImagePrediction :=
  [ image "a.jpg" [ prediction "constructor" (1 # 2) ] ].

(** A classifier whose only tag is called [__proto__]. *)
Definition proto_batch : list ImagePrediction :=
  [ image "a.jpg" [ prediction "__proto__" (1 # 2) ] ].

(** One image for which the classifier lists the tag [Tank] twice. *)
Definition duplicate_batch : list ImagePrediction :=
  [ image "a.jpg" [ prediction "Tank" 1; prediction "Tank" 1 ] ].

(** The stage-1 batch of the end-to-end scenario. *)
Definition stage1_batch : list ImagePrediction :=
  [ image "a.jpg" [ prediction "Model" (9 # 10); prediction "NOT Model" (1 # 10) ];
    image "b.jpg" [ prediction "Model" (8 # 10); prediction "NOT Model" (2 # 10) ] ].

(** Averages with an exact tie between two labels. *)
Definition tied_averages : object number :=
  [ ("Tank", Fin (Q2Qc (2 # 5))); ("Jeep", Fin (Q2Qc (1 # 2)));
    ("Truck", Fin (Q2Qc (1 # 2))) ].

Definition sample_env : Env :=
  {| MODEL_NOT_MODEL_URL := None;
     MODEL_NOT_MODEL_KEY := Some "key-1";
     CIVILIAN_HYBRID_URL := None;
     CIVILIAN_HYBRID_KEY := Some "key-2";
     SUPERMODEL_COMMON_URL := None;
     SUPERMODEL_COMMON_KEY := Some "key-3" |}.

Definition sample_body : Body :=
  Body_object (Some (JArray ["a.jpg"; "b.jpg"])).

(** The body [{}]. *)
Definition empty_body : Body := Body_object None.

Definition remote_prediction (t : string) (q : Q) : Remote.prediction :=
  {| Remote.tagName := t;
     Remote.probability := nearest_double q;
     Remote.others := [("tagId", "0000")] |}.

Definition answered (t : nat) (ps : option (list Remote.prediction))
  : settled Remote.data :=
  {| tick := t; result := inr {| Remote.predictions := ps |} |}.

Definition timed_out (t : nat) : settled Remote.data :=
  {| tick := t;
     result := inl {| response_data := None;
                      message := "timeout of 25000ms exceeded" |} |}.

(** A classifier that answers stage 1 with [model] and [notModel] for every
    image, and stage 2 with [stage2] for every image. *)
Definition network_of (model notModel : Q) (stage2 : option (list Remote.prediction))
  : Network :=
  fun seq req =>
    if url req =? default_modelNotModelUrl
    then answered seq (Some [ remote_prediction "Model" model;
                              remote_prediction "NOT Model" notModel ])
    else answered seq stage2.

(** Stage 1 says Model, stage 2 says Tank with probability 0.97. *)
Definition sample_network : Network :=
  network_of (9 # 10) (1 # 10) (Some [ remote_prediction "Tank" (97 # 100) ]).

(** Stage 2 says Tank with probability 0.5. *)
Definition unsure_network : Network :=
  network_of (9 # 10) (1 # 10) (Some [ remote_prediction "Tank" (1 # 2) ]).

(** Stage 1 is an exact tie. *)
Definition tied_network : Network :=
  network_of (1 # 2) (1 # 2) (Some [ remote_prediction "Tank" (97 # 100) ]).

(** Stage 2 answers without a [predictions] array. *)
Definition silent_network : Network :=
  network_of (9 # 10) (1 # 10) None.

(** The second request of stage 1 times out. *)
Definition failing_network : Network :=
  fun seq req =>
    if (seq =? 1)%nat then timed_out 7 else sample_network seq req.

(** What a fulfilled stage 1 holds on [tied_network]. *)
Definition tied_batch : list ImagePrediction :=
  [ image "a.jpg" [ prediction "Model" (1 # 2); prediction "NOT Model" (1 # 2) ];
    image "b.jpg" [ prediction "Model" (1 # 2); prediction "NOT Model" (1 # 2) ] ].

(** The second image does not mention [Tank]. *)
Definition partial_batch : list ImagePrediction :=
  [ image "a.jpg" [ prediction "Tank" (1 # 2) ]; image "b.jpg" [] ].

(** [CIVILIAN_HYBRID_KEY] is not configured. *)
Definition keyless_env : Env :=
  {| MODEL_NOT_MODEL_URL := None;
     MODEL_NOT_MODEL_KEY := Some "key-1";
     CIVILIAN_HYBRID_URL := None;
     CIVILIAN_HYBRID_KEY := None;
     SUPERMODEL_COMMON_URL := None;
     SUPERMODEL_COMMON_KEY := Some "key-3" |}.

(** The classifier of the end-to-end scenario: stage 1 answers
    Model 0.9 / 0.8, stage 2 answers Tank 0.97 / 0.93. *)
Definition scenario_network : Network :=
  fun seq req =>
    if url req =? default_modelNotModelUrl
    then if Url req =? "a.jpg"
         then answered seq (Some [ remote_prediction "Model" (9 # 10);
                                   remote_prediction "NOT Model" (1 # 10) ])
         else answered seq (Some [ remote_prediction "Model" (8 # 10);
                                   remote_prediction "NOT Model" (2 # 10) ])
    else if Url req =? "a.jpg"
         then answered seq (Some [ remote_prediction "Tank" (97 # 100) ])
         else answered seq (Some [ remote_prediction "Tank" (93 # 100) ]).

(** Labels that are array indices, and labels that are not. *)
Definition numbered_batch : list ImagePrediction :=
  [ image "a.jpg" [ prediction "b" (1 # 2); prediction "10" (1 # 2);
                    prediction "9" (1 # 2); prediction "a" (1 # 2);
                    prediction "007" (1 # 2) ] ].

(** ** Vocabulary of the further properties *)

(** Append a label to the labels met so far, unless it is there already;
    [__proto__] is never recorded. *)
Definition add_key (ks : list string) (t : string) : list string :=
  if t =? "__proto__" then ks
  else if existsb (String.eqb t) ks then ks
  else ks ++ [t].

(** The distinct labels of a list in the order of their first appearance. *)
Definition first_seen (tags : list string) : list string :=
  fold_left add_key tags [].

(** Every label the batch mentions, in the order the loops meet them. *)
Definition all_labels (perImage : list ImagePrediction) : list string :=
  map tagName (flat_map predictions perImage).

(** The mean of [L] as the code computes it, 0 for a label no image
    mentions. *)
Definition rounded_mean_or_zero (L : string) (perImage : list ImagePrediction)
  : number :=
  if seen L perImage then rounded_mean L perImage else Fin 0.

(** Every probability of the batch is at least 0. *)
Definition probabilities_nonnegative (perImage : list ImagePrediction) : Prop :=
  forall img p, In img perImage -> In p (predictions img) ->
    (0 <= probability p)%Qc.

(** The request body passes the validation of line 87 with the URLs [urls]. *)
Definition validated (body : Body) (urls : list string) : Prop :=
  as_array (body_imageUrls body) = Some urls /\ urls <> [].

(** No label of the batch is an array index. *)
Definition no_index_labels (perImage : list ImagePrediction) : Prop :=
  forall img p, In img perImage -> In p (predictions img) ->
    array_index (tagName p) = None.

(** One image in which [Jeep] and [Truck] tie above [Tank]. *)
Definition tied_prediction_batch : list ImagePrediction :=
  [ image "a.jpg" [ prediction "Tank" (2 # 5); prediction "Jeep" (1 # 2);
                    prediction "Truck" (1 # 2) ] ].

(** Three images whose probabilities for [Model] are those for
    [NOT Model] in the opposite order. *)
Definition reversed_batch : list ImagePrediction :=
  [ image "a.jpg" [ prediction "Model" (3 # 10); prediction "NOT Model" (1 # 10) ];
    image "b.jpg" [ prediction "Model" (2 # 10); prediction "NOT Model" (2 # 10) ];
    image "c.jpg" [ prediction "Model" (1 # 10); prediction "NOT Model" (3 # 10) ] ].

(** The same with the labels [A] and [B]. *)
Definition swapped_batch : list ImagePrediction :=
  [ image "a.jpg" [ prediction "A" (3 # 10); prediction "B" (1 # 10) ];
    image "b.jpg" [ prediction "A" (2 # 10); prediction "B" (2 # 10) ];
    image "c.jpg" [ prediction "A" (1 # 10); prediction "B" (3 # 10) ] ].

(** Two images that give [Tank] the probability 1e308. *)
Definition overflow_batch : list ImagePrediction :=
  [ image "a.jpg" [ prediction "Tank" (inject_Z (10 ^ 308)) ];
    image "b.jpg" [ prediction "Tank" (inject_Z (10 ^ 308)) ] ].

(** Three images that give [Tank] the probability 0.95. *)
Definition uniform_batch : list ImagePrediction :=
  [ image "a.jpg" [ prediction "Tank" (95 # 100) ];
    image "b.jpg" [ prediction "Tank" (95 # 100) ];
    image "c.jpg" [ prediction "Tank" (95 # 100) ] ].

(** The result object of the end-to-end scenario. *)
Definition scenario_result : ClassificationResult :=
  result_object ["a.jpg"; "b.jpg"] stage1_batch
    [ image "a.jpg" [ prediction "Tank" (97 # 100) ];
      image "b.jpg" [ prediction "Tank" (93 # 100) ] ].

(** What stage 1 holds on [sample_network]. *)
Definition sample_stage1 : list ImagePrediction :=
  [ image "a.jpg" [ prediction "Model" (9 # 10); prediction "NOT Model" (1 # 10) ];
    image "b.jpg" [ prediction "Model" (9 # 10); prediction "NOT Model" (1 # 10) ] ].

(** [sample_network] with the requests settling in the opposite order. *)
Definition late_network : Network :=
  fun seq req =>
    {| tick := 100 - seq; result := result (sample_network seq req) |}.

(** * Properties *)

(** ** Own properties of an object *)

Section ObjectFacts.
Context {A : Type}.
Implicit Types (o : object A) (k : string) (v : A).

Lemma get_own_In_keys o k :
  get_own o k <> None <-> In k (keys o).
Proof.
  induction o as [|[k' v'] o IH]; simpl.
  - split; [congruence | tauto].
  - destruct (String.eqb_spec k' k) as [->|Hne].
    + split; [auto | congruence].
    + rewrite IH. split; [auto | intros [H|H]; [congruence | exact H]].
Qed.

Lemma get_own_None_keys o k :
  get_own o k = None <-> ~ In k (keys o).
Proof.
  rewrite <- get_own_In_keys.
  destruct (get_own o k); split; intros H; try congruence.
  elim H. discriminate.
Qed.

Lemma get_own_In o k v :
  get_own o k = Some v -> In (k, v) (entries o).
Proof.
  induction o as [|[k' v'] o IH]; simpl; [discriminate|].
  destruct (String.eqb_spec k' k) as [->|Hne].
  - intros [= ->]. now left.
  - intros H. right. now apply IH.
Qed.

Lemma In_get_own o k v :
  NoDup (keys o) -> In (k, v) (entries o) -> get_own o k = Some v.
Proof.
  induction o as [|[k' v'] o IH]; simpl; [tauto|].
  intros Hnd [Heq|Hin].
  - injection Heq as -> ->. now rewrite String.eqb_refl.
  - inversion Hnd as [|? ? Hnotin Hnd']; subst.
    destruct (String.eqb_spec k' k) as [->|Hne].
    + exfalso. apply Hnotin. change (In k (map fst o)).
      now apply (in_map fst) in Hin.
    + now apply IH.
Qed.

Lemma get_own_replace_own o k v k' :
  get_own (replace_own o k v) k' =
  if k =? k' then option_map (fun _ => v) (get_own o k) else get_own o k'.
Proof.
  induction o as [|[k0 v0] o IH]; simpl.
  - now destruct (k =? k').
  - destruct (String.eqb_spec k0 k) as [->|Hne]; simpl.
    + destruct (String.eqb_spec k k') as [->|Hne']; reflexivity.
    + rewrite IH.
      destruct (String.eqb_spec k0 k') as [->|Hne'].
      * destruct (String.eqb_spec k k') as [->|]; [now elim Hne | reflexivity].
      * reflexivity.
Qed.

Lemma keys_replace_own o k v : keys (replace_own o k v) = keys o.
Proof.
  induction o as [|[k0 v0] o IH]; simpl; [reflexivity|].
  destruct (k0 =? k); simpl; [reflexivity | now f_equal].
Qed.

Lemma get_own_insert_index o i k v k' :
  get_own o k = None ->
  get_own (insert_index o i k v) k' = if k =? k' then Some v else get_own o k'.
Proof.
  induction o as [|[k0 v0] o IH]; simpl; intros Hnone.
  - reflexivity.
  - destruct (String.eqb_spec k0 k) as [->|Hne]; [discriminate|].
    destruct (array_index k0) as [j|]; [destruct (j <? i)%N|]; simpl;
      try reflexivity.
    rewrite (IH Hnone).
    destruct (String.eqb_spec k0 k') as [->|Hne'];
      [destruct (String.eqb_spec k k') as [->|]; [now elim Hne | reflexivity]
      | reflexivity].
Qed.

Lemma keys_insert_index o i k v :
  exists pre post, keys o = pre ++ post /\
                   keys (insert_index o i k v) = pre ++ k :: post.
Proof.
  induction o as [|[k0 v0] o (pre & post & Ho & Hins)]; simpl.
  - now exists [], [].
  - destruct (array_index k0) as [j|]; [destruct (j <? i)%N|]; simpl.
    + exists (k0 :: pre), post. simpl. now rewrite Ho, Hins.
    + now exists [], (k0 :: keys o).
    + now exists [], (k0 :: keys o).
Qed.

Lemma get_own_app_last o k v k' :
  get_own (o ++ [(k, v)]) k' =
  match get_own o k' with
  | Some x => Some x
  | None => if k =? k' then Some v else None
  end.
Proof.
  induction o as [|[k0 v0] o IH]; simpl; [reflexivity|].
  now destruct (k0 =? k').
Qed.

(** Reading after [define_own]. *)
Lemma get_own_define_own o k v k' :
  get_own (define_own o k v) k' = if k =? k' then Some v else get_own o k'.
Proof.
  unfold define_own. destruct (get_own o k) as [x|] eqn:Hk.
  - rewrite get_own_replace_own, Hk. reflexivity.
  - destruct (array_index k) as [i|].
    + now apply get_own_insert_index.
    + rewrite get_own_app_last.
      destruct (String.eqb_spec k k') as [->|Hne].
      * now rewrite Hk.
      * now destruct (get_own o k').
Qed.

Lemma In_keys_define_own o k v k' :
  In k' (keys (define_own o k v)) <-> k' = k \/ In k' (keys o).
Proof.
  rewrite <- !get_own_In_keys, get_own_define_own.
  destruct (String.eqb_spec k k') as [->|Hne].
  - split; [auto | congruence].
  - split; [auto | intros [H|H]; [congruence | exact H]].
Qed.

Lemma NoDup_define_own o k v :
  NoDup (keys o) -> NoDup (keys (define_own o k v)).
Proof.
  intros Hnd. unfold define_own. destruct (get_own o k) as [x|] eqn:Hk.
  - now rewrite keys_replace_own.
  - apply get_own_None_keys in Hk.
    destruct (array_index k) as [i|].
    + destruct (keys_insert_index o i k v) as (pre & post & Ho & ->).
      rewrite Ho in Hnd, Hk.
      apply (Permutation_NoDup (Permutation_middle pre post k)).
      now constructor.
    + unfold keys in *. rewrite map_app. simpl.
      apply (Permutation_NoDup (Permutation_cons_append (map fst o) k)).
      now constructor.
Qed.

End ObjectFacts.

(** ** Assignment *)

Section PutFacts.
Context {A : Type}.
Implicit Types (o : object A) (k : string) (v : A).

Lemma get_own_Put o k v k' :
  get_own (Put o k v) k' =
  if k =? "__proto__" then get_own o k'
  else if k =? k' then Some v else get_own o k'.
Proof.
  unfold Put. destruct (k =? "__proto__"); [reflexivity|].
  apply get_own_define_own.
Qed.

Lemma In_keys_Put o k v k' :
  In k' (keys (Put o k v)) <-> (k' = k /\ k <> "__proto__") \/ In k' (keys o).
Proof.
  unfold Put. destruct (String.eqb_spec k "__proto__") as [->|Hne].
  - split; [auto | intros [[_ H]|H]; [now elim H | exact H]].
  - rewrite In_keys_define_own. tauto.
Qed.

Lemma well_formed_empty : well_formed (@nil (string * A)).
Proof. split; [constructor | simpl; tauto]. Qed.

Lemma well_formed_Put o k v : well_formed o -> well_formed (Put o k v).
Proof.
  intros [Hnd Hproto]. unfold Put.
  destruct (String.eqb_spec k "__proto__") as [->|Hne]; [now split|].
  split; [now apply NoDup_define_own|].
  rewrite In_keys_define_own. intros [H|H]; [now elim Hne | now elim Hproto].
Qed.

End PutFacts.


(** ** Rounding to binary64 *)

Lemma number_eqb_eq (x y : number) : number_eqb x y = true -> x = y.
Proof.
  destruct x as [a| | |], y as [b| | |]; try discriminate; try reflexivity.
  cbn [number_eqb]. intros H. f_equal. apply Qc_is_canon.
  now apply Qeq_bool_iff.
Qed.

Lemma this_Q2Qc (q : Q) : (Q2Qc q == q)%Q.
Proof. apply Qred_correct. Qed.

Lemma this_Qcplus (a b : Qc) : ((a + b)%Qc == a + b)%Q.
Proof. apply Qred_correct. Qed.

Lemma this_Qcopp (a : Qc) : ((- a)%Qc == - a)%Q.
Proof. apply Qred_correct. Qed.

Lemma this_Qcdiv (a b : Qc) : ((a / b)%Qc == a / b)%Q.
Proof.
  unfold Qcdiv, Qcmult, Qcinv. rewrite this_Q2Qc.
  unfold Qdiv. now rewrite (this_Q2Qc (/ b)).
Qed.

Lemma two_neq_0 : ~ ((2 # 1) == 0)%Q.
Proof. discriminate. Qed.

Lemma pow2_pos e : (0 < pow2 e)%Q.
Proof. apply Qpower_0_lt. reflexivity. Qed.

Lemma pow2_add a b : (pow2 (a + b) == pow2 a * pow2 b)%Q.
Proof. apply Qpower_plus, two_neq_0. Qed.

Lemma pow2_le a b : (a <= b)%Z -> (pow2 a <= pow2 b)%Q.
Proof. intros H. apply Qpower_le_compat_l; [exact H | discriminate]. Qed.

Lemma pow2_lt a b : (a < b)%Z -> (pow2 a < pow2 b)%Q.
Proof. intros H. apply Qpower_lt_compat_l; [exact H | reflexivity]. Qed.

Lemma pow2_lt_inv a b : (pow2 a < pow2 b)%Q -> (a < b)%Z.
Proof. intros H. apply (Qpower_lt_compat_l_inv (2 # 1)); [exact H | reflexivity]. Qed.

Lemma pow2_Z e : (0 <= e)%Z -> (pow2 e == inject_Z (2 ^ e))%Q.
Proof. intros H. symmetry. apply (Zpower_Qpower 2 e H). Qed.

Lemma pow2_split a b : (pow2 a == pow2 (a - b) * pow2 b)%Q.
Proof. rewrite <- pow2_add. now replace (a - b + b)%Z with a by lia. Qed.

Lemma Qlog2_spec x :
  (0 < x)%Q -> (pow2 (Qlog2 x) <= x)%Q /\ (x < pow2 (Qlog2 x + 1))%Q.
Proof.
  intros Hx. destruct x as [n d]. unfold Qlog2. cbn [Qnum Qden].
  assert (Hn : (0 < n)%Z) by (unfold Qlt in Hx; simpl in Hx; lia).
  set (a := Z.log2 n). set (b := Z.log2 (Zpos d)).
  destruct (Z.log2_spec n Hn) as [Ha1 Ha2]. fold a in Ha1, Ha2.
  destruct (Z.log2_spec (Zpos d) (Pos2Z.is_pos d)) as [Hb1 Hb2]. fold b in Hb1, Hb2.
  assert (Ha0 : (0 <= a)%Z) by apply Z.log2_nonneg.
  assert (Hb0 : (0 <= b)%Z) by apply Z.log2_nonneg.
  assert (Hx' : (n # d == inject_Z n / inject_Z (Zpos d))%Q) by apply Qmake_Qdiv.
  assert (Hd : (0 < inject_Z (Zpos d))%Q) by reflexivity.
  assert (Hmul : ((n # d) * inject_Z (Zpos d) == inject_Z n)%Q).
  { rewrite Hx'. field. discriminate. }
  assert (Qa1 : (pow2 a <= inject_Z n)%Q) by (rewrite pow2_Z by lia; now rewrite <- Zle_Qle).
  assert (Qa2 : (inject_Z n < pow2 (a + 1))%Q) by (rewrite pow2_Z by lia; now rewrite <- Zlt_Qlt).
  assert (Qb1 : (pow2 b <= inject_Z (Zpos d))%Q) by (rewrite pow2_Z by lia; now rewrite <- Zle_Qle).
  assert (Qb2 : (inject_Z (Zpos d) < pow2 (b + 1))%Q) by (rewrite pow2_Z by lia; now rewrite <- Zlt_Qlt).
  assert (Hup : (n # d < pow2 (a - b + 1))%Q).
  { apply (Qmult_lt_r _ _ (inject_Z (Zpos d)) Hd). rewrite Hmul.
    eapply Qlt_le_trans; [exact Qa2|].
    rewrite (pow2_split (a + 1) b). replace (a + 1 - b)%Z with (a - b + 1)%Z by lia.
    apply Qmult_le_l; [apply pow2_pos | exact Qb1]. }
  assert (Hlow : (pow2 (a - b - 1) < n # d)%Q).
  { apply (Qmult_lt_r _ _ (inject_Z (Zpos d)) Hd). rewrite Hmul.
    eapply Qlt_le_trans; [|exact Qa1].
    rewrite (pow2_split a (b + 1)). replace (a - (b + 1))%Z with (a - b - 1)%Z by lia.
    apply Qmult_lt_l; [apply pow2_pos | exact Qb2]. }
  destruct (Qle_bool (pow2 (a - b)) (n # d)) eqn:E.
  - apply Qle_bool_iff in E. split; assumption.
  - split.
    + apply Qlt_le_weak. exact Hlow.
    + replace (a - b - 1 + 1)%Z with (a - b)%Z by lia.
      apply Qnot_le_lt. intros H. apply Qle_bool_iff in H. congruence.
Qed.

Lemma Qlog2_monotone x y : (0 < x)%Q -> (x <= y)%Q -> (Qlog2 x <= Qlog2 y)%Z.
Proof.
  intros Hx Hxy.
  destruct (Qlog2_spec x Hx) as [H1 _].
  destruct (Qlog2_spec y (Qlt_le_trans _ _ _ Hx Hxy)) as [_ H2].
  assert (H : (pow2 (Qlog2 x) < pow2 (Qlog2 y + 1))%Q).
  { eapply Qle_lt_trans; [exact H1|]. eapply Qle_lt_trans; [exact Hxy | exact H2]. }
  apply pow2_lt_inv in H. lia.
Qed.

Lemma Qlog2_below x e : (0 < x)%Q -> (x < pow2 e)%Q -> (Qlog2 x < e)%Z.
Proof.
  intros Hx H. destruct (Qlog2_spec x Hx) as [H1 _].
  apply pow2_lt_inv. eapply Qle_lt_trans; eassumption.
Qed.

Lemma Qlog2_above x e : (pow2 e <= x)%Q -> (e <= Qlog2 x)%Z.
Proof.
  intros H.
  assert (Hx : (0 < x)%Q) by (eapply Qlt_le_trans; [apply pow2_pos | exact H]).
  destruct (Qlog2_spec x Hx) as [_ H2].
  assert (H' : (pow2 e < pow2 (Qlog2 x + 1))%Q) by (eapply Qle_lt_trans; eassumption).
  apply pow2_lt_inv in H'. lia.
Qed.

Lemma round_half_even_bounds x :
  (Qfloor x <= round_half_even x <= Qfloor x + 1)%Z.
Proof.
  unfold round_half_even.
  destruct (x - inject_Z (Qfloor x) ?= 1 # 2)%Q; [destruct (Z.even _)| |]; lia.
Qed.

Lemma round_half_even_Z z : round_half_even (inject_Z z) = z.
Proof.
  unfold round_half_even. rewrite Qfloor_Z.
  destruct (Qcompare_spec (inject_Z z - inject_Z z) (1 # 2)) as [H|H|H];
    [exfalso; lra | reflexivity | exfalso; lra].
Qed.

Lemma round_half_even_monotone x y :
  (x <= y)%Q -> (round_half_even x <= round_half_even y)%Z.
Proof.
  intros Hxy.
  pose proof (Qfloor_resp_le x y Hxy) as Hf.
  pose proof (round_half_even_bounds x) as Bx.
  pose proof (round_half_even_bounds y) as By.
  destruct (Z.eq_dec (Qfloor x) (Qfloor y)) as [E|NE]; [|lia].
  unfold round_half_even. rewrite <- E.
  destruct (Qcompare_spec (x - inject_Z (Qfloor x)) (1 # 2)) as [Hx|Hx|Hx];
    destruct (Qcompare_spec (y - inject_Z (Qfloor x)) (1 # 2)) as [Hy|Hy|Hy];
    try (destruct (Z.even (Qfloor x))); try lia; exfalso; lra.
Qed.

Lemma round_half_even_compat x y :
  (x == y)%Q -> round_half_even x = round_half_even y.
Proof.
  intros H. apply Z.le_antisymm; apply round_half_even_monotone; rewrite H; apply Qle_refl.
Qed.

Lemma round_at_monotone c x y :
  (x <= y)%Q -> (round_at c x <= round_at c y)%Q.
Proof.
  intros H. unfold round_at.
  apply Qmult_le_compat_r; [|apply Qlt_le_weak, pow2_pos].
  rewrite <- Zle_Qle. apply round_half_even_monotone.
  apply Qmult_le_compat_r; [exact H|].
  apply Qlt_le_weak, Qinv_lt_0_compat, pow2_pos.
Qed.

Lemma round_at_multiple c k :
  (round_at c (inject_Z k * pow2 c) == inject_Z k * pow2 c)%Q.
Proof.
  unfold round_at.
  assert (H : (inject_Z k * pow2 c / pow2 c == inject_Z k)%Q).
  { field. intros E. pose proof (pow2_pos c) as P. rewrite E in P. discriminate. }
  rewrite (round_half_even_compat _ _ H), round_half_even_Z. reflexivity.
Qed.

Lemma round_at_below c k x :
  (x <= inject_Z k * pow2 c)%Q -> (round_at c x <= inject_Z k * pow2 c)%Q.
Proof.
  intros H. rewrite <- (round_at_multiple c k). now apply round_at_monotone.
Qed.

Lemma round_at_above c k x :
  (inject_Z k * pow2 c <= x)%Q -> (inject_Z k * pow2 c <= round_at c x)%Q.
Proof.
  intros H. rewrite <- (round_at_multiple c k). now apply round_at_monotone.
Qed.

Lemma pow2_multiple e c :
  (c <= e)%Z -> (pow2 e == inject_Z (2 ^ (e - c)) * pow2 c)%Q.
Proof.
  intros H. rewrite <- pow2_Z by lia. apply pow2_split.
Qed.

(** Rounding a magnitude never reverses the order of two numbers. *)
Lemma round_magnitude_monotone x y :
  (0 < x)%Q -> (x <= y)%Q -> (round_magnitude x <= round_magnitude y)%Q.
Proof.
  intros Hx Hxy.
  assert (Hy : (0 < y)%Q) by (eapply Qlt_le_trans; eassumption).
  pose proof (Qlog2_monotone x y Hx Hxy) as Hl.
  unfold round_magnitude.
  destruct (Z.eq_dec (ulp_exponent x) (ulp_exponent y)) as [E|NE].
  - rewrite E. now apply round_at_monotone.
  - unfold ulp_exponent in *.
    set (lx := Qlog2 x) in *. set (ly := Qlog2 y) in *.
    destruct (Qlog2_spec x Hx) as [_ Hx2]. fold lx in Hx2.
    destruct (Qlog2_spec y Hy) as [Hy1 _]. fold ly in Hy1.
    apply Qle_trans with (pow2 ly).
    + rewrite (pow2_multiple ly (Z.max (lx - 52) (-1074))) by lia.
      apply round_at_below.
      rewrite <- pow2_multiple by lia.
      apply Qlt_le_weak. eapply Qlt_le_trans; [exact Hx2|]. apply pow2_le. lia.
    + rewrite (pow2_multiple ly (Z.max (ly - 52) (-1074))) by lia.
      apply round_at_above.
      rewrite <- pow2_multiple by lia. exact Hy1.
Qed.

Lemma binary64_positive (q : Qc) :
  (0 < q)%Q ->
  binary64 q = if Qle_bool (pow2 1024) (round_magnitude q) then PosInfinity
               else Fin (Q2Qc (round_magnitude q)).
Proof.
  intros H. unfold binary64, Qccompare.
  destruct (Qcompare_spec q 0%Qc) as [E|E|E]; change (this 0%Qc) with 0%Q in E;
    [exfalso; lra | exfalso; lra | reflexivity].
Qed.

Lemma binary64_negative (q : Qc) :
  (q < 0)%Q ->
  binary64 q = if Qle_bool (pow2 1024) (round_magnitude (- q)) then NegInfinity
               else Fin (Q2Qc (- round_magnitude (- q))).
Proof.
  intros H. unfold binary64, Qccompare.
  destruct (Qcompare_spec q 0%Qc) as [E|E|E]; change (this 0%Qc) with 0%Q in E;
    [exfalso; lra | reflexivity | exfalso; lra].
Qed.

Lemma binary64_zero (q : Qc) : (q == 0)%Q -> binary64 q = Fin 0%Qc.
Proof.
  intros H. unfold binary64, Qccompare.
  destruct (Qcompare_spec q 0%Qc) as [E|E|E]; change (this 0%Qc) with 0%Q in E;
    [reflexivity | exfalso; lra | exfalso; lra].
Qed.

Lemma binary64_not_NaN q : binary64 q <> NaN.
Proof.
  unfold binary64. destruct (q ?= 0)%Qc; [discriminate| |];
    destruct (Qle_bool _ _); discriminate.
Qed.

Lemma round_magnitude_positive x : (0 < x)%Q -> (0 <= round_magnitude x)%Q.
Proof.
  intros Hx. unfold round_magnitude.
  assert (H := round_at_above (ulp_exponent x) 0 x).
  assert (Z0 : (inject_Z 0 * pow2 (ulp_exponent x) == 0)%Q) by ring.
  rewrite Z0 in H. apply H. now apply Qlt_le_weak.
Qed.

Lemma Qc_leb_Q2Qc a b : Qc_leb (Q2Qc a) (Q2Qc b) = Qle_bool a b.
Proof.
  unfold Qc_leb. simpl.
  destruct (Qle_bool a b) eqn:E.
  - apply Qle_bool_iff. rewrite !Qred_correct. now apply Qle_bool_iff.
  - destruct (Qle_bool (Qred a) (Qred b)) eqn:E'; [|reflexivity].
    apply Qle_bool_iff in E'. rewrite !Qred_correct in E'.
    apply Qle_bool_iff in E'. congruence.
Qed.

Lemma Qle_bool_false a b : Qle_bool a b = false <-> (b < a)%Q.
Proof.
  split.
  - intros E. apply Qnot_le_lt. intros H. apply Qle_bool_iff in H. congruence.
  - intros H. destruct (Qle_bool a b) eqn:E; [|reflexivity].
    apply Qle_bool_iff in E. exfalso. lra.
Qed.

(** Rounding never reverses the order of two numbers. *)
Lemma binary64_monotone (x y : Qc) :
  (x <= y)%Qc -> js_ge (binary64 y) (binary64 x) = true.
Proof.
  intros Hxy. change (x <= y)%Q in Hxy.
  destruct (Q_dec x 0) as [[Hx|Hx]|Hx]; destruct (Q_dec y 0) as [[Hy|Hy]|Hy];
    try (exfalso; lra).
  - (* both negative *)
    rewrite (binary64_negative x Hx), (binary64_negative y Hy).
    assert (Hm : (round_magnitude (- y) <= round_magnitude (- x))%Q)
      by (apply round_magnitude_monotone; lra).
    destruct (Qle_bool (pow2 1024) (round_magnitude (- x))) eqn:Ex;
      destruct (Qle_bool (pow2 1024) (round_magnitude (- y))) eqn:Ey;
      try reflexivity.
    + apply Qle_bool_iff in Ey. apply Qle_bool_false in Ex. exfalso. lra.
    + cbn [js_ge]. rewrite Qc_leb_Q2Qc. apply Qle_bool_iff. lra.
  - rewrite (binary64_negative x Hx), (binary64_positive y Hy).
    pose proof (round_magnitude_positive y Hy).
    assert (Hx' : (0 < - x)%Q) by lra.
    pose proof (round_magnitude_positive (- x) Hx').
    destruct (Qle_bool _ _); destruct (Qle_bool _ _); try reflexivity.
    cbn [js_ge]. rewrite Qc_leb_Q2Qc. apply Qle_bool_iff. lra.
  - rewrite (binary64_negative x Hx), (binary64_zero y Hy).
    assert (Hx' : (0 < - x)%Q) by lra.
    pose proof (round_magnitude_positive (- x) Hx').
    destruct (Qle_bool _ _); try reflexivity.
    cbn [js_ge]. change 0%Qc with (Q2Qc 0). rewrite Qc_leb_Q2Qc. apply Qle_bool_iff. lra.
  - rewrite (binary64_positive x Hx), (binary64_positive y Hy).
    assert (Hm : (round_magnitude x <= round_magnitude y)%Q)
      by (apply round_magnitude_monotone; lra).
    destruct (Qle_bool (pow2 1024) (round_magnitude x)) eqn:Ex;
      destruct (Qle_bool (pow2 1024) (round_magnitude y)) eqn:Ey;
      try reflexivity.
    + apply Qle_bool_iff in Ex. apply Qle_bool_false in Ey. exfalso. lra.
    + cbn [js_ge]. rewrite Qc_leb_Q2Qc. now apply Qle_bool_iff.
  - rewrite (binary64_zero x Hx), (binary64_positive y Hy).
    pose proof (round_magnitude_positive y Hy).
    destruct (Qle_bool _ _); try reflexivity.
    cbn [js_ge]. change 0%Qc with (Q2Qc 0). rewrite Qc_leb_Q2Qc. now apply Qle_bool_iff.
  - rewrite (binary64_zero x Hx), (binary64_zero y Hy). reflexivity.
Qed.

(** A finite result lies between the results of rounding any two bounds. *)
Lemma binary64_between (lo x hi : Qc) :
  (lo <= x)%Qc -> (x <= hi)%Qc ->
  binary64 lo = Fin lo -> binary64 hi = Fin hi ->
  exists r, binary64 x = Fin r /\ (lo <= r)%Qc /\ (r <= hi)%Qc.
Proof.
  intros H1 H2 Hlo Hhi.
  pose proof (binary64_monotone lo x H1) as M1.
  pose proof (binary64_monotone x hi H2) as M2.
  rewrite Hlo in M1. rewrite Hhi in M2.
  destruct (binary64 x) as [r| | |]; try discriminate.
  exists r. split; [reflexivity|].
  cbn [js_ge] in M1, M2. unfold Qc_leb in M1, M2.
  apply Qle_bool_iff in M1, M2. split; assumption.
Qed.

(** Integers up to [2^53] are binary64 numbers. *)
Lemma round_magnitude_exact (m e : Z) (x : Q) :
  (0 < m < 2 ^ 53)%Z -> (-1074 <= e)%Z -> (x == inject_Z m * pow2 e)%Q ->
  (round_magnitude x == x)%Q.
Proof.
  intros Hm He Hx.
  assert (Hpos : (0 < x)%Q).
  { rewrite Hx. apply Qmult_lt_0_compat; [|apply pow2_pos].
    change 0%Q with (inject_Z 0). rewrite <- Zlt_Qlt. lia. }
  assert (Hlt : (x < pow2 (53 + e))%Q).
  { rewrite Hx, pow2_add. apply Qmult_lt_r; [apply pow2_pos|].
    rewrite pow2_Z by lia. rewrite <- Zlt_Qlt. lia. }
  pose proof (Qlog2_below x _ Hpos Hlt) as Hl.
  unfold round_magnitude.
  set (c := ulp_exponent x).
  assert (Hc : (c <= e)%Z) by (unfold c, ulp_exponent; lia).
  assert (Hk : (x == inject_Z (m * 2 ^ (e - c)) * pow2 c)%Q).
  { rewrite Hx, inject_Z_mult, <- Qmult_assoc, <- pow2_multiple by lia. reflexivity. }
  transitivity (round_at c (inject_Z (m * 2 ^ (e - c)) * pow2 c)).
  - apply Qle_antisym; apply round_at_monotone; rewrite Hk; apply Qle_refl.
  - rewrite round_at_multiple. symmetry. exact Hk.
Qed.

Lemma binary64_integer (k : Z) :
  (0 <= k <= 2 ^ 53)%Z ->
  binary64 (Q2Qc (inject_Z k)) = Fin (Q2Qc (inject_Z k)).
Proof.
  intros Hk.
  destruct (Z.eq_dec k 0) as [->|H0]; [reflexivity|].
  destruct (Z.eq_dec k (2 ^ 53)) as [->|H53];
    [apply number_eqb_eq; vm_compute; reflexivity|].
  assert (Hpos : (0 < Q2Qc (inject_Z k))%Q).
  { rewrite this_Q2Qc. change 0%Q with (inject_Z 0). rewrite <- Zlt_Qlt. lia. }
  rewrite (binary64_positive _ Hpos).
  assert (Hr : (round_magnitude (Q2Qc (inject_Z k)) == inject_Z k)%Q).
  { rewrite (round_magnitude_exact k 0).
    - apply this_Q2Qc.
    - lia.
    - lia.
    - rewrite this_Q2Qc. change (pow2 0) with 1%Q. ring. }
  assert (Hlt : Qle_bool (pow2 1024) (round_magnitude (Q2Qc (inject_Z k))) = false).
  { apply Qle_bool_false. rewrite Hr. rewrite pow2_Z by lia. rewrite <- Zlt_Qlt.
    apply Z.le_lt_trans with (2 ^ 53)%Z; [lia | reflexivity]. }
  rewrite Hlt. f_equal. apply Qc_is_canon.
  rewrite (this_Q2Qc (round_magnitude _)), Hr. symmetry. apply this_Q2Qc.
Qed.

Lemma binary64_max_double : binary64 max_double = Fin max_double.
Proof. apply number_eqb_eq. vm_compute. reflexivity. Qed.

Lemma binary64_min_double : binary64 (- max_double)%Qc = Fin (- max_double)%Qc.
Proof. apply number_eqb_eq. vm_compute. reflexivity. Qed.

Lemma max_double_pow2 : (max_double == inject_Z (2 ^ 53 - 1) * pow2 971)%Q.
Proof.
  unfold max_double. rewrite this_Q2Qc, inject_Z_mult, (pow2_Z 971) by lia.
  reflexivity.
Qed.

Lemma round_magnitude_bounded x :
  (0 < x)%Q -> (round_magnitude x < pow2 1024)%Q ->
  (round_magnitude x <= max_double)%Q.
Proof.
  intros Hx Hlt.
  assert (HM : (round_magnitude max_double == max_double)%Q).
  { apply (round_magnitude_exact (2 ^ 53 - 1) 971); [lia | lia | apply max_double_pow2]. }
  assert (HMpos : (0 < max_double)%Q) by reflexivity.
  destruct (Qlt_le_dec max_double x) as [Hbig|Hsmall].
  - assert (Hl : (1023 <= Qlog2 x)%Z).
    { apply Qlog2_above. apply Qle_trans with max_double; [|now apply Qlt_le_weak].
      rewrite max_double_pow2.
      rewrite (pow2_multiple 1023 971) by lia.
      apply Qmult_le_compat_r; [|apply Qlt_le_weak, pow2_pos].
      rewrite <- Zle_Qle. lia. }
    unfold round_magnitude, round_at in *.
    set (c := ulp_exponent x) in *.
    assert (Hc : (971 <= c)%Z) by (unfold c, ulp_exponent; lia).
    set (K := round_half_even (x / pow2 c)) in *.
    assert (E : (inject_Z K * pow2 c == inject_Z (K * 2 ^ (c - 971)) * pow2 971)%Q).
    { rewrite inject_Z_mult, <- Qmult_assoc, <- pow2_multiple by lia. reflexivity. }
    rewrite E in Hlt |- *. rewrite max_double_pow2.
    rewrite (pow2_multiple 1024 971) in Hlt by lia.
    apply Qmult_lt_r in Hlt; [|apply pow2_pos].
    rewrite <- Zlt_Qlt in Hlt.
    apply Qmult_le_compat_r; [|apply Qlt_le_weak, pow2_pos].
    rewrite <- Zle_Qle. change (1024 - 971)%Z with 53%Z in Hlt. lia.
  - rewrite <- HM. now apply round_magnitude_monotone.
Qed.

(** A finite result is at most [Number.MAX_VALUE] in magnitude. *)
Lemma binary64_bounded (q r : Qc) :
  binary64 q = Fin r -> (- max_double <= r)%Qc /\ (r <= max_double)%Qc.
Proof.
  intros H.
  assert (HMpos : (0 < max_double)%Q) by reflexivity.
  assert (Hopp : ((- max_double)%Qc == - max_double)%Q) by (unfold Qcopp; apply this_Q2Qc).
  unfold Qcle. rewrite Hopp.
  destruct (Q_dec q 0) as [[Hq|Hq]|Hq].
  - rewrite (binary64_negative q Hq) in H.
    destruct (Qle_bool (pow2 1024) (round_magnitude (- q))) eqn:E; [discriminate H|].
    apply Qle_bool_false in E. injection H as <-.
    assert (Hq' : (0 < - q)%Q) by lra.
    pose proof (round_magnitude_bounded _ Hq' E).
    pose proof (round_magnitude_positive _ Hq').
    rewrite this_Q2Qc. split; lra.
  - rewrite (binary64_positive q Hq) in H.
    destruct (Qle_bool (pow2 1024) (round_magnitude q)) eqn:E; [discriminate H|].
    apply Qle_bool_false in E. injection H as <-.
    pose proof (round_magnitude_bounded _ Hq E).
    pose proof (round_magnitude_positive _ Hq).
    rewrite this_Q2Qc. split; lra.
  - rewrite (binary64_zero q Hq) in H. injection H as <-.
    change (this 0%Qc) with 0%Q. split; lra.
Qed.

(** Numbers of magnitude at most [Number.MAX_VALUE] round to finite ones. *)
Lemma binary64_finite (x : Qc) :
  (- max_double <= x)%Qc -> (x <= max_double)%Qc ->
  exists r, binary64 x = Fin r.
Proof.
  intros H1 H2.
  destruct (binary64_between _ _ _ H1 H2 binary64_min_double binary64_max_double)
    as (r & Hr & _).
  now exists r.
Qed.

(** On the operands above, [js_add] and [js_div] give what the Standard
    Library's specification of IEEE 754 addition and division gives in
    binary64. *)
Example js_add_agrees_with_SpecFloat :
  forallb
    (fun a =>
       forallb
         (fun b =>
            number_eqb
              (of_spec_float
                 (SpecFloat.SFadd 53 1024 (to_spec_float a) (to_spec_float b)))
              (js_add (Fin a) (Fin b)))
         operands)
    operands = true.
Proof. vm_compute. reflexivity. Qed.

Example js_div_agrees_with_SpecFloat :
  forallb
    (fun a =>
       forallb
         (fun n =>
            number_eqb
              (of_spec_float
                 (SpecFloat.SFdiv 53 1024 (to_spec_float a)
                                  (to_spec_float (Qc_of_nat n))))
              (js_div (Fin a) n))
         counts)
    operands = true.
Proof. vm_compute. reflexivity. Qed.

(** ** The running sums of [averageByTag] *)

Lemma Qc_is_zero_true (q : Qc) : Qc_is_zero q = true -> q = 0%Qc.
Proof.
  unfold Qc_is_zero. intros H. apply Qc_is_canon.
  apply Qeq_bool_iff in H. exact H.
Qed.

Lemma not_inherited_not_proto (L : string) :
  inherited L = false -> (L =? "__proto__") = false.
Proof.
  intros H. destruct (String.eqb_spec L "__proto__") as [->|]; [|reflexivity].
  discriminate H.
Qed.

(** Adding a finite number never gives [NaN]. *)
Lemma js_add_not_NaN (s : number) (p : Qc) : s <> NaN -> js_add s (Fin p) <> NaN.
Proof.
  destruct s as [a| | |]; cbn [js_add]; intros H;
    [apply binary64_not_NaN | now elim H | discriminate | discriminate].
Qed.

Lemma accumulate_other (sums : object slot) (p : Prediction) (L : string) :
  tagName p <> L -> get_own (accumulate sums p) L = get_own sums L.
Proof.
  intros Hne. apply String.eqb_neq in Hne. unfold accumulate.
  rewrite get_own_Put, Hne.
  destruct (negb (ToBoolean (Get sums (tagName p)))).
  - rewrite get_own_Put, Hne. now destruct (tagName p =? "__proto__").
  - now destruct (tagName p =? "__proto__").
Qed.

Lemma accumulate_same (sums : object slot) (p : Prediction) (L : string) m s :
  inherited L = false -> tagName p = L -> slot_is sums L m s ->
  get_own (accumulate sums p) L = Some (SNum (js_add s (Fin (probability p)))).
Proof.
  intros Hinh Htag (Hget & Hzero & Hnan). unfold accumulate. rewrite Htag.
  pose proof (not_inherited_not_proto L Hinh) as Hproto.
  assert (Hreset : get_own (Put sums L (SNum (Fin 0))) L = Some (SNum (Fin 0))).
  { now rewrite get_own_Put, Hproto, String.eqb_refl. }
  assert (Hreset' : Get (Put sums L (SNum (Fin 0))) L = Own (SNum (Fin 0))).
  { unfold Get. now rewrite Hreset. }
  destruct m.
  - assert (HG : Get sums L = Own (SNum s)).
    { unfold Get. now rewrite Hget. }
    rewrite HG. destruct s as [q| | |]; cbn [ToBoolean].
    + destruct (Qc_is_zero q) eqn:Hs; cbn [negb]; cbv iota;
        rewrite get_own_Put, Hproto, String.eqb_refl.
      * apply Qc_is_zero_true in Hs. subst q. now rewrite Hreset'.
      * now rewrite HG.
    + now elim Hnan.
    + cbn [negb]. cbv iota.
      now rewrite get_own_Put, Hproto, String.eqb_refl, HG.
    + cbn [negb]. cbv iota.
      now rewrite get_own_Put, Hproto, String.eqb_refl, HG.
  - assert (HG : Get sums L = Undefined).
    { unfold Get. now rewrite Hget, Hinh. }
    rewrite HG. cbn [ToBoolean negb]. cbv iota.
    rewrite get_own_Put, Hproto, String.eqb_refl, Hreset'.
    now rewrite (Hzero eq_refl).
Qed.

Lemma accumulate_slot_is (sums : object slot) (p : Prediction) (L : string) m s :
  inherited L = false -> slot_is sums L m s ->
  slot_is (accumulate sums p) L (m || (tagName p =? L))
          (if tagName p =? L then js_add s (Fin (probability p)) else s).
Proof.
  intros Hinh Hslot. destruct (String.eqb_spec (tagName p) L) as [Heq|Hne].
  - rewrite orb_true_r. split; [|split; [discriminate|]].
    + now apply accumulate_same with (m := m).
    + apply js_add_not_NaN. apply Hslot.
  - rewrite orb_false_r. destruct Hslot as (Hget & Hzero & Hnan).
    split; [|split; [exact Hzero | exact Hnan]]. now rewrite accumulate_other.
Qed.

Lemma fold_accumulate_slot_is (ps : list Prediction) :
  forall (sums : object slot) (L : string) m s,
    inherited L = false -> slot_is sums L m s ->
    slot_is (fold_left accumulate ps sums) L (m || mentions L ps)
            (add_mentions L s ps).
Proof.
  induction ps as [|p ps IH]; intros sums L m s Hinh Hslot; simpl.
  - now rewrite orb_false_r.
  - rewrite orb_assoc. apply IH; [exact Hinh|].
    now apply accumulate_slot_is.
Qed.

Lemma well_formed_accumulate (sums : object slot) (p : Prediction) :
  well_formed sums -> well_formed (accumulate sums p).
Proof.
  intros Hwf. unfold accumulate. apply well_formed_Put.
  destruct (negb (ToBoolean (Get sums (tagName p))));
    [now apply well_formed_Put | exact Hwf].
Qed.

Lemma well_formed_fold_accumulate (ps : list Prediction) :
  forall sums : object slot,
    well_formed sums -> well_formed (fold_left accumulate ps sums).
Proof.
  induction ps as [|p ps IH]; intros sums Hwf; simpl; [exact Hwf|].
  apply IH. now apply well_formed_accumulate.
Qed.

(** The loops of [tally], started from any intermediate state. *)
Lemma tally_from (perImage : list ImagePrediction) :
  forall (sums : object slot) (count : nat),
    let final :=
      fold_left
        (fun '(sums, count) img =>
           (fold_left accumulate (predictions img) sums, count + 1))
        perImage (sums, count) in
    snd final = count + List.length perImage /\
    (well_formed sums -> well_formed (fst final)) /\
    forall L m s, inherited L = false -> slot_is sums L m s ->
      slot_is (fst final) L (m || seen L perImage)
              (fold_left (fun acc img => add_mentions L acc (predictions img))
                         perImage s).
Proof.
  induction perImage as [|img rest IH]; intros sums count; simpl.
  - split; [lia|]. split; [auto|].
    intros L m s _ H. now rewrite orb_false_r.
  - destruct (IH (fold_left accumulate (predictions img) sums) (count + 1))
      as (Hcount & Hwf & Hslot).
    split; [rewrite Hcount; lia|]. split.
    + intros H. apply Hwf. now apply well_formed_fold_accumulate.
    + intros L m s Hinh H. rewrite orb_assoc.
      apply Hslot; [exact Hinh|].
      now apply fold_accumulate_slot_is.
Qed.

Lemma tally_count (perImage : list ImagePrediction) :
  snd (tally perImage) = List.length perImage.
Proof. exact (proj1 (tally_from perImage [] 0)). Qed.

Lemma tally_well_formed (perImage : list ImagePrediction) :
  well_formed (fst (tally perImage)).
Proof.
  apply (proj1 (proj2 (tally_from perImage [] 0))). apply well_formed_empty.
Qed.

Lemma tally_slot_is (perImage : list ImagePrediction) (L : string) :
  inherited L = false ->
  slot_is (fst (tally perImage)) L (seen L perImage) (rounded_sum L perImage).
Proof.
  intros Hinh.
  apply (proj2 (proj2 (tally_from perImage [] 0)) L false (Fin 0) Hinh).
  split; [reflexivity | split; [reflexivity | discriminate]].
Qed.

(** The loop of lines 57-59 copies every slot of [sums], transformed. *)
Lemma averages_get_own (f : slot -> number) (l : list (string * slot)) :
  forall (acc : object number) (k : string),
    NoDup (map fst l) -> ~ In "__proto__" (map fst l) ->
    get_own
      (fold_left (fun averages '(tag, sum) => Put averages tag (f sum)) l acc) k =
    match get_own l k with
    | Some s => Some (f s)
    | None => get_own acc k
    end.
Proof.
  induction l as [|[t s] l IH]; intros acc k Hnd Hproto; simpl; [reflexivity|].
  simpl in Hnd, Hproto. inversion Hnd as [|? ? Hnotin Hnd']; subst.
  rewrite IH by tauto.
  destruct (String.eqb_spec t k) as [->|Hne].
  - assert (Hnone : get_own l k = None) by now apply get_own_None_keys.
    rewrite Hnone, get_own_Put, String.eqb_refl.
    destruct (String.eqb_spec k "__proto__") as [->|]; [tauto | reflexivity].
  - destruct (get_own l k); [reflexivity|].
    rewrite get_own_Put.
    destruct (t =? "__proto__"); [reflexivity|].
    destruct (String.eqb_spec t k); [contradiction | reflexivity].
Qed.

(** Every own property of the result is the slot of [sums] divided by
    [count || 1]. *)
Lemma averageByTag_get_own (perImage : list ImagePrediction) (k : string) :
  get_own (averageByTag perImage) k =
  option_map
    (fun sum => js_div (ToNumber sum) (divisor (List.length perImage)))
    (get_own (fst (tally perImage)) k).
Proof.
  unfold averageByTag.
  pose proof (tally_count perImage) as Hcount.
  pose proof (tally_well_formed perImage) as [Hnd Hproto].
  destruct (tally perImage) as [sums count]. simpl in *. subst count.
  unfold entries. rewrite averages_get_own by assumption.
  now destruct (get_own sums k).
Qed.

Lemma seen_nonempty (L : string) (perImage : list ImagePrediction) :
  seen L perImage = true -> perImage <> [].
Proof. destruct perImage; [discriminate | discriminate]. Qed.

(** For a label that [Object.prototype] does not define, the result holds
    the rounded mean over all images when some image mentions the label,
    and has no such key otherwise. *)
Lemma averageByTag_mean (perImage : list ImagePrediction) (L : string) :
  inherited L = false ->
  get_own (averageByTag perImage) L =
  if seen L perImage then Some (rounded_mean L perImage) else None.
Proof.
  intros Hinh. rewrite averageByTag_get_own.
  destruct (tally_slot_is perImage L Hinh) as [Hget _]. rewrite Hget.
  destruct (seen L perImage) eqn:Hseen; [|reflexivity].
  apply seen_nonempty in Hseen. destruct perImage as [|img rest]; [congruence|].
  reflexivity.
Qed.

(** ** Arithmetic of counts and means *)

Lemma Qc_of_nat_nonneg (n : nat) : (0 <= Qc_of_nat n)%Qc.
Proof.
  unfold Qcle, Qc_of_nat.
  change (this (Q2Qc (inject_Z (Z.of_nat n))))
    with (Qred (inject_Z (Z.of_nat n))).
  rewrite Qred_correct. change (this 0) with 0%Q.
  unfold Qle. simpl. lia.
Qed.

Lemma Qc_of_nat_pos (n : nat) : (0 < Qc_of_nat (S n))%Qc.
Proof.
  unfold Qclt, Qc_of_nat.
  change (this (Q2Qc (inject_Z (Z.of_nat (S n)))))
    with (Qred (inject_Z (Z.of_nat (S n)))).
  rewrite Qred_correct. change (this 0) with 0%Q.
  unfold Qlt. simpl. lia.
Qed.

Lemma Qcinv_nonneg (x : Qc) : (0 <= x)%Qc -> (0 <= / x)%Qc.
Proof.
  unfold Qcle, Qcinv.
  change (this (Q2Qc (/ x))) with (Qred (/ x)). rewrite Qred_correct.
  apply Qinv_le_0_compat.
Qed.

Lemma Qcdiv_unit_interval (s n : Qc) :
  (0 <= s)%Qc -> (s <= n)%Qc -> (0 < n)%Qc ->
  (0 <= s / n)%Qc /\ (s / n <= 1)%Qc.
Proof.
  intros Hs Hsn Hn. unfold Qcdiv.
  assert (Hinv : (0 <= / n)%Qc) by (apply Qcinv_nonneg; now apply Qclt_le_weak).
  split.
  - replace 0%Qc with (0 * / n)%Qc by ring.
    now apply Qcmult_le_compat_r.
  - rewrite <- (Qcmult_inv_r n).
    + now apply Qcmult_le_compat_r.
    + intros ->. now apply (Qclt_not_eq 0%Qc 0%Qc).
Qed.

Lemma this_cap (k : nat) :
  (cap k == inject_Z (Z.min (Z.of_nat k) (2 ^ 53)))%Q.
Proof. apply this_Q2Qc. Qed.

Lemma binary64_cap (k : nat) : binary64 (cap k) = Fin (cap k).
Proof. apply binary64_integer. lia. Qed.

Lemma cap_le_count (k : nat) : (cap k <= Qc_of_nat k)%Qc.
Proof.
  unfold Qcle. rewrite this_cap. unfold Qc_of_nat. rewrite this_Q2Qc.
  rewrite <- Zle_Qle. lia.
Qed.

Lemma binary64_above_cap :
  binary64 (Q2Qc (inject_Z (2 ^ 53 + 1))) = Fin (Q2Qc (inject_Z (2 ^ 53))).
Proof. apply number_eqb_eq. vm_compute. reflexivity. Qed.

Lemma binary64_one : binary64 1%Qc = Fin 1%Qc.
Proof. apply number_eqb_eq. vm_compute. reflexivity. Qed.

(** Adding a probability to a sum of at most [k] gives a finite sum of at
    most [k + 1]. *)
Lemma add_capped (k : nat) (s p : Qc) :
  (0 <= s)%Qc -> (s <= cap k)%Qc -> (0 <= p)%Qc -> (p <= 1)%Qc ->
  exists r, binary64 (s + p) = Fin r /\ (0 <= r)%Qc /\ (r <= cap (S k))%Qc.
Proof.
  intros Hs0 Hs Hp0 Hp. unfold Qcle in *.
  change (this 0%Qc) with 0%Q in *. change (this 1%Qc) with 1%Q in *.
  rewrite this_cap in Hs.
  assert (Hlo : (0 <= s + p)%Qc)
    by (unfold Qcle; rewrite this_Qcplus; change (this 0%Qc) with 0%Q; lra).
  destruct (Z_lt_le_dec (Z.of_nat k) (2 ^ 53)) as [Hk|Hk].
  - assert (Hhi : (s + p <= cap (S k))%Qc).
    { unfold Qcle. rewrite this_Qcplus, this_cap.
      rewrite Z.min_l in Hs by lia. rewrite Z.min_l by lia.
      rewrite Nat2Z.inj_succ, <- Z.add_1_r, inject_Z_plus.
      change (inject_Z 1) with 1%Q. lra. }
    exact (binary64_between 0%Qc (s + p)%Qc (cap (S k)) Hlo Hhi
             eq_refl (binary64_cap (S k))).
  - assert (Hhi : (s + p <= Q2Qc (inject_Z (2 ^ 53 + 1)))%Qc).
    { unfold Qcle. rewrite this_Qcplus, this_Q2Qc.
      rewrite Z.min_r in Hs by lia.
      rewrite inject_Z_plus. change (inject_Z 1) with 1%Q. lra. }
    pose proof (binary64_monotone _ _ Hlo) as M1.
    pose proof (binary64_monotone _ _ Hhi) as M2.
    rewrite binary64_above_cap in M2.
    change (binary64 0%Qc) with (Fin 0%Qc) in M1.
    destruct (binary64 (s + p)) as [r| | |]; try discriminate.
    exists r. split; [reflexivity|].
    cbn [js_ge] in M1, M2. unfold Qc_leb in M1, M2.
    apply Qle_bool_iff in M1, M2.
    split; [exact M1|]. rewrite this_cap, Z.min_r by lia.
    now rewrite this_Q2Qc in M2.
Qed.

Lemma add_mentions_absent (L : string) (ps : list Prediction) (acc : number) :
  ~ In L (map tagName ps) -> add_mentions L acc ps = acc.
Proof.
  revert acc. induction ps as [|p ps IH]; intros acc Hnotin; [reflexivity|].
  simpl in Hnotin. unfold add_mentions. cbn [fold_left].
  destruct (String.eqb_spec (tagName p) L) as [Heq|Hne]; [tauto|].
  apply IH. tauto.
Qed.

(** An image that lists each label once adds at most one probability to the
    sum of a label. *)
Lemma add_mentions_once (L : string) (ps : list Prediction) (acc : number) :
  NoDup (map tagName ps) ->
  add_mentions L acc ps = acc \/
  exists p, In p ps /\ add_mentions L acc ps = js_add acc (Fin (probability p)).
Proof.
  revert acc. induction ps as [|p ps IH]; intros acc Hnd; [now left|].
  simpl in Hnd. inversion Hnd as [|? ? Hnotin Hnd']; subst.
  unfold add_mentions. cbn [fold_left].
  destruct (String.eqb_spec (tagName p) L) as [Heq|Hne].
  - right. exists p. split; [now left|].
    apply add_mentions_absent. now rewrite <- Heq.
  - destruct (IH acc Hnd') as [H|(q & Hq & H)]; [now left|].
    right. exists q. split; [now right | exact H].
Qed.

Lemma cap_monotone (k : nat) : (cap k <= cap (S k))%Qc.
Proof.
  unfold Qcle. rewrite !this_cap, <- Zle_Qle. lia.
Qed.

(** Over images that list each label once, with probabilities in [0,1],
    the sum of a label stays finite, and between 0 and the number of
    images. *)
Lemma rounded_sum_from (L : string) (perImage : list ImagePrediction) :
  probabilities_valid perImage -> distinct_labels perImage ->
  forall (k : nat) (s : Qc),
    (0 <= s)%Qc -> (s <= cap k)%Qc ->
    exists r,
      fold_left (fun acc img => add_mentions L acc (predictions img))
                perImage (Fin s) = Fin r /\
      (0 <= r)%Qc /\ (r <= cap (k + List.length perImage))%Qc.
Proof.
  induction perImage as [|img rest IH]; intros Hvalid Hdistinct k s Hs0 Hs.
  - exists s. simpl. rewrite Nat.add_0_r. now split.
  - cbn [fold_left].
    assert (Hstep : exists r, add_mentions L (Fin s) (predictions img) = Fin r /\
                              (0 <= r)%Qc /\ (r <= cap (S k))%Qc).
    { destruct (add_mentions_once L (predictions img) (Fin s)) as [->|(p & Hp & ->)].
      - apply Hdistinct. now left.
      - exists s. split; [reflexivity|]. split; [exact Hs0|].
        apply Qcle_trans with (cap k); [exact Hs | apply cap_monotone].
      - cbn [js_add].
        destruct (Hvalid img p (or_introl eq_refl) Hp) as [Hp0 Hp1].
        now apply add_capped. }
    destruct Hstep as (r & -> & Hr0 & Hr).
    destruct (IH (fun i p Hi => Hvalid i p (or_intror Hi))
                 (fun i Hi => Hdistinct i (or_intror Hi)) (S k) r Hr0 Hr)
      as (r' & Hfold & Hr'0 & Hr').
    exists r'. split; [exact Hfold|]. split; [exact Hr'0|].
    cbn [List.length]. now rewrite Nat.add_succ_r.
Qed.

Lemma rounded_mean_probability (L : string) (perImage : list ImagePrediction) :
  perImage <> [] -> probabilities_valid perImage -> distinct_labels perImage ->
  is_probability (rounded_mean L perImage).
Proof.
  intros Hne Hvalid Hdistinct.
  destruct (rounded_sum_from L perImage Hvalid Hdistinct 0 0%Qc)
    as (s & Hsum & Hs0 & Hs); [apply Qcle_refl | apply Qcle_refl |].
  unfold rounded_mean, rounded_sum. rewrite Hsum.
  destruct perImage as [|img rest]; [congruence|].
  cbn [List.length js_div]. cbn [List.length Nat.add] in Hs.
  assert (Hbound : (s <= Qc_of_nat (S (List.length rest)))%Qc).
  { apply Qcle_trans with (cap (S (List.length rest)));
      [exact Hs | apply cap_le_count]. }
  destruct (Qcdiv_unit_interval s _ Hs0 Hbound (Qc_of_nat_pos _)) as [Hlo Hhi].
  destruct (binary64_between 0%Qc _ 1%Qc Hlo Hhi eq_refl binary64_one)
    as (r & Hr & Hr0 & Hr1).
  exists r. now split.
Qed.

Lemma seen_In_keys (perImage : list ImagePrediction) (L : string) :
  inherited L = false ->
  In L (keys (averageByTag perImage)) <-> seen L perImage = true.
Proof.
  intros Hinh. rewrite <- get_own_In_keys, averageByTag_mean by exact Hinh.
  destruct (seen L perImage); split; congruence.
Qed.

(** ** [Promise.all] and [batchPredict] *)

Section PromiseFacts.
Context {A : Type}.
Implicit Types (ps : list (settled A)) (p : settled A).

Lemma earliest_rejection_None ps :
  earliest_rejection ps = None <->
  forall p, In p ps -> exists a, result p = inr a.
Proof.
  induction ps as [|p ps IH]; simpl.
  - split; [intros _ q [] | reflexivity].
  - destruct (result p) as [e|a] eqn:Hp.
    + split.
      * destruct (earliest_rejection ps) as [[t e']|];
          [destruct (t <? tick p)%nat|]; discriminate.
      * intros H. destruct (H p (or_introl eq_refl)) as [a Ha]. congruence.
    + rewrite IH. split.
      * intros H q [<-|Hq]; [now exists a | now apply H].
      * intros H q Hq. apply H. now right.
Qed.

(** The rejection [Promise.all] reports is the rejection of one of the
    promises, and no promise was rejected at an earlier tick. *)
Lemma earliest_rejection_Some ps t e :
  earliest_rejection ps = Some (t, e) ->
  (exists i p, nth_error ps i = Some p /\ result p = inl e /\ tick p = t) /\
  (forall p e', In p ps -> result p = inl e' -> t <= tick p).
Proof.
  revert t e. induction ps as [|p ps IH]; simpl; intros t e H; [discriminate|].
  destruct (result p) as [e0|a] eqn:Hp.
  - destruct (earliest_rejection ps) as [[t1 e1]|] eqn:Hrest.
    + destruct (IH t1 e1 eq_refl) as [(i & q & Hi & Hq & Ht) Hmin].
      destruct (Nat.ltb_spec t1 (tick p)) as [Hlt|Hge].
      * injection H as <- <-. split.
        -- now exists (S i), q.
        -- intros q' e' [<-|Hq'] He'; [lia | now apply (Hmin q' e')].
      * injection H as <- <-. split.
        -- now exists 0, p.
        -- intros q' e' [<-|Hq'] He'; [lia|].
           specialize (Hmin q' e' Hq' He'). lia.
    + injection H as <- <-. split.
      * now exists 0, p.
      * intros q' e' [<-|Hq'] He'; [lia|].
        pose proof (proj1 (earliest_rejection_None ps) Hrest q' Hq') as [a Ha].
        congruence.
  - destruct (IH t e H) as [(i & q & Hi & Hq & Ht) Hmin]. split.
    + now exists (S i), q.
    + intros q' e' [<-|Hq'] He'; [congruence | now apply (Hmin q' e')].
Qed.

Lemma fulfilled_values_nth ps :
  (forall p, In p ps -> exists a, result p = inr a) ->
  List.length (fulfilled_values ps) = List.length ps /\
  forall i p a, nth_error ps i = Some p -> result p = inr a ->
    nth_error (fulfilled_values ps) i = Some a.
Proof.
  induction ps as [|p ps IH]; simpl; intros Hall.
  - split; [reflexivity | intros [|i] q a H; discriminate].
  - destruct (Hall p (or_introl eq_refl)) as [a Ha]. rewrite Ha.
    destruct IH as [Hlen Hnth]; [intros q Hq; apply Hall; now right|].
    split; [simpl; now rewrite Hlen|].
    intros [|i] q b Hq Hb; simpl in *.
    + injection Hq as <-. congruence.
    + now apply (Hnth i q).
Qed.

End PromiseFacts.

Lemma nth_error_map_from {A B : Type} (f : nat -> A -> B) (l : list A) :
  forall start i,
    nth_error (map_from f start l) i = option_map (f (start + i)) (nth_error l i).
Proof.
  induction l as [|a l IH]; intros start [|i]; simpl; try reflexivity.
  - now rewrite Nat.add_0_r.
  - rewrite IH. now rewrite Nat.add_succ_comm.
Qed.

Lemma batchPredict_posted (axios_post : Network) (issued : list Request)
  (urls : list string) (endpointUrl predictionKey : string) :
  fst (batchPredict axios_post issued urls endpointUrl predictionKey) =
  issued ++ map (request_for endpointUrl predictionKey) urls.
Proof. reflexivity. Qed.

(** A rejected batch reports the rejection of one of its own requests. *)
Lemma batchPredict_Rejected (axios_post : Network) (issued : list Request)
  (urls : list string) (endpointUrl predictionKey : string) (err : AxiosError) :
  snd (batchPredict axios_post issued urls endpointUrl predictionKey) = Rejected err ->
  exists i imageUrl,
    nth_error urls i = Some imageUrl /\
    result (axios_post (List.length issued + i)
                       (request_for endpointUrl predictionKey imageUrl)) = inl err.
Proof.
  unfold batchPredict, Promise_all. simpl.
  destruct (earliest_rejection _) as [[t e]|] eqn:H; [|discriminate].
  intros [= <-].
  apply earliest_rejection_Some in H as [(i & p & Hi & Hp & _) _].
  rewrite nth_error_map_from in Hi.
  destruct (nth_error urls i) as [imageUrl|] eqn:Hurl; [|discriminate].
  exists i, imageUrl. split; [exact Hurl|].
  injection Hi as <-. unfold predict_one in Hp. simpl in Hp.
  destruct (result (axios_post _ _)) as [e'|data]; [congruence | discriminate].
Qed.

(** A fulfilled batch holds, at each position, the normalized answer to the
    request for the URL at that position. *)
Lemma batchPredict_Fulfilled (axios_post : Network) (issued : list Request)
  (urls : list string) (endpointUrl predictionKey : string)
  (perImage : list ImagePrediction) :
  snd (batchPredict axios_post issued urls endpointUrl predictionKey)
    = Fulfilled perImage ->
  List.length perImage = List.length urls /\
  forall i imageUrl, nth_error urls i = Some imageUrl ->
    exists data,
      result (axios_post (List.length issued + i)
                         (request_for endpointUrl predictionKey imageUrl))
        = inr data /\
      nth_error perImage i = Some (normalize imageUrl data).
Proof.
  unfold batchPredict, Promise_all. simpl.
  destruct (earliest_rejection _) as [[t e]|] eqn:H; [discriminate|].
  intros [= <-]. rewrite earliest_rejection_None in H.
  destruct (fulfilled_values_nth _ H) as [Hlen Hnth]. split.
  - rewrite Hlen. clear. generalize (List.length issued).
    induction urls as [|u urls IH]; intros start; simpl; [reflexivity|].
    now rewrite IH.
  - intros i imageUrl Hurl.
    pose proof (nth_error_map_from
                  (predict_one axios_post endpointUrl predictionKey)
                  urls (List.length issued) i) as Hi.
    rewrite Hurl in Hi. simpl in Hi.
    destruct (H _ (nth_error_In _ _ Hi)) as [img Himg].
    pose proof (Hnth i _ img Hi Himg) as Hres.
    unfold predict_one in Himg. simpl in Himg.
    destruct (result (axios_post _ _)) as [e'|data]; [discriminate|].
    exists data. split; [reflexivity|]. congruence.
Qed.

(** The batch is fulfilled exactly when every request is answered. *)
Lemma batchPredict_answered (axios_post : Network) (issued : list Request)
  (urls : list string) (endpointUrl predictionKey : string) :
  (forall i imageUrl, nth_error urls i = Some imageUrl ->
     exists data,
       result (axios_post (List.length issued + i)
                          (request_for endpointUrl predictionKey imageUrl))
         = inr data) ->
  exists perImage,
    snd (batchPredict axios_post issued urls endpointUrl predictionKey)
      = Fulfilled perImage.
Proof.
  intros Hall.
  destruct (snd (batchPredict axios_post issued urls endpointUrl predictionKey))
    as [perImage|err] eqn:H; [now exists perImage|].
  apply batchPredict_Rejected in H as (i & imageUrl & Hurl & Herr).
  destruct (Hall i imageUrl Hurl) as [data Hdata]. congruence.
Qed.

(** ** The handler *)

(** The handler on a request that passes validation, with the credentials
    configured. *)
Lemma classify_valid (env : Env) (axios_post : Network) (body : Body)
  (urls : list string) :
  as_array (body_imageUrls body) = Some urls -> urls <> [] -> keys_set env ->
  classify env axios_post body =
  let reqs1 :=
    map (request_for (modelNotModelUrl env) (key_of (modelNotModelKey env))) urls in
  match snd (batchPredict axios_post [] urls (modelNotModelUrl env)
                          (key_of (modelNotModelKey env))) with
  | Rejected err => internal_error err reqs1
  | Fulfilled stage1PerImage =>
      let avg := averageByTag stage1PerImage in
      let reqs2 := map (request_for (stage2Url env avg) (stage2Key env avg)) urls in
      match snd (batchPredict axios_post reqs1 urls (stage2Url env avg)
                              (stage2Key env avg)) with
      | Rejected err => internal_error err (reqs1 ++ reqs2)
      | Fulfilled stage2PerImage =>
          ok (reqs1 ++ reqs2) (result_object urls stage1PerImage stage2PerImage)
      end
  end.
Proof.
  intros Harr Hne (H1 & H2 & H3).
  destruct body as [|v]; [discriminate|]. cbn [body_imageUrls] in Harr.
  unfold classify. rewrite Harr.
  destruct urls as [|u urls]; [congruence|].
  change (List.length (u :: urls) =? 0)%nat with false. cbv iota.
  rewrite H1, H2, H3. simpl orb. cbv iota.
  unfold batchPredict. cbv zeta. simpl fst. simpl snd. simpl app.
  destruct (Promise_all _); [|reflexivity].
  destruct (Promise_all _); reflexivity.
Qed.

Lemma nth_error_requests (endpointUrl predictionKey : string)
  (urls : list string) (i : nat) (req : Request) :
  nth_error (map (request_for endpointUrl predictionKey) urls) i = Some req ->
  exists imageUrl,
    nth_error urls i = Some imageUrl /\
    req = request_for endpointUrl predictionKey imageUrl.
Proof.
  rewrite nth_error_map. destruct (nth_error urls i) as [u|]; [|discriminate].
  intros [= <-]. now exists u.
Qed.

(** How a validated request ends: either some posted request was rejected
    and the handler answers with the [catch] block for that rejection, or
    every posted request was answered and the handler sends the result
    object built from the two fulfilled batches. *)
Lemma classify_outcome (env : Env) (axios_post : Network) (body : Body)
  (urls : list string) :
  as_array (body_imageUrls body) = Some urls -> urls <> [] -> keys_set env ->
  let h := classify env axios_post body in
  (exists seq err,
      rejected_at axios_post h seq err /\ h = internal_error err (posted h)) \/
  (all_answered axios_post h /\
   exists stage1PerImage stage2PerImage,
     let reqs1 :=
       map (request_for (modelNotModelUrl env) (key_of (modelNotModelKey env)))
           urls in
     let avg := averageByTag stage1PerImage in
     snd (batchPredict axios_post [] urls (modelNotModelUrl env)
                       (key_of (modelNotModelKey env)))
       = Fulfilled stage1PerImage /\
     snd (batchPredict axios_post reqs1 urls (stage2Url env avg)
                       (stage2Key env avg))
       = Fulfilled stage2PerImage /\
     h = ok (reqs1 ++ map (request_for (stage2Url env avg) (stage2Key env avg)) urls)
            (result_object urls stage1PerImage stage2PerImage)).
Proof.
  intros Harr Hne Hkeys. cbv zeta.
  rewrite (classify_valid env axios_post body urls Harr Hne Hkeys). cbv zeta.
  set (url1 := modelNotModelUrl env). set (key1 := key_of (modelNotModelKey env)).
  set (reqs1 := map (request_for url1 key1) urls).
  destruct (snd (batchPredict axios_post [] urls url1 key1))
    as [l1|e1] eqn:Hstage1.
  - set (avg := averageByTag l1).
    set (url2 := stage2Url env avg). set (key2 := stage2Key env avg).
    set (reqs2 := map (request_for url2 key2) urls).
    destruct (snd (batchPredict axios_post reqs1 urls url2 key2))
      as [l2|e2] eqn:Hstage2.
    + right. split; [|now exists l1, l2].
      intros seq req Hreq. simpl in Hreq.
      apply batchPredict_Fulfilled in Hstage1 as [_ Hans1].
      apply batchPredict_Fulfilled in Hstage2 as [_ Hans2].
      destruct (Nat.lt_ge_cases seq (List.length reqs1)) as [Hlt|Hge].
      * rewrite nth_error_app1 in Hreq by exact Hlt.
        apply nth_error_requests in Hreq as (u & Hu & ->).
        destruct (Hans1 seq u Hu) as (data & Hdata & _). now exists data.
      * rewrite nth_error_app2 in Hreq by exact Hge.
        apply nth_error_requests in Hreq as (u & Hu & ->).
        destruct (Hans2 _ u Hu) as (data & Hdata & _).
        replace (List.length reqs1 + (seq - List.length reqs1)) with seq
          in Hdata by lia.
        now exists data.
    + left. apply batchPredict_Rejected in Hstage2 as (i & u & Hu & Herr).
      exists (List.length reqs1 + i), e2. split; [|reflexivity].
      exists (request_for url2 key2 u). split; [|exact Herr].
      simpl. rewrite nth_error_app2 by lia.
      replace (List.length reqs1 + i - List.length reqs1) with i by lia.
      unfold reqs2. now rewrite nth_error_map, Hu.
  - left. apply batchPredict_Rejected in Hstage1 as (i & u & Hu & Herr).
    exists i, e1. split; [|reflexivity].
    exists (request_for url1 key1 u). split; [|exact Herr].
    simpl. unfold reqs1. now rewrite nth_error_map, Hu.
Qed.

(** A validated request with the credentials configured always posts the
    whole of stage 1 first. *)
Lemma classify_posts_stage1 (env : Env) (axios_post : Network) (body : Body)
  (urls : list string) :
  as_array (body_imageUrls body) = Some urls -> urls <> [] -> keys_set env ->
  exists rest,
    posted (classify env axios_post body)
    = map (request_for (modelNotModelUrl env) (key_of (modelNotModelKey env))) urls
      ++ rest.
Proof.
  intros Harr Hne Hkeys.
  rewrite (classify_valid env axios_post body urls Harr Hne Hkeys). cbv zeta.
  destruct (snd (batchPredict axios_post [] urls _ _)) as [l1|e1].
  - destruct (snd (batchPredict axios_post _ urls
                                (stage2Url env (averageByTag l1)) _));
      now eexists.
  - exists []. simpl. now rewrite app_nil_r.
Qed.

Lemma rejected_not_all_answered (axios_post : Network) (h : Handled)
  (seq : nat) (err : AxiosError) :
  rejected_at axios_post h seq err -> all_answered axios_post h -> False.
Proof.
  intros (req & Hreq & Herr) Hall.
  destruct (Hall seq req Hreq) as [data Hdata]. congruence.
Qed.

(** ** [getMaxLabel] *)

Lemma Qc_ltb_lt (x y : Qc) : Qc_ltb x y = true <-> (x < y)%Qc.
Proof.
  unfold Qc_ltb. rewrite negb_true_iff. split.
  - intros H. apply Qcnot_le_lt. intros Hle.
    apply Qle_bool_iff in Hle. congruence.
  - intros H. destruct (Qle_bool y x) eqn:Hb; [|reflexivity].
    apply Qle_bool_iff in Hb. now apply Qclt_not_le in H.
Qed.

Lemma Qc_ltb_ge (x y : Qc) : Qc_ltb x y = false <-> (y <= x)%Qc.
Proof.
  unfold Qc_ltb. rewrite negb_false_iff. apply Qle_bool_iff.
Qed.

Lemma Qc_leb_le (x y : Qc) : Qc_leb x y = true <-> (x <= y)%Qc.
Proof. apply Qle_bool_iff. Qed.

(** The loop of lines 71-76 over finite numbers, from any state: the best
    probability never decreases, bounds every entry, and when the label
    changed it is the label of the first entry that reaches the final
    best probability. *)
Lemma getMaxLabel_loop (l : list (string * number)) :
  forall (bestLabel : option string) (bestProb : Qc),
    (forall k v, In (k, v) l -> exists q, v = Fin q) ->
    exists best,
      fold_left
        (fun '(bestLabel, bestProb) '(label, prob) =>
           if js_gt prob bestProb then (Some label, prob)
           else (bestLabel, bestProb))
        l (bestLabel, Fin bestProb)
      = (fst best, Fin (snd best)) /\
      (bestProb <= snd best)%Qc /\
      (forall k q, In (k, Fin q) l -> (q <= snd best)%Qc) /\
      ((best = (bestLabel, bestProb)) \/
       exists label pre post,
         l = pre ++ (label, Fin (snd best)) :: post /\
         fst best = Some label /\
         (bestProb < snd best)%Qc /\
         forall k q, In (k, Fin q) pre -> (q < snd best)%Qc).
Proof.
  induction l as [|[k v] l IH]; intros bl b Hfin.
  - exists (bl, b). simpl. repeat split; try apply Qcle_refl; try tauto.
  - destruct (Hfin k v (or_introl eq_refl)) as [q ->].
    assert (Hfin' : forall k v, In (k, v) l -> exists q, v = Fin q).
    { intros k' v' H. apply (Hfin k' v'). now right. }
    simpl fold_left. simpl js_gt.
    destruct (Qc_ltb b q) eqn:Hcmp.
    + apply Qc_ltb_lt in Hcmp.
      destruct (IH (Some k) q Hfin') as ([bl' b'] & Hfold & Hle & Hall & Hcase).
      simpl in *. exists (bl', b'). simpl. split; [exact Hfold|].
      split; [apply Qclt_le_weak; now apply Qclt_le_trans with q|].
      split.
      * intros k' q' [Heq|Hin]; [injection Heq as <- <-; exact Hle|].
        now apply (Hall k').
      * right. destruct Hcase as [Heq|(label & pre & post & -> & Hl & Hlt & Hpre)].
        -- injection Heq as -> ->. exists k, [], l. simpl. tauto.
        -- exists label, ((k, Fin q) :: pre), post. simpl.
           split; [reflexivity|]. split; [exact Hl|].
           split; [now apply Qclt_trans with q|].
           intros k' q' [Heq|Hin]; [injection Heq as <- <-; exact Hlt|].
           now apply (Hpre k').
    + apply Qc_ltb_ge in Hcmp.
      destruct (IH bl b Hfin') as ([bl' b'] & Hfold & Hle & Hall & Hcase).
      simpl in *. exists (bl', b'). simpl. split; [exact Hfold|].
      split; [exact Hle|]. split.
      * intros k' q' [Heq|Hin];
          [injection Heq as <- <-; now apply Qcle_trans with b|].
        now apply (Hall k').
      * destruct Hcase as [Heq|(label & pre & post & -> & Hl & Hlt & Hpre)];
          [now left|].
        right. exists label, ((k, Fin q) :: pre), post. simpl.
        split; [reflexivity|]. split; [exact Hl|]. split; [exact Hlt|].
        intros k' q' [Heq|Hin];
          [injection Heq as <- <-; now apply Qcle_lt_trans with b|].
        now apply (Hpre k').
Qed.

Lemma minus_one_below_probabilities (q : Qc) :
  (0 <= q)%Qc -> (Q2Qc (-1) < q)%Qc.
Proof.
  intros H. apply Qclt_le_trans with 0%Qc; [|exact H]. reflexivity.
Qed.

(** * The claims *)

(** C1 (code defect).  The averages are meant to be, for each label, the sum
    of the images' probabilities divided by the number of images.  For a
    label that names a member of [Object.prototype] the code does not
    compute it: a batch of one image tagged [constructor] with probability
    1/2 has mean 1/2, yet the result maps [constructor] to [NaN]; the same
    batch tagged [__proto__] yields no key at all. *)
Theorem averageByTag_constructor_label :
  averageByTag constructor_batch = [("constructor", NaN)] /\
  mean_over_images "constructor" constructor_batch = Q2Qc (1 # 2) /\
  averageByTag proto_batch = [] /\
  seen "__proto__" proto_batch = true.
Proof.
  split; [reflexivity|]. split; [|split; reflexivity].
  apply Qc_is_canon. reflexivity.
Qed.

(** ** The divisor *)



(** ** The range of the averages *)

Lemma Some_number_eq (x : option number) (y : number) :
  match x with Some v => number_eqb v y | None => false end = true ->
  x = Some y.
Proof.
  destruct x as [v|]; [|discriminate]. intros H. f_equal.
  now apply number_eqb_eq.
Qed.

(** Two predictions of one image for the same label are both added: the
    average of [Tank] is 2. *)
Example averageByTag_duplicate_batch :
  get_own (averageByTag duplicate_batch) "Tank" = Some (Fin (Q2Qc 2)).
Proof. apply Some_number_eq. vm_compute. reflexivity. Qed.

(** C9, as stated, fails: an image may list a label twice, and then the
    mean exceeds 1 although every probability lies in [0,1]. *)
Lemma averageByTag_range_fails_on_repeated_label :
  ~ (forall perImage, probabilities_valid perImage ->
       (forall L v, get_own (averageByTag perImage) L = Some v ->
          is_probability v) /\
       (forall L, In L (keys (averageByTag perImage)) <-> seen L perImage = true)).
Proof.
  intros Hclaim.
  assert (Hvalid : probabilities_valid duplicate_batch).
  { intros img p [<-|[]] [<-|[<-|[]]]; split; now vm_compute. }
  destruct (Hclaim duplicate_batch Hvalid) as [Hrange _].
  assert (Hget : get_own (averageByTag duplicate_batch) "Tank"
                 = Some (Fin (Q2Qc 2))).
  { apply Some_number_eq. vm_compute. reflexivity. }
  destruct (Hrange _ _ Hget) as (q & [= <-] & _ & Hle).
  vm_compute in Hle. now apply Hle.
Qed.

(** C9, amended.  When every probability of the batch lies in [0,1] and no
    image lists a label twice, then for every label that does not name a
    member of [Object.prototype]: the label is a key of the result exactly
    when some image mentions it, and its value lies in [0,1]. *)
Theorem averageByTag_range (perImage : list ImagePrediction) (L : string) :
  probabilities_valid perImage -> distinct_labels perImage ->
  inherited L = false ->
  (In L (keys (averageByTag perImage)) <-> seen L perImage = true) /\
  (forall v, get_own (averageByTag perImage) L = Some v -> is_probability v).
Proof.
  intros Hvalid Hdistinct Hinh. split; [now apply seen_In_keys|].
  intros v. rewrite averageByTag_mean by exact Hinh.
  destruct (seen L perImage) eqn:Hseen; [|discriminate].
  intros [= <-]. apply seen_nonempty in Hseen.
  now apply rounded_mean_probability.
Qed.

Lemma averageByTag_range_witness :
  (In "Model" (keys (averageByTag stage1_batch)) <->
   seen "Model" stage1_batch = true) /\
  (forall v, get_own (averageByTag stage1_batch) "Model" = Some v ->
     is_probability v).
Proof.
  apply (averageByTag_range stage1_batch "Model").
  - intros img p [<-|[<-|[]]] [<-|[<-|[]]]; split; now vm_compute.
  - intros img [<-|[<-|[]]]; simpl; repeat constructor; simpl;
      intuition discriminate.
  - reflexivity.
Defined.

(** ** The best label *)

(** C3.  On a non-empty mapping from labels to probabilities,
    [getMaxLabel] returns a label together with the greatest probability of
    the mapping; the label is the first one, in enumeration order, that
    carries it, and the mapping sends the label to it.  On the empty
    mapping it returns no label and the probability -1, which lies below
    every probability. *)
Theorem getMaxLabel_maximum :
  (forall probMap : object number,
      probMap <> [] ->
      (forall k v, In (k, v) (entries probMap) -> is_probability v) ->
      exists label prob pre post,
        getMaxLabel probMap
          = {| MaxLabel.label := Some label; MaxLabel.probability := Fin prob |} /\
        entries probMap = pre ++ (label, Fin prob) :: post /\
        (forall k q, In (k, Fin q) pre -> (q < prob)%Qc) /\
        (forall k q, In (k, Fin q) (entries probMap) -> (q <= prob)%Qc) /\
        (NoDup (keys probMap) -> get_own probMap label = Some (Fin prob))) /\
  getMaxLabel []
    = {| MaxLabel.label := None; MaxLabel.probability := Fin (Q2Qc (-1)) |} /\
  (forall v, is_probability v -> js_gt v (Fin (Q2Qc (-1))) = true).
Proof.
  split; [|split; [reflexivity|]].
  - intros probMap Hne Hprob.
    assert (Hfin : forall k v, In (k, v) probMap -> exists q, v = Fin q).
    { intros k v H. destruct (Hprob k v H) as (q & -> & _). now exists q. }
    destruct (getMaxLabel_loop probMap None (Q2Qc (-1)) Hfin)
      as ([bl b] & Hfold & _ & Hall & Hcase).
    simpl in Hfold, Hall, Hcase.
    destruct Hcase as [Heq|(label & pre & post & Hsplit & -> & _ & Hpre)].
    + exfalso. injection Heq as -> ->.
      destruct probMap as [|[k v] rest]; [congruence|].
      destruct (Hprob k v (or_introl eq_refl)) as (q & -> & Hq & _).
      apply minus_one_below_probabilities in Hq.
      apply (Qclt_not_le _ _ Hq). apply (Hall k). now left.
    + exists label, b, pre, post. unfold getMaxLabel, entries.
      rewrite Hfold. repeat split; try assumption.
      intros Hnd. apply In_get_own; [exact Hnd|].
      unfold entries. rewrite Hsplit. apply in_elt.
  - intros v (q & -> & Hq & _). simpl. apply Qc_ltb_lt.
    now apply minus_one_below_probabilities.
Qed.

Lemma getMaxLabel_maximum_witness :
  exists label prob pre post,
    getMaxLabel tied_averages
      = {| MaxLabel.label := Some label; MaxLabel.probability := Fin prob |} /\
    entries tied_averages = pre ++ (label, Fin prob) :: post /\
    (forall k q, In (k, Fin q) pre -> (q < prob)%Qc) /\
    (forall k q, In (k, Fin q) (entries tied_averages) -> (q <= prob)%Qc) /\
    (NoDup (keys tied_averages) -> get_own tied_averages label = Some (Fin prob)).
Proof.
  apply (proj1 getMaxLabel_maximum tied_averages).
  - discriminate.
  - intros k v [[= <- <-]|[[= <- <-]|[[= <- <-]|[]]]];
      eexists; (split; [reflexivity|]); split; now vm_compute.
Defined.

(** The tie of [tied_averages] goes to the label enumerated first. *)
Example getMaxLabel_tie :
  MaxLabel.label (getMaxLabel tied_averages) = Some "Jeep".
Proof. reflexivity. Qed.

(** ** The branch *)

Lemma modelProb_lookup (stage1Averages : object number) :
  modelProb stage1Averages = lookup_or_zero stage1Averages "Model".
Proof.
  unfold modelProb, lookup_or_zero, Get.
  now destruct (get_own stage1Averages "Model").
Qed.

Lemma notModelProb_lookup (stage1Averages : object number) :
  notModelProb stage1Averages = lookup_or_zero stage1Averages "NOT Model".
Proof.
  unfold notModelProb, lookup_or_zero, Get.
  now destruct (get_own stage1Averages "NOT Model").
Qed.

(** C2.  The decision is [isModel = (Model >= NOT Model)] on the stage-1
    averages, an absent label counting as 0, so that a tie gives [true];
    [true] selects the SuperModel/Common endpoint, credential and branch
    name, [false] the Civilian/Hybrid ones; and the handler posts stage 2
    to the endpoint so selected and reports the decision and the branch. *)
Theorem branch_decision :
  (forall (env : Env) (stage1Averages : object number),
      isModel stage1Averages
        = js_ge (lookup_or_zero stage1Averages "Model")
                (lookup_or_zero stage1Averages "NOT Model") /\
      (forall q, lookup_or_zero stage1Averages "Model" = Fin q ->
                 lookup_or_zero stage1Averages "NOT Model" = Fin q ->
                 isModel stage1Averages = true) /\
      (isModel stage1Averages = true ->
       stage2Url env stage1Averages = superCommonUrl env /\
       stage2Key env stage1Averages = key_of (superCommonKey env) /\
       branch stage1Averages = "SuperModelCommonModel") /\
      (isModel stage1Averages = false ->
       stage2Url env stage1Averages = civilianHybridUrl env /\
       stage2Key env stage1Averages = key_of (civilianHybridKey env) /\
       branch stage1Averages = "CivilianHybrid")) /\
  (forall (env : Env) (axios_post : Network) (body : Body) (urls : list string)
          (stage1PerImage : list ImagePrediction),
      as_array (body_imageUrls body) = Some urls -> urls <> [] -> keys_set env ->
      snd (batchPredict axios_post [] urls (modelNotModelUrl env)
                        (key_of (modelNotModelKey env)))
        = Fulfilled stage1PerImage ->
      posted (classify env axios_post body)
        = map (request_for (modelNotModelUrl env) (key_of (modelNotModelKey env)))
              urls
          ++ map (request_for (stage2Url env (averageByTag stage1PerImage))
                              (stage2Key env (averageByTag stage1PerImage)))
                 urls /\
      forall r, json_body (response (classify env axios_post body)) = Result r ->
        Stage1.isModel (stage1 r) = isModel (averageByTag stage1PerImage) /\
        Stage2.branch (stage2 r) = branch (averageByTag stage1PerImage)).
Proof.
  split.
  - intros env avg.
    assert (Hdef : isModel avg
                   = js_ge (lookup_or_zero avg "Model")
                           (lookup_or_zero avg "NOT Model")).
    { unfold isModel. now rewrite modelProb_lookup, notModelProb_lookup. }
    split; [exact Hdef|]. split.
    + intros q Hm Hn. rewrite Hdef, Hm, Hn. simpl.
      apply Qc_leb_le, Qcle_refl.
    + unfold stage2Url, stage2Key, branch, useSuperCommon.
      split; intros ->; repeat split.
  - intros env axios_post body urls l1 Harr Hne Hkeys Hstage1.
    rewrite (classify_valid env axios_post body urls Harr Hne Hkeys).
    cbv zeta. rewrite Hstage1. clear Hstage1.
    destruct (snd (batchPredict axios_post _ urls
                                (stage2Url env (averageByTag l1)) _))
      as [l2|e2]; simpl.
    + split; [reflexivity|]. intros r [= <-]. split; reflexivity.
    + split; [reflexivity|]. discriminate.
Qed.

Lemma branch_decision_witness :
  posted (classify sample_env tied_network sample_body)
    = map (request_for (modelNotModelUrl sample_env)
                       (key_of (modelNotModelKey sample_env)))
          ["a.jpg"; "b.jpg"]
      ++ map (request_for (stage2Url sample_env (averageByTag tied_batch))
                          (stage2Key sample_env (averageByTag tied_batch)))
             ["a.jpg"; "b.jpg"] /\
  forall r,
    json_body (response (classify sample_env tied_network sample_body)) = Result r ->
    Stage1.isModel (stage1 r) = isModel (averageByTag tied_batch) /\
    Stage2.branch (stage2 r) = branch (averageByTag tied_batch).
Proof.
  apply (proj2 branch_decision sample_env tied_network sample_body
               ["a.jpg"; "b.jpg"] tied_batch).
  - reflexivity.
  - discriminate.
  - repeat split.
  - reflexivity.
Defined.

(** On the tie the branch is SuperModel/Common. *)
Example tie_selects_super_common :
  isModel (averageByTag tied_batch) = true /\
  branch (averageByTag tied_batch) = "SuperModelCommonModel" /\
  stage2Url sample_env (averageByTag tied_batch) = default_superCommonUrl.
Proof. repeat split. Qed.

(** ** Validation *)

(** C7 (code defect).  The handler means to answer 400 whenever [imageUrls]
    is missing, and does so for the body [{}].  A request without a parsed
    body also lacks [imageUrls], yet for it [req.body] is [undefined], line
    85 throws before the validation, and the [catch] block answers 500
    "Internal server error" with the text of the [TypeError]. *)
Theorem classify_without_body (env : Env) (axios_post : Network) :
  body_imageUrls Body_undefined = None /\
  response (classify env axios_post Body_undefined)
    = {| status := 500;
         json_body :=
           Error_with_details
             "Internal server error"
             (Error_message
                "Cannot read properties of undefined (reading 'imageUrls')") |} /\
  credentials_checked (classify env axios_post Body_undefined) = false /\
  posted (classify env axios_post Body_undefined) = [] /\
  response (classify env axios_post empty_body)
    = {| status := 400;
         json_body := Error_only "imageUrls must be a non-empty array of URLs" |}.
Proof. repeat split. Qed.

(** For a parsed body the validation works as intended: when [imageUrls]
    is missing, is not an array, or is the empty array, the handler answers
    400 with a message that starts with [imageUrls]; it never reaches the
    credential check and posts no request. *)
Theorem classify_rejects_bad_imageUrls (env : Env) (axios_post : Network)
  (imageUrls : option json) :
  imageUrls = None \/
  (exists v, imageUrls = Some v /\ forall items, v <> JArray items) \/
  imageUrls = Some (JArray []) ->
  status (response (classify env axios_post (Body_object imageUrls))) = 400 /\
  (exists msg,
      json_body (response (classify env axios_post (Body_object imageUrls)))
        = Error_only msg /\
      index 0 "imageUrls" msg = Some 0) /\
  credentials_checked (classify env axios_post (Body_object imageUrls)) = false /\
  posted (classify env axios_post (Body_object imageUrls)) = [].
Proof.
  intros H.
  assert (Hbad : classify env axios_post (Body_object imageUrls) = bad_request).
  { unfold classify. destruct H as [->|[(v & -> & Hv)| ->]]; try reflexivity.
    destruct v; try reflexivity. now elim (Hv items). }
  rewrite Hbad. repeat split. now eexists.
Qed.

Lemma classify_rejects_bad_imageUrls_witness :
  status (response (classify sample_env sample_network (Body_object None))) = 400 /\
  (exists msg,
      json_body (response (classify sample_env sample_network (Body_object None)))
        = Error_only msg /\
      index 0 "imageUrls" msg = Some 0) /\
  credentials_checked (classify sample_env sample_network (Body_object None))
    = false /\
  posted (classify sample_env sample_network (Body_object None)) = [].
Proof.
  apply (classify_rejects_bad_imageUrls sample_env sample_network None).
  left. reflexivity.
Defined.

(** ** The batch *)

(** C6.  When every request of the batch is answered, [batchPredict]
    fulfils with one element per URL, in the order of the URLs: the element
    at each position carries the URL at that position and the predictions
    of the answer to its request, the empty list when the answer has no
    [predictions] array. *)
Theorem batchPredict_one_per_url (axios_post : Network) (issued : list Request)
  (urls : list string) (endpointUrl predictionKey : string) :
  (forall i u, nth_error urls i = Some u ->
     exists data,
       result (axios_post (List.length issued + i)
                          (request_for endpointUrl predictionKey u)) = inr data) ->
  exists perImage,
    snd (batchPredict axios_post issued urls endpointUrl predictionKey)
      = Fulfilled perImage /\
    List.length perImage = List.length urls /\
    map imageUrl perImage = urls /\
    forall i u data,
      nth_error urls i = Some u ->
      result (axios_post (List.length issued + i)
                         (request_for endpointUrl predictionKey u)) = inr data ->
      exists img,
        nth_error perImage i = Some img /\
        imageUrl img = u /\
        predictions img
          = map (fun p => {| tagName := Remote.tagName p;
                             probability := Remote.probability p |})
                (match Remote.predictions data with
                 | Some ps => ps
                 | None => []
                 end) /\
        (Remote.predictions data = None -> predictions img = []).
Proof.
  intros Hall.
  destruct (batchPredict_answered axios_post issued urls endpointUrl
              predictionKey Hall) as [perImage Hful].
  destruct (batchPredict_Fulfilled _ _ _ _ _ _ Hful) as [Hlen Hnth].
  exists perImage. split; [exact Hful|]. split; [exact Hlen|]. split.
  - apply nth_error_ext. intros n. rewrite nth_error_map.
    destruct (nth_error urls n) as [u|] eqn:Hu.
    + destruct (Hnth n u Hu) as (data & _ & ->). reflexivity.
    + apply nth_error_None in Hu. rewrite <- Hlen in Hu.
      apply nth_error_None in Hu. now rewrite Hu.
  - intros i u data Hu Hdata.
    destruct (Hnth i u Hu) as (data' & Hdata' & Himg).
    assert (data' = data) as -> by congruence.
    exists (normalize u data). repeat split; [exact Himg|].
    intros Hnone. unfold normalize. simpl. now rewrite Hnone.
Qed.

Lemma batchPredict_one_per_url_witness :
  exists perImage,
    snd (batchPredict silent_network [] ["a.jpg"; "b.jpg"]
                      default_superCommonUrl "key-3")
      = Fulfilled perImage /\
    List.length perImage = 2 /\
    map imageUrl perImage = ["a.jpg"; "b.jpg"] /\
    forall i u data,
      nth_error ["a.jpg"; "b.jpg"] i = Some u ->
      result (silent_network (0 + i)
                (request_for default_superCommonUrl "key-3" u)) = inr data ->
      exists img,
        nth_error perImage i = Some img /\
        imageUrl img = u /\
        predictions img
          = map (fun p => {| tagName := Remote.tagName p;
                             probability := Remote.probability p |})
                (match Remote.predictions data with
                 | Some ps => ps
                 | None => []
                 end) /\
        (Remote.predictions data = None -> predictions img = []).
Proof.
  apply (batchPredict_one_per_url silent_network [] ["a.jpg"; "b.jpg"]
           default_superCommonUrl "key-3").
  intros i u _. eexists. reflexivity.
Defined.

(** An answer without a [predictions] array becomes an image with no
    predictions. *)
Example batchPredict_omitted_predictions :
  snd (batchPredict silent_network [] ["a.jpg"; "b.jpg"]
                    default_superCommonUrl "key-3")
  = Fulfilled [ image "a.jpg" []; image "b.jpg" [] ].
Proof. reflexivity. Qed.

(** ** Failures *)

(** [details] is the remote payload when there is a truthy one, and a
    message in every other case. *)
Lemma error_details_cases (err : AxiosError) :
  (forall p, response_data err = Some p -> payload_truthy p = true ->
     error_details err = Remote_payload p) /\
  (forall p, response_data err = Some p -> payload_truthy p = false ->
     exists msg, error_details err = Error_message msg) /\
  (response_data err = None -> exists msg, error_details err = Error_message msg).
Proof.
  unfold error_details, message_or_unknown. split; [|split].
  - intros p -> ->. reflexivity.
  - intros p -> ->. destruct (message err =? ""); now eexists.
  - intros ->. destruct (message err =? ""); now eexists.
Qed.

(** C4.  A batch in which some request is rejected is rejected as a whole,
    with the rejection of one of its requests and no list of results.  A
    validated [/classify] call during which some posted request is
    rejected answers 500 with the body of the [catch] block and no result
    object; its [details] are those of a rejected request: the payload of
    the remote answer when there is one, a message otherwise. *)
Theorem rejected_request_fails_everything :
  (forall (axios_post : Network) (issued : list Request) (urls : list string)
          (endpointUrl predictionKey : string) (i : nat) (u : string)
          (err : AxiosError),
      nth_error urls i = Some u ->
      result (axios_post (List.length issued + i)
                         (request_for endpointUrl predictionKey u)) = inl err ->
      exists j u' err',
        snd (batchPredict axios_post issued urls endpointUrl predictionKey)
          = Rejected err' /\
        nth_error urls j = Some u' /\
        result (axios_post (List.length issued + j)
                           (request_for endpointUrl predictionKey u')) = inl err') /\
  (forall (env : Env) (axios_post : Network) (body : Body) (urls : list string)
          (seq : nat) (err : AxiosError),
      as_array (body_imageUrls body) = Some urls -> urls <> [] -> keys_set env ->
      rejected_at axios_post (classify env axios_post body) seq err ->
      exists seq' err',
        rejected_at axios_post (classify env axios_post body) seq' err' /\
        response (classify env axios_post body)
          = {| status := 500;
               json_body :=
                 Error_with_details "Internal server error" (error_details err') |} /\
        (forall r, json_body (response (classify env axios_post body)) <> Result r) /\
        (forall p, response_data err' = Some p -> payload_truthy p = true ->
           error_details err' = Remote_payload p) /\
        (forall p, response_data err' = Some p -> payload_truthy p = false ->
           exists msg, error_details err' = Error_message msg) /\
        (response_data err' = None ->
         exists msg, error_details err' = Error_message msg)).
Proof.
  split.
  - intros axios_post issued urls endpointUrl predictionKey i u err Hu Herr.
    destruct (snd (batchPredict axios_post issued urls endpointUrl predictionKey))
      as [perImage|err'] eqn:Hbatch.
    + apply batchPredict_Fulfilled in Hbatch as [_ Hnth].
      destruct (Hnth i u Hu) as (data & Hdata & _). congruence.
    + destruct (batchPredict_Rejected _ _ _ _ _ _ Hbatch) as (j & u' & Hj & Hf).
      now exists j, u', err'.
  - intros env axios_post body urls seq err Harr Hne Hkeys Hrej.
    destruct (classify_outcome env axios_post body urls Harr Hne Hkeys)
      as [(seq' & err' & Hrej' & Hh)|[Hall _]].
    + exists seq', err'. split; [exact Hrej'|].
      assert (Hresp : response (classify env axios_post body)
                      = {| status := 500;
                           json_body :=
                             Error_with_details "Internal server error"
                                                (error_details err') |}).
      { rewrite Hh. reflexivity. }
      rewrite Hresp. simpl. split; [reflexivity|].
      split; [discriminate|]. apply error_details_cases.
    + exfalso. exact (rejected_not_all_answered _ _ _ _ Hrej Hall).
Qed.

Lemma rejected_request_fails_everything_witness :
  exists seq' err',
    rejected_at failing_network
                (classify sample_env failing_network sample_body) seq' err' /\
    response (classify sample_env failing_network sample_body)
      = {| status := 500;
           json_body :=
             Error_with_details "Internal server error" (error_details err') |} /\
    (forall r,
        json_body (response (classify sample_env failing_network sample_body))
        <> Result r) /\
    (forall p, response_data err' = Some p -> payload_truthy p = true ->
       error_details err' = Remote_payload p) /\
    (forall p, response_data err' = Some p -> payload_truthy p = false ->
       exists msg, error_details err' = Error_message msg) /\
    (response_data err' = None ->
     exists msg, error_details err' = Error_message msg).
Proof.
  apply (proj2 rejected_request_fails_everything sample_env failing_network
               sample_body ["a.jpg"; "b.jpg"] 1
               {| response_data := None;
                  message := "timeout of 25000ms exceeded" |}).
  - reflexivity.
  - discriminate.
  - repeat split.
  - eexists. split; reflexivity.
Defined.

(** One of two stage-1 calls times out: 500, the timeout message as
    [details], and stage 2 is never started. *)
Example classify_timeout :
  classify sample_env failing_network sample_body
  = internal_error
      {| response_data := None; message := "timeout of 25000ms exceeded" |}
      (map (request_for default_modelNotModelUrl "key-1") ["a.jpg"; "b.jpg"]).
Proof. reflexivity. Qed.

(** ** Success *)

Lemma averageByTag_no_predictions (perImage : list ImagePrediction) :
  (forall img, In img perImage -> predictions img = []) ->
  averageByTag perImage = [].
Proof.
  intros Hempty.
  assert (Htally : forall sums count,
             fold_left
               (fun '(sums, count) img =>
                  (fold_left accumulate (predictions img) sums, count + 1))
               perImage (sums, count)
             = (sums, count + List.length perImage)).
  { induction perImage as [|img rest IH]; intros sums count; simpl.
    - now rewrite Nat.add_0_r.
    - rewrite (Hempty img (or_introl eq_refl)). simpl.
      rewrite IH by (intros i Hi; apply Hempty; now right).
      f_equal. lia. }
  unfold averageByTag, tally. now rewrite Htally.
Qed.

(** C5.  Whenever both stages complete, the handler answers 200 with the
    result object.  Its stage-2 predictions are, image by image, the
    answers of the network to the stage-2 requests; the averages, the final
    label and its probability are [averageByTag] and [getMaxLabel] of these
    predictions, whether the threshold is met or not; and the confidence
    flag is [finalLabelProbability >= 0.95], reported next to the
    threshold. *)
Theorem threshold_only_annotates (env : Env) (axios_post : Network)
  (body : Body) (urls : list string) :
  as_array (body_imageUrls body) = Some urls -> urls <> [] -> keys_set env ->
  all_answered axios_post (classify env axios_post body) ->
  exists r,
    response (classify env axios_post body)
      = {| status := 200; json_body := Result r |} /\
    List.length (Stage2.perImage (stage2 r)) = List.length urls /\
    (forall i imageUrl, nth_error urls i = Some imageUrl ->
       exists req data,
         nth_error (posted (classify env axios_post body)) (List.length urls + i)
           = Some req /\
         Url req = imageUrl /\
         result (axios_post (List.length urls + i) req) = inr data /\
         nth_error (Stage2.perImage (stage2 r)) i
           = Some (normalize imageUrl data)) /\
    Stage2.averages (stage2 r) = averageByTag (Stage2.perImage (stage2 r)) /\
    Stage2.finalLabel (stage2 r)
      = MaxLabel.label (getMaxLabel (averageByTag (Stage2.perImage (stage2 r)))) /\
    Stage2.finalLabelProbability (stage2 r)
      = MaxLabel.probability
          (getMaxLabel (averageByTag (Stage2.perImage (stage2 r)))) /\
    Stage2.highConfidence (stage2 r)
      = js_ge (Stage2.finalLabelProbability (stage2 r)) (literal (95 # 100)) /\
    Stage2.confidenceThreshold (stage2 r) = literal (95 # 100).
Proof.
  intros Harr Hne Hkeys Hall.
  destruct (classify_outcome env axios_post body urls Harr Hne Hkeys)
    as [(seq & err & Hrej & _)|[_ (l1 & l2 & _ & Hstage2 & Hh)]].
  { exfalso. exact (rejected_not_all_answered _ _ _ _ Hrej Hall). }
  cbv zeta in Hstage2, Hh.
  apply batchPredict_Fulfilled in Hstage2 as [Hlen Hnth].
  rewrite length_map in Hnth.
  exists (result_object urls l1 l2). rewrite Hh.
  split; [reflexivity|]. split; [exact Hlen|].
  split; [|now repeat split].
  intros i u Hu. destruct (Hnth i u Hu) as (data & Hdata & Hl2).
  eexists. exists data. cbn [posted ok].
  rewrite nth_error_app2 by (rewrite length_map; lia).
  rewrite length_map.
  replace (List.length urls + i - List.length urls) with i by lia.
  rewrite nth_error_map, Hu. cbn [option_map].
  split; [reflexivity|]. split; [reflexivity|]. split; [exact Hdata | exact Hl2].
Qed.

Lemma threshold_only_annotates_witness :
  exists r,
    response (classify sample_env unsure_network sample_body)
      = {| status := 200; json_body := Result r |} /\
    List.length (Stage2.perImage (stage2 r)) = 2 /\
    (forall i imageUrl, nth_error ["a.jpg"; "b.jpg"] i = Some imageUrl ->
       exists req data,
         nth_error (posted (classify sample_env unsure_network sample_body))
                   (2 + i)
           = Some req /\
         Url req = imageUrl /\
         result (unsure_network (2 + i) req) = inr data /\
         nth_error (Stage2.perImage (stage2 r)) i
           = Some (normalize imageUrl data)) /\
    Stage2.averages (stage2 r) = averageByTag (Stage2.perImage (stage2 r)) /\
    Stage2.finalLabel (stage2 r)
      = MaxLabel.label (getMaxLabel (averageByTag (Stage2.perImage (stage2 r)))) /\
    Stage2.finalLabelProbability (stage2 r)
      = MaxLabel.probability
          (getMaxLabel (averageByTag (Stage2.perImage (stage2 r)))) /\
    Stage2.highConfidence (stage2 r)
      = js_ge (Stage2.finalLabelProbability (stage2 r)) (literal (95 # 100)) /\
    Stage2.confidenceThreshold (stage2 r) = literal (95 # 100).
Proof.
  apply (threshold_only_annotates sample_env unsure_network sample_body
           ["a.jpg"; "b.jpg"]).
  - reflexivity.
  - discriminate.
  - repeat split.
  - intros seq req _. unfold unsure_network, network_of.
    destruct (url req =? default_modelNotModelUrl); eexists; reflexivity.
Defined.

(** Above and below the threshold the handler answers 200 alike; only the
    flag differs. *)
Example threshold_both_sides :
  (let h := classify sample_env sample_network sample_body in
   status (response h) = 200 /\
   match json_body (response h) with
   | Result r =>
       Stage2.finalLabel (stage2 r) = Some "Tank" /\
       Stage2.highConfidence (stage2 r) = true
   | _ => False
   end) /\
  (let h := classify sample_env unsure_network sample_body in
   status (response h) = 200 /\
   match json_body (response h) with
   | Result r =>
       Stage2.finalLabel (stage2 r) = Some "Tank" /\
       Stage2.highConfidence (stage2 r) = false
   | _ => False
   end).
Proof. vm_compute. repeat split. Qed.

(** C10.  When both stages complete and no stage-2 answer carries a
    prediction, the handler still answers 200: the stage-2 averages are
    empty, [finalLabel] is null, [finalLabelProbability] is -1 and
    [highConfidence] is false. *)
Theorem empty_stage2_still_succeeds (env : Env) (axios_post : Network)
  (body : Body) (urls : list string) :
  as_array (body_imageUrls body) = Some urls -> urls <> [] -> keys_set env ->
  all_answered axios_post (classify env axios_post body) ->
  (forall seq req data,
      List.length urls <= seq ->
      nth_error (posted (classify env axios_post body)) seq = Some req ->
      result (axios_post seq req) = inr data ->
      Remote.predictions data = None \/ Remote.predictions data = Some []) ->
  exists r,
    response (classify env axios_post body)
      = {| status := 200; json_body := Result r |} /\
    (forall img, In img (Stage2.perImage (stage2 r)) -> predictions img = []) /\
    Stage2.averages (stage2 r) = [] /\
    Stage2.finalLabel (stage2 r) = None /\
    Stage2.finalLabelProbability (stage2 r) = Fin (Q2Qc (-1)) /\
    Stage2.highConfidence (stage2 r) = false.
Proof.
  intros Harr Hne Hkeys Hall Hsilent.
  destruct (classify_outcome env axios_post body urls Harr Hne Hkeys)
    as [(seq & err & Hrej & _)|[_ (l1 & l2 & _ & Hstage2 & Hh)]].
  { exfalso. exact (rejected_not_all_answered _ _ _ _ Hrej Hall). }
  cbv zeta in Hstage2, Hh.
  set (reqs1 := map (request_for (modelNotModelUrl env)
                                 (key_of (modelNotModelKey env))) urls) in *.
  set (url2 := stage2Url env (averageByTag l1)) in *.
  set (key2 := stage2Key env (averageByTag l1)) in *.
  assert (Hlen1 : List.length reqs1 = List.length urls) by apply length_map.
  destruct (batchPredict_Fulfilled _ _ _ _ _ _ Hstage2) as [Hlen2 Hnth].
  assert (Hempty : forall img, In img l2 -> predictions img = []).
  { intros img Himg. apply In_nth_error in Himg as [i Hi].
    assert (Hlt : i < List.length urls).
    { rewrite <- Hlen2. apply nth_error_Some. congruence. }
    destruct (nth_error urls i) as [u|] eqn:Hu;
      [|apply nth_error_None in Hu; lia].
    destruct (Hnth i u Hu) as (data & Hdata & Himg').
    assert (img = normalize u data) as -> by congruence.
    assert (Hposted : nth_error (posted (classify env axios_post body))
                                (List.length reqs1 + i)
                      = Some (request_for url2 key2 u)).
    { rewrite Hh. simpl. rewrite nth_error_app2 by lia.
      replace (List.length reqs1 + i - List.length reqs1) with i by lia.
      now rewrite nth_error_map, Hu. }
    assert (Hge : List.length urls <= List.length reqs1 + i) by lia.
    unfold normalize. simpl.
    destruct (Hsilent _ _ data Hge Hposted Hdata) as [-> | ->]; reflexivity. }
  exists (result_object urls l1 l2). rewrite Hh.
  split; [reflexivity|]. split; [exact Hempty|].
  unfold result_object. simpl.
  rewrite (averageByTag_no_predictions l2 Hempty). repeat split.
Qed.

Lemma empty_stage2_still_succeeds_witness :
  exists r,
    response (classify sample_env silent_network sample_body)
      = {| status := 200; json_body := Result r |} /\
    (forall img, In img (Stage2.perImage (stage2 r)) -> predictions img = []) /\
    Stage2.averages (stage2 r) = [] /\
    Stage2.finalLabel (stage2 r) = None /\
    Stage2.finalLabelProbability (stage2 r) = Fin (Q2Qc (-1)) /\
    Stage2.highConfidence (stage2 r) = false.
Proof.
  apply (empty_stage2_still_succeeds sample_env silent_network sample_body
           ["a.jpg"; "b.jpg"]).
  - reflexivity.
  - discriminate.
  - repeat split.
  - intros seq req _. unfold silent_network, network_of.
    destruct (url req =? default_modelNotModelUrl); eexists; reflexivity.
  - intros [|[|seq]] req data Hseq Hreq Hdata; cbn [List.length] in Hseq; try lia.
    destruct seq as [|[|seq]]; vm_compute in Hreq.
    + injection Hreq as <-. vm_compute in Hdata. injection Hdata as <-. now left.
    + injection Hreq as <-. vm_compute in Hdata. injection Hdata as <-. now left.
    + destruct seq; discriminate.
Defined.

(** * Further properties *)

(** For a label that does not name a member of [Object.prototype], the
    result holds, when some image mentions the label, the sum of the
    probabilities given to the label, added in the order of the predictions
    and rounded at every addition, divided by the number of all images; it
    has no such key otherwise. *)
Theorem averageByTag_ordinary_label (perImage : list ImagePrediction)
  (L : string) :
  inherited L = false ->
  (seen L perImage = true ->
   get_own (averageByTag perImage) L
     = Some (js_div (rounded_sum L perImage) (List.length perImage))) /\
  (seen L perImage = false -> get_own (averageByTag perImage) L = None).
Proof.
  intros Hinh. rewrite averageByTag_mean by exact Hinh.
  split; intros ->; reflexivity.
Qed.

Lemma averageByTag_ordinary_label_witness :
  (seen "Tank" partial_batch = true ->
   get_own (averageByTag partial_batch) "Tank"
     = Some (js_div (rounded_sum "Tank" partial_batch)
                    (List.length partial_batch))) /\
  (seen "Tank" partial_batch = false ->
   get_own (averageByTag partial_batch) "Tank" = None).
Proof.
  apply (averageByTag_ordinary_label partial_batch "Tank"). reflexivity.
Defined.

(** A label that one of two images mentions with probability 1/2 averages
    to 1/4: the divisor is the number of images. *)
Example averageByTag_partial_label :
  get_own (averageByTag partial_batch) "Tank" = Some (Fin (Q2Qc (1 # 4))).
Proof. apply Some_number_eq. vm_compute. reflexivity. Qed.

(** The stage-1 averages of the end-to-end scenario, as binary64 computes
    them: 0.9 + 0.8 is 1.7000000000000002 and 0.1 + 0.2 is
    0.30000000000000004. *)
Example averageByTag_stage1_batch :
  get_own (averageByTag stage1_batch) "Model"
    = Some (literal (8500000000000001 # 10000000000000000)) /\
  get_own (averageByTag stage1_batch) "NOT Model"
    = Some (literal (15000000000000002 # 100000000000000000)) /\
  keys (averageByTag stage1_batch) = ["Model"; "NOT Model"].
Proof.
  split; [|split]; [apply Some_number_eq | apply Some_number_eq |];
    vm_compute; reflexivity.
Qed.

(** When one of the three credentials is not configured, a validated
    request is answered 500 at the credential check and no request is
    posted. *)
Theorem classify_requires_credentials (env : Env) (axios_post : Network)
  (body : Body) (urls : list string) :
  as_array (body_imageUrls body) = Some urls -> urls <> [] ->
  unset (modelNotModelKey env) = true \/
  unset (civilianHybridKey env) = true \/
  unset (superCommonKey env) = true ->
  status (response (classify env axios_post body)) = 500 /\
  (exists msg, json_body (response (classify env axios_post body)) = Error_only msg) /\
  credentials_checked (classify env axios_post body) = true /\
  posted (classify env axios_post body) = [].
Proof.
  intros Harr Hne Hunset.
  assert (Hkeys : classify env axios_post body = keys_not_set).
  { destruct body as [|v]; [discriminate|]. cbn [body_imageUrls] in Harr.
    unfold classify. rewrite Harr. destruct urls as [|u urls]; [congruence|].
    change (List.length (u :: urls) =? 0)%nat with false. cbv iota.
    destruct Hunset as [->|[->| ->]]; simpl;
      rewrite ?orb_true_r; reflexivity. }
  rewrite Hkeys. repeat split. now eexists.
Qed.

Lemma classify_requires_credentials_witness :
  status (response (classify keyless_env sample_network sample_body)) = 500 /\
  (exists msg,
      json_body (response (classify keyless_env sample_network sample_body))
      = Error_only msg) /\
  credentials_checked (classify keyless_env sample_network sample_body) = true /\
  posted (classify keyless_env sample_network sample_body) = [].
Proof.
  apply (classify_requires_credentials keyless_env sample_network sample_body
           ["a.jpg"; "b.jpg"]).
  - reflexivity.
  - discriminate.
  - right. left. reflexivity.
Defined.

(** ** Labels that name members of [Object.prototype] *)

Lemma accumulate_inherited (sums : object slot) (p : Prediction) (L : string) m :
  inherited L = true -> L <> "__proto__" -> slot_is_text sums L m ->
  slot_is_text (accumulate sums p) L (m || (tagName p =? L)).
Proof.
  intros Hinh Hproto Hslot. apply String.eqb_neq in Hproto.
  destruct (String.eqb_spec (tagName p) L) as [Heq|Hne].
  - rewrite orb_true_r. unfold accumulate. rewrite Heq.
    assert (Htruthy : ToBoolean (Get sums L) = true).
    { unfold Get. destruct m; simpl in Hslot.
      - destruct Hslot as [t ->]. reflexivity.
      - rewrite Hslot, Hinh. reflexivity. }
    rewrite Htruthy. simpl negb. cbv iota. unfold slot_is_text.
    setoid_rewrite get_own_Put. rewrite Hproto, String.eqb_refl.
    unfold Get. destruct m; simpl in Hslot.
    + destruct Hslot as [t ->]. now eexists.
    + rewrite Hslot, Hinh. now eexists.
  - rewrite orb_false_r. unfold slot_is_text.
    now rewrite accumulate_other.
Qed.

Lemma tally_inherited (perImage : list ImagePrediction) (L : string) :
  inherited L = true -> L <> "__proto__" ->
  slot_is_text (fst (tally perImage)) L (seen L perImage).
Proof.
  intros Hinh Hproto. unfold tally.
  assert (Hgen : forall (acc : object slot * nat) m,
             slot_is_text (fst acc) L m ->
             slot_is_text
               (fst (fold_left
                       (fun '(sums, count) img =>
                          (fold_left accumulate (predictions img) sums, count + 1))
                       perImage acc)) L (m || seen L perImage)).
  { induction perImage as [|img rest IH]; intros [sums count] m Hacc; simpl.
    - now rewrite orb_false_r.
    - rewrite orb_assoc. apply IH. simpl. clear IH.
      unfold mentions. revert sums m Hacc.
      induction (predictions img) as [|p ps IHp]; intros sums m Hacc; simpl.
      + now rewrite orb_false_r.
      + rewrite orb_assoc. apply IHp. now apply accumulate_inherited. }
  apply (Hgen ([], 0) false). reflexivity.
Qed.

(** What the result holds for the labels C1 fails on: [__proto__] is never
    a key, and every other member name of [Object.prototype] that some
    image mentions is mapped to [NaN]. *)
Theorem averageByTag_inherited_labels (perImage : list ImagePrediction) :
  get_own (averageByTag perImage) "__proto__" = None /\
  forall L, inherited L = true -> L <> "__proto__" ->
    (seen L perImage = true -> get_own (averageByTag perImage) L = Some NaN) /\
    (seen L perImage = false -> get_own (averageByTag perImage) L = None).
Proof.
  split.
  - rewrite averageByTag_get_own.
    destruct (tally_well_formed perImage) as [_ Hproto].
    apply get_own_None_keys in Hproto. now rewrite Hproto.
  - intros L Hinh Hproto. rewrite averageByTag_get_own.
    pose proof (tally_inherited perImage L Hinh Hproto) as Hslot.
    split; intros Hseen; rewrite Hseen in Hslot; simpl in Hslot.
    + destruct Hslot as [t ->]. reflexivity.
    + now rewrite Hslot.
Qed.

(** ** Worked examples *)

(** [Object.entries] enumerates array indices first, in ascending order,
    then the other keys in the order of their creation. *)
Example averageByTag_key_order :
  keys (averageByTag numbered_batch) = ["9"; "10"; "b"; "a"; "007"].
Proof. reflexivity. Qed.

(** The end-to-end scenario: stage 1 averages to Model, the branch is
    SuperModel/Common, stage 2 averages Tank to exactly 0.95, which meets
    the threshold. *)
Example end_to_end_scenario :
  let h := classify sample_env scenario_network sample_body in
  status (response h) = 200 /\
  posted h
    = map (request_for default_modelNotModelUrl "key-1") ["a.jpg"; "b.jpg"]
      ++ map (request_for default_superCommonUrl "key-3") ["a.jpg"; "b.jpg"] /\
  match json_body (response h) with
  | Result r =>
      Stage1.isModel (stage1 r) = true /\
      Stage2.branch (stage2 r) = "SuperModelCommonModel" /\
      Stage2.finalLabel (stage2 r) = Some "Tank" /\
      js_ge (Stage2.finalLabelProbability (stage2 r)) (literal (95 # 100)) = true /\
      js_ge (literal (95 # 100)) (Stage2.finalLabelProbability (stage2 r)) = true /\
      Stage2.highConfidence (stage2 r) = true
  | _ => False
  end.
Proof. vm_compute. repeat split. Qed.

(** * More of the code *)

(** ** The order of numbers under [>] *)

Lemma js_gt_irrefl (x : number) : js_gt x x = false.
Proof.
  destruct x; simpl; try reflexivity.
  apply Qc_ltb_ge, Qcle_refl.
Qed.

Lemma js_gt_asym (x y : number) : js_gt x y = true -> js_gt y x = false.
Proof.
  destruct x, y; simpl; try reflexivity; try discriminate.
  intros H. apply Qc_ltb_lt in H. apply Qc_ltb_ge. now apply Qclt_le_weak.
Qed.

Lemma js_gt_trans (x y z : number) :
  js_gt x y = true -> js_gt y z = true -> js_gt x z = true.
Proof.
  destruct x, y, z; simpl; try reflexivity; try discriminate.
  intros H1 H2. apply Qc_ltb_lt in H1, H2. apply Qc_ltb_lt.
  now apply Qclt_trans with q0.
Qed.

(** Whatever does not exceed [y] does not exceed a number above [y]. *)
Lemma js_gt_raise (v x y : number) :
  js_gt v y = false -> js_gt x y = true -> js_gt v x = false.
Proof.
  destruct v, x, y; simpl; try reflexivity; try discriminate.
  intros H1 H2. apply Qc_ltb_ge in H1. apply Qc_ltb_lt in H2.
  apply Qc_ltb_ge. apply Qclt_le_weak. now apply Qcle_lt_trans with q1.
Qed.

(** ** [getMaxLabel] on arbitrary maps *)

(** The loop of lines 71-76 from any state, over any numbers: no entry
    exceeds the final best probability, and the state either did not change
    or holds an entry of the list that exceeds the initial best. *)
Lemma getMaxLabel_loop_any (l : list (string * number)) :
  forall (bestLabel : option string) (bestProb : number),
    exists best,
      fold_left
        (fun '(bestLabel, bestProb) '(label, prob) =>
           if js_gt prob bestProb then (Some label, prob)
           else (bestLabel, bestProb))
        l (bestLabel, bestProb)
      = best /\
      (forall k v, In (k, v) l -> js_gt v (snd best) = false) /\
      (best = (bestLabel, bestProb) \/
       exists label, fst best = Some label /\ In (label, snd best) l /\
                     js_gt (snd best) bestProb = true).
Proof.
  induction l as [|[k v] l IH]; intros bl bp.
  - exists (bl, bp). simpl. split; [reflexivity|]. split; [tauto | now left].
  - simpl fold_left. destruct (js_gt v bp) eqn:Hcmp.
    + destruct (IH (Some k) v) as ([bl' bp'] & Hfold & Hall & Hcase).
      exists (bl', bp'). simpl in *. split; [exact Hfold|]. split.
      * intros k' v' [[= <- <-]|Hin]; [|now apply (Hall k')].
        destruct Hcase as [[= -> ->]|(label & _ & _ & Hgt)];
          [apply js_gt_irrefl | now apply js_gt_asym].
      * right. destruct Hcase as [[= -> ->]|(label & -> & Hin & Hgt)].
        -- exists k. repeat split; [now left | exact Hcmp].
        -- exists label. repeat split; [now right|].
           now apply js_gt_trans with v.
    + destruct (IH bl bp) as ([bl' bp'] & Hfold & Hall & Hcase).
      exists (bl', bp'). simpl in *. split; [exact Hfold|]. split.
      * intros k' v' [[= <- <-]|Hin]; [|now apply (Hall k')].
        destruct Hcase as [[= -> ->]|(label & _ & _ & Hgt)];
          [exact Hcmp | now apply js_gt_raise with bp].
      * destruct Hcase as [Heq|(label & Hl & Hin & Hgt)]; [now left|].
        right. exists label. repeat split; [exact Hl | now right | exact Hgt].
Qed.

(** The two ways [getMaxLabel] ends. *)
Lemma getMaxLabel_cases (probMap : object number) :
  (getMaxLabel probMap
     = {| MaxLabel.label := None; MaxLabel.probability := Fin (Q2Qc (-1)) |} /\
   forall k v, In (k, v) (entries probMap) -> js_gt v (Fin (Q2Qc (-1))) = false) \/
  (exists label prob,
      getMaxLabel probMap
        = {| MaxLabel.label := Some label; MaxLabel.probability := prob |} /\
      In (label, prob) (entries probMap) /\
      prob <> NaN /\
      js_gt prob (Fin (Q2Qc (-1))) = true /\
      forall k v, In (k, v) (entries probMap) -> js_gt v prob = false).
Proof.
  unfold getMaxLabel, entries.
  destruct (getMaxLabel_loop_any probMap None (Fin (Q2Qc (-1))))
    as ([bl bp] & Hfold & Hall & Hcase).
  rewrite Hfold. simpl in Hall, Hcase.
  destruct Hcase as [[= -> ->]|(label & -> & Hin & Hgt)].
  - left. split; [reflexivity | exact Hall].
  - right. exists label, bp. repeat split; try assumption.
    intros ->. discriminate Hgt.
Qed.

(** On any map, whatever its values ([NaN], infinities and numbers below
    -1 included): either no entry exceeds -1 and the result is the
    sentinel, or the result is an entry of the map that exceeds -1 and that
    no entry exceeds.  A [NaN] entry never wins. *)
Theorem getMaxLabel_any_map (probMap : object number) :
  (getMaxLabel probMap
     = {| MaxLabel.label := None; MaxLabel.probability := Fin (Q2Qc (-1)) |} /\
   forall k v, In (k, v) (entries probMap) -> js_gt v (Fin (Q2Qc (-1))) = false) \/
  (exists label prob,
      getMaxLabel probMap
        = {| MaxLabel.label := Some label; MaxLabel.probability := prob |} /\
      In (label, prob) (entries probMap) /\
      prob <> NaN /\
      js_gt prob (Fin (Q2Qc (-1))) = true /\
      forall k v, In (k, v) (entries probMap) -> js_gt v prob = false).
Proof. exact (getMaxLabel_cases probMap). Qed.

(** ** The keys of the averages *)

Lemma tally_keys (perImage : list ImagePrediction) (L : string) :
  In L (keys (fst (tally perImage))) <->
  L <> "__proto__" /\ seen L perImage = true.
Proof.
  rewrite <- get_own_In_keys.
  destruct (String.eqb_spec L "__proto__") as [->|Hproto].
  - destruct (tally_well_formed perImage) as [_ Hnot].
    apply get_own_None_keys in Hnot. rewrite Hnot. split; [congruence|].
    intros [H _]. now elim H.
  - destruct (inherited L) eqn:Hinh.
    + pose proof (tally_inherited perImage L Hinh Hproto) as Hslot.
      destruct (seen L perImage); simpl in Hslot.
      * destruct Hslot as [t ->]. split; [auto | discriminate].
      * rewrite Hslot. split; [congruence | intros [_ H]; discriminate].
    + destruct (tally_slot_is perImage L Hinh) as [Hget _]. rewrite Hget.
      destruct (seen L perImage); split; try congruence; auto.
      intros [_ H]. discriminate.
Qed.

Lemma averages_well_formed (f : slot -> number) (l : list (string * slot)) :
  forall acc : object number,
    well_formed acc ->
    well_formed
      (fold_left (fun averages '(tag, sum) => Put averages tag (f sum)) l acc).
Proof.
  induction l as [|[t s] l IH]; intros acc Hwf; simpl; [exact Hwf|].
  apply IH. now apply well_formed_Put.
Qed.

Lemma averageByTag_well_formed (perImage : list ImagePrediction) :
  well_formed (averageByTag perImage).
Proof.
  unfold averageByTag. destruct (tally perImage) as [sums count].
  apply averages_well_formed. apply well_formed_empty.
Qed.

(** The result is a proper dictionary: no key occurs twice, and its keys
    are exactly the labels that some image mentions, [__proto__] apart.
    This holds for every label, the other member names of
    [Object.prototype] included. *)
Theorem averageByTag_keys (perImage : list ImagePrediction) :
  NoDup (keys (averageByTag perImage)) /\
  forall L, In L (keys (averageByTag perImage)) <->
            L <> "__proto__" /\ seen L perImage = true.
Proof.
  split; [apply averageByTag_well_formed|].
  intros L. rewrite <- tally_keys, <- !get_own_In_keys, averageByTag_get_own.
  destruct (get_own (fst (tally perImage)) L); simpl; split; congruence.
Qed.

(** ** The order of the keys *)

Lemma existsb_eqb_In (k : string) (ks : list string) :
  existsb (String.eqb k) ks = true <-> In k ks.
Proof.
  rewrite existsb_exists. split.
  - intros (x & Hx & Heq). apply String.eqb_eq in Heq. now subst.
  - intros H. exists k. split; [exact H | apply String.eqb_refl].
Qed.

Lemma keys_Put_plain {A : Type} (o : object A) (k : string) (v : A) :
  array_index k = None -> keys (Put o k v) = add_key (keys o) k.
Proof.
  intros Hidx. unfold Put, add_key.
  destruct (k =? "__proto__"); [reflexivity|].
  unfold define_own. destruct (get_own o k) as [x|] eqn:Hget.
  - assert (Hin : In k (keys o)) by (apply get_own_In_keys; congruence).
    apply existsb_eqb_In in Hin. rewrite Hin. apply keys_replace_own.
  - apply get_own_None_keys in Hget.
    destruct (existsb (String.eqb k) (keys o)) eqn:Hex.
    + apply existsb_eqb_In in Hex. contradiction.
    + rewrite Hidx. unfold keys. now rewrite map_app.
Qed.

Lemma add_key_idempotent (ks : list string) (t : string) :
  add_key (add_key ks t) t = add_key ks t.
Proof.
  unfold add_key. destruct (t =? "__proto__"); [reflexivity|].
  destruct (existsb (String.eqb t) ks) eqn:Hex.
  - now rewrite Hex.
  - assert (Hin : existsb (String.eqb t) (ks ++ [t]) = true).
    { apply existsb_eqb_In, in_or_app. right. now left. }
    now rewrite Hin.
Qed.

Lemma keys_accumulate (sums : object slot) (p : Prediction) :
  array_index (tagName p) = None ->
  keys (accumulate sums p) = add_key (keys sums) (tagName p).
Proof.
  intros Hidx. unfold accumulate. rewrite keys_Put_plain by exact Hidx.
  destruct (negb (ToBoolean (Get sums (tagName p)))); [|reflexivity].
  rewrite keys_Put_plain by exact Hidx. apply add_key_idempotent.
Qed.

Lemma keys_fold_accumulate (ps : list Prediction) :
  forall sums : object slot,
    (forall p, In p ps -> array_index (tagName p) = None) ->
    keys (fold_left accumulate ps sums)
    = fold_left add_key (map tagName ps) (keys sums).
Proof.
  induction ps as [|p ps IH]; intros sums Hidx; simpl; [reflexivity|].
  rewrite IH by (intros q Hq; apply Hidx; now right).
  now rewrite keys_accumulate by (apply Hidx; now left).
Qed.

Lemma keys_tally (perImage : list ImagePrediction) :
  no_index_labels perImage ->
  keys (fst (tally perImage)) = first_seen (all_labels perImage).
Proof.
  intros Hidx. unfold tally, first_seen, all_labels.
  assert (Hgen : forall (sums : object slot) (count : nat),
             keys (fst (fold_left
                          (fun '(sums, count) img =>
                             (fold_left accumulate (predictions img) sums,
                              count + 1))
                          perImage (sums, count)))
             = fold_left add_key
                         (map tagName (flat_map predictions perImage))
                         (keys sums)).
  { induction perImage as [|img rest IH]; intros sums count; simpl;
      [reflexivity|].
    rewrite IH by (intros i q Hi Hq; apply (Hidx i q); [now right | exact Hq]).
    rewrite map_app, fold_left_app. f_equal.
    apply keys_fold_accumulate.
    intros q Hq. apply (Hidx img q); [now left | exact Hq]. }
  apply (Hgen [] 0).
Qed.

Lemma keys_averages (f : slot -> number) (l : list (string * slot)) :
  forall acc : object number,
    NoDup (keys acc ++ map fst l) ->
    (forall k, In k (map fst l) -> array_index k = None /\ k <> "__proto__") ->
    keys (fold_left (fun averages '(tag, sum) => Put averages tag (f sum)) l acc)
    = keys acc ++ map fst l.
Proof.
  induction l as [|[t s] l IH]; intros acc Hnd Hplain; simpl.
  - now rewrite app_nil_r.
  - destruct (Hplain t (or_introl eq_refl)) as [Hidx Hproto].
    assert (Hnew : keys (Put acc t (f s)) = keys acc ++ [t]).
    { rewrite keys_Put_plain by exact Hidx. unfold add_key.
      apply String.eqb_neq in Hproto. rewrite Hproto.
      destruct (existsb (String.eqb t) (keys acc)) eqn:Hex; [|reflexivity].
      apply existsb_eqb_In in Hex. simpl in Hnd.
      apply NoDup_remove_2 in Hnd. elim Hnd. apply in_or_app. now left. }
    rewrite IH.
    + rewrite Hnew, <- app_assoc. reflexivity.
    + rewrite Hnew, <- app_assoc. exact Hnd.
    + intros k Hk. apply Hplain. now right.
Qed.

Lemma seen_exists (L : string) (perImage : list ImagePrediction) :
  seen L perImage = true <->
  exists img p, In img perImage /\ In p (predictions img) /\ tagName p = L.
Proof.
  unfold seen, mentions. rewrite existsb_exists. split.
  - intros (img & Himg & Hex). apply existsb_exists in Hex as (p & Hp & Heq).
    apply String.eqb_eq in Heq. now exists img, p.
  - intros (img & p & Himg & Hp & Heq). exists img. split; [exact Himg|].
    apply existsb_exists. exists p. split; [exact Hp|].
    now apply String.eqb_eq.
Qed.

Lemma keys_averageByTag (perImage : list ImagePrediction) :
  no_index_labels perImage ->
  keys (averageByTag perImage) = first_seen (all_labels perImage).
Proof.
  intros Hidx. rewrite <- keys_tally by exact Hidx.
  pose proof (tally_well_formed perImage) as [Hnd Hproto].
  assert (Hplain : forall k, In k (keys (fst (tally perImage))) ->
                             array_index k = None /\ k <> "__proto__").
  { intros k Hk. apply tally_keys in Hk as [Hne Hseen]. split; [|exact Hne].
    apply seen_exists in Hseen as (img & p & Himg & Hp & <-).
    now apply (Hidx img p). }
  unfold averageByTag. destruct (tally perImage) as [sums count].
  simpl in *. unfold entries.
  now rewrite keys_averages.
Qed.

(** When no label is an array index, [Object.entries] of the result lists
    the labels in the order in which the loops first met them. *)
Theorem averageByTag_key_order_first_seen (perImage : list ImagePrediction) :
  no_index_labels perImage ->
  keys (averageByTag perImage) = first_seen (all_labels perImage).
Proof. exact (keys_averageByTag perImage). Qed.

Lemma averageByTag_key_order_first_seen_witness :
  keys (averageByTag stage1_batch) = first_seen (all_labels stage1_batch).
Proof.
  apply (averageByTag_key_order_first_seen stage1_batch).
  intros img p [<-|[<-|[]]] [<-|[<-|[]]]; reflexivity.
Defined.

(** The labels are recorded once each, in order of first appearance. *)
Example first_seen_sample :
  first_seen ["b"; "a"; "__proto__"; "b"; "c"; "a"] = ["b"; "a"; "c"].
Proof. reflexivity. Qed.

(** ** A batch of one image *)

Lemma binary64_double (d : double) : binary64 d = Fin d.
Proof. apply number_eqb_eq. exact (value_is_binary64 d). Qed.

Lemma add_mentions_unique (ps : list Prediction) (p : Prediction) (acc : number) :
  NoDup (map tagName ps) -> In p ps ->
  add_mentions (tagName p) acc ps = js_add acc (Fin (probability p)).
Proof.
  revert acc. induction ps as [|q ps IH]; intros acc Hnd Hin; [contradiction|].
  simpl in Hnd. inversion Hnd as [|? ? Hnotin Hnd']; subst.
  unfold add_mentions. cbn [fold_left].
  destruct Hin as [->|Hin].
  - rewrite String.eqb_refl. now apply add_mentions_absent.
  - destruct (String.eqb_spec (tagName q) (tagName p)) as [Heq|Hne].
    + elim Hnotin. rewrite Heq. now apply in_map.
    + now apply IH.
Qed.

Lemma Qc_of_nat_1 : Qc_of_nat 1 = 1%Qc.
Proof. apply Qc_is_canon. reflexivity. Qed.

Lemma mentions_In (ps : list Prediction) (p : Prediction) :
  In p ps -> mentions (tagName p) ps = true.
Proof.
  intros Hin. unfold mentions. apply existsb_exists. exists p.
  split; [exact Hin | apply String.eqb_refl].
Qed.

(** Averaging a single image that lists each label once gives back the
    image's own probabilities, for every label that does not name a member
    of [Object.prototype]: adding to 0 and dividing by 1 round nothing. *)
Theorem averageByTag_single_image (u : string) (ps : list Prediction)
  (p : Prediction) :
  NoDup (map tagName ps) -> In p ps -> inherited (tagName p) = false ->
  get_own (averageByTag [ {| imageUrl := u; predictions := ps |} ]) (tagName p)
  = Some (Fin (probability p)).
Proof.
  intros Hnd Hin Hinh. rewrite averageByTag_mean by exact Hinh.
  unfold seen. cbn [existsb predictions]. rewrite (mentions_In ps p Hin).
  cbn [orb]. f_equal. unfold rounded_mean, rounded_sum.
  cbn [fold_left predictions List.length].
  rewrite (add_mentions_unique ps p _ Hnd Hin). cbn [js_add].
  rewrite Qcplus_0_l, binary64_double. cbn [js_div].
  rewrite Qc_of_nat_1.
  replace (probability p / 1)%Qc with (value (probability p))
    by (field; discriminate).
  apply binary64_double.
Qed.

Lemma averageByTag_single_image_witness :
  get_own
    (averageByTag
       [ {| imageUrl := "a.jpg";
            predictions := [ prediction "Model" (9 # 10);
                             prediction "NOT Model" (1 # 10) ] |} ])
    (tagName (prediction "NOT Model" (1 # 10)))
  = Some (Fin (probability (prediction "NOT Model" (1 # 10)))).
Proof.
  apply (averageByTag_single_image "a.jpg"
           [ prediction "Model" (9 # 10); prediction "NOT Model" (1 # 10) ]
           (prediction "NOT Model" (1 # 10))).
  - repeat constructor; cbn [map tagName prediction In];
      intuition discriminate.
  - right. left. reflexivity.
  - reflexivity.
Defined.

(** ** The branch in terms of the stage-1 predictions *)

Lemma lookup_or_zero_mean (perImage : list ImagePrediction) (L : string) :
  inherited L = false ->
  lookup_or_zero (averageByTag perImage) L = rounded_mean_or_zero L perImage.
Proof.
  intros Hinh. unfold lookup_or_zero, rounded_mean_or_zero.
  rewrite averageByTag_mean by exact Hinh.
  now destruct (seen L perImage).
Qed.

(** The branch compares the mean of [Model] over all stage-1 images with
    that of [NOT Model], each as binary64 computes it, a label that no
    image mentions counting as 0; in particular a classifier that returns
    neither label sends every request to the SuperModel/Common branch. *)
Theorem isModel_compares_means (env : Env)
  (stage1PerImage : list ImagePrediction) :
  isModel (averageByTag stage1PerImage)
    = js_ge (rounded_mean_or_zero "Model" stage1PerImage)
            (rounded_mean_or_zero "NOT Model" stage1PerImage) /\
  stage2Url env (averageByTag stage1PerImage)
    = (if js_ge (rounded_mean_or_zero "Model" stage1PerImage)
                (rounded_mean_or_zero "NOT Model" stage1PerImage)
       then superCommonUrl env else civilianHybridUrl env) /\
  (seen "Model" stage1PerImage = false ->
   seen "NOT Model" stage1PerImage = false ->
   isModel (averageByTag stage1PerImage) = true /\
   branch (averageByTag stage1PerImage) = "SuperModelCommonModel").
Proof.
  assert (Hdef : isModel (averageByTag stage1PerImage)
                 = js_ge (rounded_mean_or_zero "Model" stage1PerImage)
                         (rounded_mean_or_zero "NOT Model" stage1PerImage)).
  { unfold isModel. rewrite modelProb_lookup, notModelProb_lookup.
    now rewrite !lookup_or_zero_mean by reflexivity. }
  split; [exact Hdef|]. split.
  - unfold stage2Url, useSuperCommon. now rewrite Hdef.
  - intros Hm Hn. unfold branch, useSuperCommon. rewrite Hdef.
    unfold rounded_mean_or_zero. rewrite Hm, Hn. split; reflexivity.
Qed.

(** Rounding decides the branch: over these three images [Model] and
    [NOT Model] have the same mean as real numbers, but the sums are
    rounded in a different order, [Model] averages to 0.19999999999999998
    and [NOT Model] to 0.20000000000000004, and the branch is
    Civilian/Hybrid. *)
Example rounding_decides_the_branch :
  mean_over_images "Model" reversed_batch
    = mean_over_images "NOT Model" reversed_batch /\
  get_own (averageByTag reversed_batch) "Model"
    = Some (literal (19999999999999998 # 100000000000000000)) /\
  get_own (averageByTag reversed_batch) "NOT Model"
    = Some (literal (20000000000000004 # 100000000000000000)) /\
  isModel (averageByTag reversed_batch) = false /\
  branch (averageByTag reversed_batch) = "CivilianHybrid".
Proof.
  split; [apply Qc_is_canon; vm_compute; reflexivity|].
  split; [apply Some_number_eq; vm_compute; reflexivity|].
  split; [apply Some_number_eq; vm_compute; reflexivity|].
  split; vm_compute; reflexivity.
Qed.

(** ** The final label in terms of the stage-2 predictions *)

Lemma binary64_nonnegative (q : Qc) : (0 <= q)%Qc -> nonnegative (binary64 q).
Proof. intros H. exact (binary64_monotone 0%Qc q H). Qed.

Lemma js_add_nonnegative (x : number) (p : Qc) :
  nonnegative x -> (0 <= p)%Qc -> nonnegative (js_add x (Fin p)).
Proof.
  unfold nonnegative. destruct x as [s| | |]; cbn [js_add js_ge]; try discriminate;
    [|reflexivity].
  intros Hs Hp. apply binary64_nonnegative.
  apply Qc_leb_le in Hs.
  replace 0%Qc with (0 + 0)%Qc by ring. now apply Qcplus_le_compat.
Qed.

Lemma js_div_nonnegative (x : number) (n : nat) :
  nonnegative x -> n <> 0 -> nonnegative (js_div x n).
Proof.
  unfold nonnegative. destruct x as [s| | |]; cbn [js_div js_ge]; try discriminate;
    [|reflexivity].
  intros Hs Hn. destruct n as [|n]; [congruence|].
  apply binary64_nonnegative. apply Qc_leb_le in Hs.
  unfold Qcdiv. replace 0%Qc with (0 * / Qc_of_nat (S n))%Qc by ring.
  apply Qcmult_le_compat_r; [exact Hs|].
  apply Qcinv_nonneg, Qc_of_nat_nonneg.
Qed.

Lemma nonnegative_above_sentinel (x : number) :
  nonnegative x -> js_gt x (Fin (Q2Qc (-1))) = true.
Proof.
  unfold nonnegative. destruct x as [s| | |]; cbn [js_ge js_gt]; try discriminate;
    [|reflexivity].
  intros Hs. apply Qc_leb_le in Hs. apply Qc_ltb_lt.
  now apply minus_one_below_probabilities.
Qed.

Lemma add_mentions_nonnegative (L : string) (ps : list Prediction) (acc : number) :
  (forall p, In p ps -> (0 <= probability p)%Qc) ->
  nonnegative acc -> nonnegative (add_mentions L acc ps).
Proof.
  revert acc. induction ps as [|p ps IH]; intros acc Hpos Hacc; [exact Hacc|].
  unfold add_mentions. cbn [fold_left]. apply IH.
  - intros q Hq. apply Hpos. now right.
  - destruct (tagName p =? L); [|exact Hacc].
    apply js_add_nonnegative; [exact Hacc | apply Hpos; now left].
Qed.

Lemma rounded_sum_nonnegative (L : string) (perImage : list ImagePrediction) :
  probabilities_nonnegative perImage -> nonnegative (rounded_sum L perImage).
Proof.
  unfold rounded_sum.
  assert (Hgen : forall acc, probabilities_nonnegative perImage ->
             nonnegative acc ->
             nonnegative
               (fold_left (fun acc img => add_mentions L acc (predictions img))
                          perImage acc)).
  { induction perImage as [|img rest IH]; intros acc Hpos Hacc; [exact Hacc|].
    cbn [fold_left]. apply IH.
    - intros i p Hi Hp. apply (Hpos i p); [now right | exact Hp].
    - apply add_mentions_nonnegative; [|exact Hacc].
      intros p Hp. apply (Hpos img p); [now left | exact Hp]. }
  intros Hpos. apply Hgen; [exact Hpos|]. apply Qc_leb_le, Qcle_refl.
Qed.

Lemma rounded_mean_nonnegative (L : string) (perImage : list ImagePrediction) :
  probabilities_nonnegative perImage -> perImage <> [] ->
  nonnegative (rounded_mean L perImage).
Proof.
  intros Hpos Hne. unfold rounded_mean. apply js_div_nonnegative.
  - now apply rounded_sum_nonnegative.
  - destruct perImage; [congruence | discriminate].
Qed.

Lemma averageByTag_inherited_NaN (perImage : list ImagePrediction) (L : string) :
  inherited L = true -> L <> "__proto__" -> seen L perImage = true ->
  get_own (averageByTag perImage) L = Some NaN.
Proof.
  intros Hinh Hproto Hseen. rewrite averageByTag_get_own.
  pose proof (tally_inherited perImage L Hinh Hproto) as Hslot.
  rewrite Hseen in Hslot. destruct Hslot as [t ->]. reflexivity.
Qed.

(** What [getMaxLabel] makes of [averageByTag], for probabilities that are
    not negative: when some image mentions a label that does not name a
    member of [Object.prototype], the result is such a label, mentioned by
    some image, together with its mean as binary64 computes it, and no
    such label has a greater computed mean; a label that names a member of
    [Object.prototype] never wins, and when the images mention no other
    label the result is the sentinel. *)
Theorem best_label_of_averages (perImage : list ImagePrediction) :
  probabilities_nonnegative perImage ->
  ((forall L, seen L perImage = true -> inherited L = true) ->
   getMaxLabel (averageByTag perImage)
   = {| MaxLabel.label := None; MaxLabel.probability := Fin (Q2Qc (-1)) |}) /\
  (forall L0, seen L0 perImage = true -> inherited L0 = false ->
   exists label,
     getMaxLabel (averageByTag perImage)
     = {| MaxLabel.label := Some label;
          MaxLabel.probability := rounded_mean label perImage |} /\
     seen label perImage = true /\
     inherited label = false /\
     forall L, seen L perImage = true -> inherited L = false ->
       js_gt (rounded_mean L perImage) (rounded_mean label perImage) = false).
Proof.
  intros Hpos.
  pose proof (averageByTag_well_formed perImage) as [Hnd _].
  assert (Hkeys : forall k v, In (k, v) (entries (averageByTag perImage)) ->
                    k <> "__proto__" /\ seen k perImage = true /\
                    get_own (averageByTag perImage) k = Some v).
  { intros k v Hin. pose proof (In_get_own _ _ _ Hnd Hin) as Hget.
    assert (Hk : In k (keys (averageByTag perImage))).
    { apply get_own_In_keys. congruence. }
    rewrite <- get_own_In_keys, averageByTag_get_own in Hk.
    assert (Hk' : In k (keys (fst (tally perImage)))).
    { apply get_own_In_keys.
      destruct (get_own (fst (tally perImage)) k); [discriminate | now elim Hk]. }
    apply tally_keys in Hk' as [Hne Hseen]. auto. }
  split.
  - intros Hall.
    destruct (getMaxLabel_cases (averageByTag perImage))
      as [[Hres _]|(label & prob & _ & Hin & Hnan & _)]; [exact Hres|].
    exfalso. destruct (Hkeys _ _ Hin) as (Hne & Hseen & Hget).
    rewrite (averageByTag_inherited_NaN perImage label (Hall _ Hseen) Hne Hseen)
      in Hget. congruence.
  - intros L0 Hseen0 Hinh0.
    assert (Hordinary : forall L, seen L perImage = true -> inherited L = false ->
              In (L, rounded_mean L perImage) (entries (averageByTag perImage))).
    { intros L Hseen Hinh. apply get_own_In.
      now rewrite averageByTag_mean, Hseen by exact Hinh. }
    destruct (getMaxLabel_cases (averageByTag perImage))
      as [[_ Hlow]|(label & prob & Hres & Hin & Hnan & _ & Hmax)].
    + exfalso. specialize (Hlow _ _ (Hordinary L0 Hseen0 Hinh0)).
      rewrite nonnegative_above_sentinel in Hlow; [discriminate|].
      apply rounded_mean_nonnegative; [exact Hpos|].
      now apply (seen_nonempty L0).
    + destruct (Hkeys _ _ Hin) as (Hne & Hseen & Hget).
      destruct (inherited label) eqn:Hinh.
      * rewrite (averageByTag_inherited_NaN perImage label Hinh Hne Hseen) in Hget.
        congruence.
      * rewrite averageByTag_mean, Hseen in Hget by exact Hinh.
        injection Hget as <-. exists label. split; [exact Hres|].
        split; [exact Hseen|]. split; [exact Hinh|].
        intros L HseenL HinhL.
        exact (Hmax _ _ (Hordinary L HseenL HinhL)).
Qed.

Lemma best_label_of_averages_witness :
  ((forall L, seen L stage1_batch = true -> inherited L = true) ->
   getMaxLabel (averageByTag stage1_batch)
   = {| MaxLabel.label := None; MaxLabel.probability := Fin (Q2Qc (-1)) |}) /\
  (forall L0, seen L0 stage1_batch = true -> inherited L0 = false ->
   exists label,
     getMaxLabel (averageByTag stage1_batch)
     = {| MaxLabel.label := Some label;
          MaxLabel.probability := rounded_mean label stage1_batch |} /\
     seen label stage1_batch = true /\
     inherited label = false /\
     forall L, seen L stage1_batch = true -> inherited L = false ->
       js_gt (rounded_mean L stage1_batch) (rounded_mean label stage1_batch)
       = false).
Proof.
  apply (best_label_of_averages stage1_batch).
  intros img p [<-|[<-|[]]] [<-|[<-|[]]]; now vm_compute.
Defined.

(** A batch that mentions [constructor] and [Tank]: [Tank] wins, whatever
    the numbers. *)
Example best_label_skips_constructor :
  MaxLabel.label
    (getMaxLabel
       (averageByTag
          [ image "a.jpg" [ prediction "constructor" (99 # 100);
                            prediction "Tank" (1 # 100) ] ]))
  = Some "Tank".
Proof. vm_compute. reflexivity. Qed.

(** ** Ties *)

Lemma js_gt_not_ge (x y : number) : js_gt x y = true -> js_ge y x = false.
Proof.
  destruct x, y; simpl; try reflexivity; try discriminate.
  intros H. apply Qc_ltb_lt in H. unfold Qc_leb.
  destruct (Qle_bool q q0) eqn:Hle; [|reflexivity].
  apply Qle_bool_iff in Hle. now apply Qclt_not_le in H.
Qed.

Lemma js_ge_raise (v x y : number) :
  js_gt v y = false -> js_gt x y = true -> js_ge v x = false.
Proof.
  destruct v, x, y; simpl; try reflexivity; try discriminate.
  intros H1 H2. apply Qc_ltb_ge in H1. apply Qc_ltb_lt in H2. unfold Qc_leb.
  destruct (Qle_bool q0 q) eqn:Hle; [|reflexivity].
  apply Qle_bool_iff in Hle.
  elim (Qclt_not_le _ _ H2). now apply Qcle_trans with q.
Qed.

Lemma js_gt_of_not_ge (x y : number) :
  x <> NaN -> y <> NaN -> js_ge x y = false -> js_gt y x = true.
Proof.
  destruct x as [a| | |], y as [b| | |]; cbn [js_ge js_gt]; intros Hx Hy H;
    try reflexivity; try discriminate; try (now elim Hx); try (now elim Hy).
  unfold Qc_leb in H. unfold Qc_ltb. now rewrite H.
Qed.

Lemma rounded_mean_not_NaN (L : string) (perImage : list ImagePrediction) :
  perImage <> [] -> rounded_mean L perImage <> NaN.
Proof.
  intros Hne. unfold rounded_mean.
  assert (Hsum : forall acc, acc <> NaN ->
             fold_left (fun acc img => add_mentions L acc (predictions img))
                       perImage acc <> NaN).
  { clear Hne. induction perImage as [|img rest IH]; intros acc Hacc; [exact Hacc|].
    cbn [fold_left]. apply IH. revert acc Hacc.
    induction (predictions img) as [|p ps IHp]; intros acc Hacc; [exact Hacc|].
    unfold add_mentions. cbn [fold_left]. apply IHp.
    destruct (tagName p =? L); [now apply js_add_not_NaN | exact Hacc]. }
  specialize (Hsum (Fin 0)). unfold rounded_sum.
  destruct (fold_left _ perImage (Fin 0)) as [s| | |];
    [|elim Hsum; [discriminate | reflexivity] | |];
    destruct perImage; try congruence; cbn [js_div List.length];
    [apply binary64_not_NaN | discriminate | discriminate].
Qed.

(** The loop of lines 71-76 from any state: when the label changed, it is
    the label of an entry before which every entry is below the final best
    probability (or is [NaN]). *)
Lemma getMaxLabel_loop_first (l : list (string * number)) :
  forall (bestLabel : option string) (bestProb : number),
    exists best,
      fold_left
        (fun '(bestLabel, bestProb) '(label, prob) =>
           if js_gt prob bestProb then (Some label, prob)
           else (bestLabel, bestProb))
        l (bestLabel, bestProb)
      = best /\
      (best = (bestLabel, bestProb) \/
       exists label pre post,
         l = pre ++ (label, snd best) :: post /\
         fst best = Some label /\
         js_gt (snd best) bestProb = true /\
         forall k v, In (k, v) pre -> js_ge v (snd best) = false).
Proof.
  induction l as [|[k v] l IH]; intros bl bp.
  - exists (bl, bp). split; [reflexivity | now left].
  - simpl fold_left. destruct (js_gt v bp) eqn:Hcmp.
    + destruct (IH (Some k) v) as ([bl' bp'] & Hfold & Hcase).
      exists (bl', bp'). simpl in *. split; [exact Hfold|]. right.
      destruct Hcase as [[= -> ->]|(label & pre & post & -> & Hl & Hgt & Hpre)].
      * exists k, [], l. simpl. tauto.
      * exists label, ((k, v) :: pre), post. simpl.
        split; [reflexivity|]. split; [exact Hl|].
        split; [now apply js_gt_trans with v|].
        intros k' v' [[= <- <-]|Hin]; [now apply js_gt_not_ge|].
        now apply (Hpre k').
    + destruct (IH bl bp) as ([bl' bp'] & Hfold & Hcase).
      exists (bl', bp'). simpl in *. split; [exact Hfold|].
      destruct Hcase as [Heq|(label & pre & post & -> & Hl & Hgt & Hpre)];
        [now left|].
      right. exists label, ((k, v) :: pre), post. simpl.
      split; [reflexivity|]. split; [exact Hl|]. split; [exact Hgt|].
      intros k' v' [[= <- <-]|Hin]; [now apply js_ge_raise with bp|].
      now apply (Hpre k').
Qed.

(** The tie-break in terms of the predictions: when no label is an array
    index, the label [getMaxLabel] picks from [averageByTag] is met in the
    predictions before which every label that does not name a member of
    [Object.prototype] has a strictly smaller computed mean; so of several
    labels with the greatest computed mean, the one the loops met first
    wins. *)
Theorem best_label_is_first_among_equals (perImage : list ImagePrediction)
  (label : string) :
  no_index_labels perImage ->
  MaxLabel.label (getMaxLabel (averageByTag perImage)) = Some label ->
  exists pre post,
    first_seen (all_labels perImage) = pre ++ label :: post /\
    forall k, In k pre -> inherited k = false ->
      js_gt (rounded_mean label perImage) (rounded_mean k perImage) = true.
Proof.
  intros Hidx Hlabel.
  pose proof (averageByTag_well_formed perImage) as [Hnd _].
  rewrite <- (keys_averageByTag perImage Hidx).
  unfold getMaxLabel, entries in Hlabel.
  destruct (getMaxLabel_loop_first (averageByTag perImage) None (Fin (Q2Qc (-1))))
    as ([bl bp] & Hfold & Hcase).
  rewrite Hfold in Hlabel. simpl in Hlabel, Hcase. subst bl.
  destruct Hcase as [Heq|(l & pre & post & Hsplit & [= <-] & Hgt & Hpre)];
    [discriminate|].
  exists (map fst pre), (map fst post). split.
  { unfold keys. rewrite Hsplit, map_app. reflexivity. }
  intros k Hk Hinh. apply in_map_iff in Hk as ([k' v] & Heq & Hin).
  simpl in Heq. subst k'.
  assert (Hentry : forall k0 v0, In (k0, v0) (averageByTag perImage) ->
                     get_own (averageByTag perImage) k0 = Some v0).
  { intros k0 v0 H0. now apply In_get_own. }
  assert (Hk : get_own (averageByTag perImage) k = Some v).
  { apply Hentry. rewrite Hsplit. apply in_or_app. now left. }
  assert (Hl : get_own (averageByTag perImage) label = Some bp).
  { apply Hentry. rewrite Hsplit. apply in_elt. }
  specialize (Hpre k v Hin).
  rewrite averageByTag_mean in Hk by exact Hinh.
  destruct (seen k perImage) eqn:Hseenk; [|discriminate]. injection Hk as <-.
  pose proof (seen_nonempty k perImage Hseenk) as Hne.
  destruct (inherited label) eqn:Hinhl.
  - assert (Hin_keys : In label (keys (fst (tally perImage)))).
    { apply get_own_In_keys. rewrite averageByTag_get_own in Hl.
      destruct (get_own (fst (tally perImage)) label); [discriminate|].
      discriminate. }
    apply tally_keys in Hin_keys as [Hne' Hseen].
    rewrite (averageByTag_inherited_NaN perImage label Hinhl Hne' Hseen) in Hl.
    injection Hl as <-. discriminate Hgt.
  - rewrite averageByTag_mean in Hl by exact Hinhl.
    destruct (seen label perImage); [|discriminate]. injection Hl as <-.
    apply js_gt_of_not_ge; [| |exact Hpre]; now apply rounded_mean_not_NaN.
Qed.

Lemma best_label_is_first_among_equals_witness :
  exists pre post,
    first_seen (all_labels tied_prediction_batch) = pre ++ "Jeep" :: post /\
    forall k, In k pre -> inherited k = false ->
      js_gt (rounded_mean "Jeep" tied_prediction_batch)
            (rounded_mean k tied_prediction_batch) = true.
Proof.
  apply (best_label_is_first_among_equals tied_prediction_batch "Jeep").
  - intros img p [<-|[]] [<-|[<-|[<-|[]]]]; reflexivity.
  - vm_compute. reflexivity.
Defined.

(** Rounding decides the winner too: [A] and [B] have the same mean as
    real numbers and [A] is met first, but [B] averages to
    0.20000000000000004, above the 0.19999999999999998 of [A], and
    wins. *)
Example rounding_decides_the_label :
  mean_over_images "A" swapped_batch = mean_over_images "B" swapped_batch /\
  first_seen (all_labels swapped_batch) = ["A"; "B"] /\
  MaxLabel.label (getMaxLabel (averageByTag swapped_batch)) = Some "B".
Proof.
  split; [apply Qc_is_canon; vm_compute; reflexivity|].
  split; vm_compute; reflexivity.
Qed.

(** ** Overflow *)

Lemma zero_bounded : (- max_double <= 0)%Qc /\ (0 <= max_double)%Qc.
Proof. exact (binary64_bounded 0%Qc 0%Qc eq_refl). Qed.

(** Whatever [+=] stores is, when finite, a binary64 number. *)
Lemma plus_assign_bounded (v : lookup slot) (p : Qc) :
  slot_bounded (plus_assign v p).
Proof.
  unfold slot_bounded. intros a H.
  destruct v as [|[x|t]|name]; cbn [plus_assign ToNumber] in H;
    try discriminate H.
  destruct x as [b| | |]; cbn [js_add] in H; try discriminate H.
  exact (binary64_bounded _ _ H).
Qed.

Lemma accumulate_bounded (sums : object slot) (p : Prediction) :
  (forall k s, get_own sums k = Some s -> slot_bounded s) ->
  forall k s, get_own (accumulate sums p) k = Some s -> slot_bounded s.
Proof.
  intros Hall k s. unfold accumulate. rewrite get_own_Put.
  destruct (tagName p =? "__proto__").
  - destruct (negb _); [|apply Hall].
    rewrite get_own_Put.
    destruct (tagName p =? "__proto__"); [apply Hall|].
    destruct (tagName p =? k); [|apply Hall].
    intros [= <-] a [= <-]. exact zero_bounded.
  - destruct (tagName p =? k).
    + intros [= <-]. apply plus_assign_bounded.
    + destruct (negb _); [|apply Hall].
      rewrite get_own_Put.
      destruct (tagName p =? "__proto__"); [apply Hall|].
      destruct (tagName p =? k); [|apply Hall].
      intros [= <-] a [= <-]. exact zero_bounded.
Qed.

Lemma tally_bounded (perImage : list ImagePrediction) :
  forall k s, get_own (fst (tally perImage)) k = Some s -> slot_bounded s.
Proof.
  unfold tally.
  assert (Hgen : forall (acc : object slot * nat),
             (forall k s, get_own (fst acc) k = Some s -> slot_bounded s) ->
             forall k s,
               get_own
                 (fst (fold_left
                         (fun '(sums, count) img =>
                            (fold_left accumulate (predictions img) sums, count + 1))
                         perImage acc)) k = Some s ->
               slot_bounded s).
  { induction perImage as [|img rest IH]; intros [sums count] Hacc;
      cbn [fold_left]; [exact Hacc|].
    apply IH. cbn [fst]. clear IH. revert sums Hacc.
    induction (predictions img) as [|p ps IHp]; intros sums Hacc; cbn [fold_left];
      [exact Hacc|].
    apply IHp. now apply accumulate_bounded. }
  apply Hgen. intros k s H. discriminate H.
Qed.

Lemma Qdiv_bounded (a M d : Q) :
  (- M <= a)%Q -> (a <= M)%Q -> (1 <= d)%Q ->
  (- M <= a / d)%Q /\ (a / d <= M)%Q.
Proof.
  intros Hlo Hhi Hd.
  assert (Hd0 : (0 < d)%Q) by lra.
  assert (HM : (0 <= M * (d - 1))%Q) by (apply Qmult_le_0_compat; lra).
  split.
  - apply Qle_shift_div_l; [exact Hd0|]. lra.
  - apply Qle_shift_div_r; [exact Hd0|]. lra.
Qed.

(** Dividing a finite binary64 number by a positive count gives a finite
    number. *)
Lemma binary64_quotient_finite (a : Qc) (n : nat) :
  (- max_double <= a)%Qc -> (a <= max_double)%Qc ->
  exists q, binary64 (a / Qc_of_nat (S n)) = Fin q.
Proof.
  intros Hlo Hhi. unfold Qcle in Hlo, Hhi. rewrite this_Qcopp in Hlo.
  assert (Hd : (1 <= Qc_of_nat (S n))%Q).
  { unfold Qc_of_nat. rewrite this_Q2Qc. change 1%Q with (inject_Z 1).
    rewrite <- Zle_Qle. lia. }
  destruct (Qdiv_bounded a max_double (Qc_of_nat (S n)) Hlo Hhi Hd) as [H1 H2].
  apply binary64_finite; unfold Qcle; rewrite this_Qcdiv;
    [now rewrite this_Qcopp | exact H2].
Qed.

(** The division never turns a finite sum into an infinity or into [NaN]:
    for a label that does not name a member of [Object.prototype] and that
    some image mentions, the average is finite exactly when the sum the
    loops computed is finite, and it is never [NaN]. *)
Theorem averageByTag_finite (perImage : list ImagePrediction) (L : string) :
  inherited L = false -> seen L perImage = true ->
  ((exists q, get_own (averageByTag perImage) L = Some (Fin q)) <->
   (exists s, rounded_sum L perImage = Fin s)) /\
  get_own (averageByTag perImage) L <> Some NaN.
Proof.
  intros Hinh Hseen.
  pose proof (seen_nonempty L perImage Hseen) as Hne.
  rewrite averageByTag_mean, Hseen by exact Hinh.
  split; [|intros [= H]; now apply (rounded_mean_not_NaN L perImage Hne)].
  unfold rounded_mean.
  destruct perImage as [|img rest]; [congruence|]. cbn [List.length].
  split.
  - intros [q [= Hq]].
    destruct (rounded_sum L (img :: rest)) as [s| | |]; try discriminate Hq.
    now exists s.
  - intros [s Hs].
    destruct (tally_slot_is (img :: rest) L Hinh) as (Hget & _).
    rewrite Hseen, Hs in Hget.
    destruct (tally_bounded _ _ _ Hget s eq_refl) as [Hlo Hhi].
    rewrite Hs. cbn [js_div].
    destruct (binary64_quotient_finite s (List.length rest) Hlo Hhi) as [q Hq].
    exists q. now rewrite Hq.
Qed.

Lemma averageByTag_finite_witness :
  ((exists q, get_own (averageByTag overflow_batch) "Tank" = Some (Fin q)) <->
   (exists s, rounded_sum "Tank" overflow_batch = Fin s)) /\
  get_own (averageByTag overflow_batch) "Tank" <> Some NaN.
Proof.
  apply (averageByTag_finite overflow_batch "Tank"); reflexivity.
Defined.

(** Two probabilities of 1e308 overflow the sum, and the average is
    [+Infinity]. *)
Example averageByTag_overflow :
  rounded_sum "Tank" overflow_batch = PosInfinity /\
  get_own (averageByTag overflow_batch) "Tank" = Some PosInfinity.
Proof. split; [|apply Some_number_eq]; vm_compute; reflexivity. Qed.

(** The threshold is the binary64 number that the literal [0.95] denotes,
    which lies below 95/100; a probability that a JSON text writes as 0.95
    is that same number and meets the threshold. *)
Example threshold_is_a_binary64_number :
  threshold = literal (95 # 100) /\
  js_ge threshold (Fin (Q2Qc (95 # 100))) = false /\
  js_ge (Fin (nearest_double (95 # 100))) threshold = true.
Proof. split; [reflexivity|]. split; vm_compute; reflexivity. Qed.

(** Three images that each give [Tank] the probability 0.95 average to
    0.9499999999999998, below the threshold that each of them meets. *)
Example rounding_misses_the_threshold :
  (forall img p, In img uniform_batch -> In p (predictions img) ->
     Fin (probability p) = threshold) /\
  get_own (averageByTag uniform_batch) "Tank"
    = Some (literal (9499999999999998 # 10000000000000000)) /\
  thresholdMet (getMaxLabel (averageByTag uniform_batch)) = false.
Proof.
  split; [|split].
  - intros img p [<-|[<-|[<-|[]]]] [<-|[]]; apply number_eqb_eq; vm_compute;
      reflexivity.
  - apply Some_number_eq. vm_compute. reflexivity.
  - vm_compute. reflexivity.
Qed.

(** ** Every way the handler can end *)

Lemma validated_unique (body : Body) (urls urls' : list string) :
  validated body urls -> validated body urls' -> urls = urls'.
Proof. intros [H _] [H' _]. congruence. Qed.

Lemma keys_set_dec (env : Env) : keys_set env \/ ~ keys_set env.
Proof.
  unfold keys_set.
  destruct (unset (modelNotModelKey env)), (unset (civilianHybridKey env)),
    (unset (superCommonKey env));
    solve [left; repeat split | right; intros (H1 & H2 & H3); discriminate].
Qed.

(** The five ways the handler ends. *)
Lemma classify_cases (env : Env) (axios_post : Network) (body : Body) :
  (body = Body_undefined /\ classify env axios_post body = unreadable_body) \/
  (body <> Body_undefined /\ (forall urls, ~ validated body urls) /\
   classify env axios_post body = bad_request) \/
  (exists urls, validated body urls /\ ~ keys_set env /\
                classify env axios_post body = keys_not_set) \/
  (exists urls, validated body urls /\ keys_set env /\
     exists seq err,
       rejected_at axios_post (classify env axios_post body) seq err /\
       classify env axios_post body
       = internal_error err (posted (classify env axios_post body))) \/
  (exists urls, validated body urls /\ keys_set env /\
     all_answered axios_post (classify env axios_post body) /\
     exists r,
       classify env axios_post body
       = ok (posted (classify env axios_post body)) r).
Proof.
  destruct body as [|imageUrls]; [left; now split|]. right.
  set (body := Body_object imageUrls).
  assert (Hdef : body <> Body_undefined) by discriminate.
  destruct (as_array (body_imageUrls body)) as [[|u urls]|] eqn:Harr.
  - left. split; [exact Hdef|]. split.
    + intros urls [H Hne]. congruence.
    + cbn [body body_imageUrls] in Harr. unfold body, classify. now rewrite Harr.
  - assert (Hval : validated body (u :: urls)) by (split; [exact Harr | discriminate]).
    right. destruct (keys_set_dec env) as [Hkeys|Hkeys].
    + right.
      destruct (classify_outcome env axios_post body (u :: urls) Harr
                  ltac:(discriminate) Hkeys)
        as [(seq & err & Hrej & Hh)|(Hall & l1 & l2 & _ & _ & Hh)].
      * left. exists (u :: urls). split; [exact Hval|]. split; [exact Hkeys|].
        now exists seq, err.
      * right. exists (u :: urls). split; [exact Hval|]. split; [exact Hkeys|].
        split; [exact Hall|]. cbv zeta in Hh.
        exists (result_object (u :: urls) l1 l2).
        assert (Hposted : posted (classify env axios_post body)
                          = posted (ok (map (request_for (modelNotModelUrl env)
                                              (key_of (modelNotModelKey env)))
                                            (u :: urls)
                                        ++ map (request_for
                                                  (stage2Url env (averageByTag l1))
                                                  (stage2Key env (averageByTag l1)))
                                               (u :: urls))
                                       (result_object (u :: urls) l1 l2)))
          by now rewrite <- Hh.
        rewrite Hposted. exact Hh.
    + left. exists (u :: urls). split; [exact Hval|]. split; [exact Hkeys|].
      cbn [body body_imageUrls] in Harr. unfold body, classify. rewrite Harr.
      change (List.length (u :: urls) =? 0)%nat with false. cbv iota.
      destruct (unset (modelNotModelKey env)) eqn:H1; [reflexivity|].
      destruct (unset (civilianHybridKey env)) eqn:H2; [reflexivity|].
      destruct (unset (superCommonKey env)) eqn:H3; [reflexivity|].
      elim Hkeys. now repeat split.
  - left. split; [exact Hdef|]. split.
    + intros urls [H Hne]. congruence.
    + cbn [body body_imageUrls] in Harr. unfold body, classify. now rewrite Harr.
Qed.

Lemma validated_defined (body : Body) (urls : list string) :
  validated body urls -> body <> Body_undefined.
Proof. intros [H _] ->. discriminate H. Qed.

(** The status of every response, for every request, configuration and
    network: 400 exactly when the body was parsed and fails validation;
    200 exactly when it passes, the three keys are set and every posted
    request is answered; 500 exactly when the body is [undefined], or
    passes validation while a key is missing or a posted request is
    rejected.  A result object is sent exactly with status 200. *)
Theorem classify_status (env : Env) (axios_post : Network) (body : Body) :
  (status (response (classify env axios_post body)) = 400 <->
   body <> Body_undefined /\ forall urls, ~ validated body urls) /\
  (status (response (classify env axios_post body)) = 200 <->
   exists urls, validated body urls /\ keys_set env /\
                all_answered axios_post (classify env axios_post body)) /\
  (status (response (classify env axios_post body)) = 500 <->
   body = Body_undefined \/
   exists urls, validated body urls /\
     (~ keys_set env \/
      exists seq err,
        rejected_at axios_post (classify env axios_post body) seq err)) /\
  ((exists r, json_body (response (classify env axios_post body)) = Result r) <->
   status (response (classify env axios_post body)) = 200).
Proof.
  destruct (classify_cases env axios_post body)
    as [[Hundef Hh]|[(Hdef & Hbad & Hh)|[(urls & Hval & Hkeys & Hh)
       |[(urls & Hval & Hkeys & seq & err & Hrej & Hh)
        |(urls & Hval & Hkeys & Hall & r & Hh)]]]].
  - assert (Hst : status (response (classify env axios_post body)) = 500)
      by now rewrite Hh.
    assert (Hbody : forall r, json_body (response (classify env axios_post body))
                              <> Result r) by (rewrite Hh; discriminate).
    rewrite Hst. split; [|split; [|split]]; split.
    + discriminate.
    + intros [Hdef _]. contradiction.
    + discriminate.
    + intros (urls & Hval & _). elim (validated_defined _ _ Hval Hundef).
    + intros _. now left.
    + reflexivity.
    + intros [r H]. elim (Hbody r H).
    + discriminate.
  - assert (Hst : status (response (classify env axios_post body)) = 400)
      by now rewrite Hh.
    assert (Hbody : forall r, json_body (response (classify env axios_post body))
                              <> Result r) by (rewrite Hh; discriminate).
    rewrite Hst. split; [|split; [|split]]; split.
    + intros _. now split.
    + reflexivity.
    + discriminate.
    + intros (urls & Hval & _). elim (Hbad urls Hval).
    + discriminate.
    + intros [Hundef|(urls & Hval & _)]; [contradiction | elim (Hbad urls Hval)].
    + intros [r H]. elim (Hbody r H).
    + discriminate.
  - assert (Hst : status (response (classify env axios_post body)) = 500)
      by now rewrite Hh.
    assert (Hbody : forall r, json_body (response (classify env axios_post body))
                              <> Result r) by (rewrite Hh; discriminate).
    rewrite Hst. split; [|split; [|split]]; split.
    + discriminate.
    + intros [_ Hnone]. elim (Hnone urls Hval).
    + discriminate.
    + intros (urls' & _ & Hk & _). contradiction.
    + intros _. right. exists urls. auto.
    + reflexivity.
    + intros [r H]. elim (Hbody r H).
    + discriminate.
  - assert (Hst : status (response (classify env axios_post body)) = 500)
      by now rewrite Hh.
    assert (Hbody : forall r, json_body (response (classify env axios_post body))
                              <> Result r) by (rewrite Hh; discriminate).
    rewrite Hst. split; [|split; [|split]]; split.
    + discriminate.
    + intros [_ Hnone]. elim (Hnone urls Hval).
    + discriminate.
    + intros (urls' & _ & _ & Hall).
      elim (rejected_not_all_answered _ _ _ _ Hrej Hall).
    + intros _. right. exists urls. split; [exact Hval|]. right.
      now exists seq, err.
    + reflexivity.
    + intros [r H]. elim (Hbody r H).
    + discriminate.
  - assert (Hst : status (response (classify env axios_post body)) = 200)
      by now rewrite Hh.
    assert (Hbody : json_body (response (classify env axios_post body)) = Result r)
      by now rewrite Hh.
    rewrite Hst. split; [|split; [|split]]; split.
    + discriminate.
    + intros [_ Hnone]. elim (Hnone urls Hval).
    + intros _. exists urls. auto.
    + reflexivity.
    + discriminate.
    + intros [Hundef|(urls' & _ & [Hk|(seq & err & Hrej)])];
        [elim (validated_defined _ _ Hval Hundef) | contradiction |].
      elim (rejected_not_all_answered _ _ _ _ Hrej Hall).
    + reflexivity.
    + intros _. now exists r.
Qed.

(** ** What the handler posts *)

Lemma batchPredict_Fulfilled_urls (axios_post : Network) (issued : list Request)
  (urls : list string) (endpointUrl predictionKey : string)
  (perImage : list ImagePrediction) :
  snd (batchPredict axios_post issued urls endpointUrl predictionKey)
    = Fulfilled perImage ->
  map imageUrl perImage = urls.
Proof.
  intros Hful. destruct (batchPredict_Fulfilled _ _ _ _ _ _ Hful) as [Hlen Hnth].
  apply nth_error_ext. intros n. rewrite nth_error_map.
  destruct (nth_error urls n) as [u|] eqn:Hu.
  - destruct (Hnth n u Hu) as (data & _ & ->). reflexivity.
  - apply nth_error_None in Hu. rewrite <- Hlen in Hu.
    apply nth_error_None in Hu. now rewrite Hu.
Qed.

Lemma unset_false_key (v : option string) :
  unset v = false -> key_of v <> "".
Proof.
  destruct v as [s|]; simpl; [|discriminate].
  intros H. now apply String.eqb_neq.
Qed.

Lemma or_else_nonempty (v : option string) (d : string) :
  d <> "" -> or_else v d <> "".
Proof.
  intros Hd. destruct v as [s|]; simpl; [|exact Hd].
  destruct (String.eqb_spec s ""); [exact Hd | assumption].
Qed.

(** The requests of a validated call, by stage. *)
Lemma classify_posted (env : Env) (axios_post : Network) (body : Body)
  (urls : list string) :
  validated body urls -> keys_set env ->
  (exists err,
      snd (batchPredict axios_post [] urls (modelNotModelUrl env)
                        (key_of (modelNotModelKey env))) = Rejected err /\
      posted (classify env axios_post body)
      = map (request_for (modelNotModelUrl env) (key_of (modelNotModelKey env)))
            urls) \/
  (exists stage1PerImage,
      snd (batchPredict axios_post [] urls (modelNotModelUrl env)
                        (key_of (modelNotModelKey env)))
        = Fulfilled stage1PerImage /\
      posted (classify env axios_post body)
      = map (request_for (modelNotModelUrl env) (key_of (modelNotModelKey env)))
            urls
        ++ map (request_for (stage2Url env (averageByTag stage1PerImage))
                            (stage2Key env (averageByTag stage1PerImage)))
               urls).
Proof.
  intros [Harr Hne] Hkeys.
  rewrite (classify_valid env axios_post body urls Harr Hne Hkeys). cbv zeta.
  destruct (snd (batchPredict axios_post [] urls _ _)) as [l1|e1].
  - right. exists l1. split; [reflexivity|].
    destruct (snd (batchPredict axios_post _ urls
                                (stage2Url env (averageByTag l1)) _));
      reflexivity.
  - left. now exists e1.
Qed.

(** Every request of a validated call is [request_for] one of the URLs,
    to one of the three endpoints with that endpoint's key. *)
Lemma classify_posted_shape (env : Env) (axios_post : Network) (body : Body)
  (urls : list string) (req : Request) :
  validated body urls -> keys_set env ->
  In req (posted (classify env axios_post body)) ->
  exists u endpointUrl predictionKey,
    In u urls /\ req = request_for endpointUrl predictionKey u /\
    ((endpointUrl = modelNotModelUrl env /\
      predictionKey = key_of (modelNotModelKey env)) \/
     (endpointUrl = superCommonUrl env /\
      predictionKey = key_of (superCommonKey env)) \/
     (endpointUrl = civilianHybridUrl env /\
      predictionKey = key_of (civilianHybridKey env))).
Proof.
  intros Hval Hkeys Hin.
  assert (Hstage1 : forall r,
             In r (map (request_for (modelNotModelUrl env)
                                    (key_of (modelNotModelKey env))) urls) ->
             exists u endpointUrl predictionKey,
               In u urls /\ r = request_for endpointUrl predictionKey u /\
               ((endpointUrl = modelNotModelUrl env /\
                 predictionKey = key_of (modelNotModelKey env)) \/
                (endpointUrl = superCommonUrl env /\
                 predictionKey = key_of (superCommonKey env)) \/
                (endpointUrl = civilianHybridUrl env /\
                 predictionKey = key_of (civilianHybridKey env)))).
  { intros r Hr. apply in_map_iff in Hr as (u & <- & Hu).
    exists u, (modelNotModelUrl env), (key_of (modelNotModelKey env)). auto. }
  destruct (classify_posted env axios_post body urls Hval Hkeys)
    as [(e1 & _ & Hposted)|(l1 & _ & Hposted)]; rewrite Hposted in Hin.
  - now apply Hstage1.
  - apply in_app_or in Hin as [Hin|Hin]; [now apply Hstage1|].
    apply in_map_iff in Hin as (u & <- & Hu).
    exists u, (stage2Url env (averageByTag l1)), (stage2Key env (averageByTag l1)).
    split; [exact Hu|]. split; [reflexivity|].
    unfold stage2Url, stage2Key.
    destruct (useSuperCommon (averageByTag l1)); auto.
Qed.

Lemma default_urls_nonempty :
  default_modelNotModelUrl <> "" /\ default_superCommonUrl <> "" /\
  default_civilianHybridUrl <> "".
Proof. repeat split; discriminate. Qed.

(** Every request the handler ever posts is complete: it exists only for a
    validated body with the three keys set, asks about one of the
    submitted URLs, carries a non-empty key, the JSON content type and the
    25-second timeout, and goes to one of the three endpoints paired with
    that endpoint's own key. *)
Theorem classify_posts_complete_requests (env : Env) (axios_post : Network)
  (body : Body) (req : Request) :
  In req (posted (classify env axios_post body)) ->
  exists urls,
    validated body urls /\ keys_set env /\
    In (Url req) urls /\
    Prediction_Key req <> "" /\
    url req <> "" /\
    Content_Type req = "application/json" /\
    timeout req = 25000%N /\
    ((url req = modelNotModelUrl env /\
      Prediction_Key req = key_of (modelNotModelKey env)) \/
     (url req = superCommonUrl env /\
      Prediction_Key req = key_of (superCommonKey env)) \/
     (url req = civilianHybridUrl env /\
      Prediction_Key req = key_of (civilianHybridKey env))).
Proof.
  intros Hin.
  destruct (classify_cases env axios_post body)
    as [[_ Hh]|[(_ & _ & Hh)|[(urls & _ & _ & Hh)
       |[(urls & Hval & Hkeys & _)|(urls & Hval & Hkeys & _)]]]];
    try (rewrite Hh in Hin; contradiction).
  all: exists urls; split; [exact Hval|]; split; [exact Hkeys|].
  all: destruct (classify_posted_shape env axios_post body urls req
                   Hval Hkeys Hin) as (u & e & k & Hu & -> & Hpair).
  all: destruct Hkeys as (K1 & K2 & K3).
  all: destruct default_urls_nonempty as (D1 & D2 & D3).
  all: simpl; split; [exact Hu|].
  all: split; [destruct Hpair as [[_ ->]|[[_ ->]|[_ ->]]];
               now apply unset_false_key|].
  all: split; [destruct Hpair as [[-> _]|[[-> _]|[-> _]]];
               now apply or_else_nonempty|].
  all: auto.
Qed.

Lemma classify_posts_complete_requests_witness :
  exists urls,
    validated sample_body urls /\ keys_set sample_env /\
    In (Url (request_for default_superCommonUrl "key-3" "b.jpg")) urls /\
    Prediction_Key (request_for default_superCommonUrl "key-3" "b.jpg") <> "" /\
    url (request_for default_superCommonUrl "key-3" "b.jpg") <> "" /\
    Content_Type (request_for default_superCommonUrl "key-3" "b.jpg")
      = "application/json" /\
    timeout (request_for default_superCommonUrl "key-3" "b.jpg") = 25000%N /\
    ((url (request_for default_superCommonUrl "key-3" "b.jpg")
        = modelNotModelUrl sample_env /\
      Prediction_Key (request_for default_superCommonUrl "key-3" "b.jpg")
        = key_of (modelNotModelKey sample_env)) \/
     (url (request_for default_superCommonUrl "key-3" "b.jpg")
        = superCommonUrl sample_env /\
      Prediction_Key (request_for default_superCommonUrl "key-3" "b.jpg")
        = key_of (superCommonKey sample_env)) \/
     (url (request_for default_superCommonUrl "key-3" "b.jpg")
        = civilianHybridUrl sample_env /\
      Prediction_Key (request_for default_superCommonUrl "key-3" "b.jpg")
        = key_of (civilianHybridKey sample_env))).
Proof.
  apply (classify_posts_complete_requests sample_env sample_network sample_body
           (request_for default_superCommonUrl "key-3" "b.jpg")).
  vm_compute. right. right. right. left. reflexivity.
Defined.

(** Stage 2 is started exactly when the whole of stage 1 was answered.
    A validated call posts one request per URL to the stage-1 endpoint;
    either one of these is rejected and nothing else is posted, or none is
    and one more request per URL follows, all to the endpoint of one and
    the same branch, with that branch's key. *)
Theorem classify_stages (env : Env) (axios_post : Network) (body : Body)
  (urls : list string) :
  validated body urls -> keys_set env ->
  ((exists seq err,
       seq < List.length urls /\
       rejected_at axios_post (classify env axios_post body) seq err) /\
   posted (classify env axios_post body)
   = map (request_for (modelNotModelUrl env) (key_of (modelNotModelKey env)))
         urls) \/
  ((forall seq err,
       seq < List.length urls ->
       ~ rejected_at axios_post (classify env axios_post body) seq err) /\
   (posted (classify env axios_post body)
    = map (request_for (modelNotModelUrl env) (key_of (modelNotModelKey env)))
          urls
      ++ map (request_for (superCommonUrl env) (key_of (superCommonKey env)))
             urls \/
    posted (classify env axios_post body)
    = map (request_for (modelNotModelUrl env) (key_of (modelNotModelKey env)))
          urls
      ++ map (request_for (civilianHybridUrl env)
                          (key_of (civilianHybridKey env)))
             urls)).
Proof.
  intros Hval Hkeys.
  set (reqs1 := map (request_for (modelNotModelUrl env)
                                 (key_of (modelNotModelKey env))) urls).
  assert (Hlen1 : List.length reqs1 = List.length urls) by apply length_map.
  assert (Hstage1 : forall seq u,
             nth_error urls seq = Some u ->
             nth_error reqs1 seq
             = Some (request_for (modelNotModelUrl env)
                                 (key_of (modelNotModelKey env)) u)).
  { intros seq u Hu. unfold reqs1. now rewrite nth_error_map, Hu. }
  destruct (classify_posted env axios_post body urls Hval Hkeys)
    as [(e1 & Hrej1 & Hposted)|(l1 & Hful1 & Hposted)].
  - left. split; [|exact Hposted].
    apply batchPredict_Rejected in Hrej1 as (i & u & Hu & Herr). simpl in Herr.
    exists i, e1. split; [apply nth_error_Some; congruence|].
    exists (request_for (modelNotModelUrl env)
                        (key_of (modelNotModelKey env)) u).
    rewrite Hposted. fold reqs1. split; [now apply Hstage1 | exact Herr].
  - right. apply batchPredict_Fulfilled in Hful1 as [_ Hans]. split.
    + intros seq err Hseq (req & Hreq & Herr).
      rewrite Hposted in Hreq. fold reqs1 in Hreq.
      rewrite nth_error_app1 in Hreq by lia.
      destruct (nth_error urls seq) as [u|] eqn:Hu;
        [|apply nth_error_None in Hu; lia].
      rewrite (Hstage1 seq u Hu) in Hreq. injection Hreq as <-.
      destruct (Hans seq u Hu) as (data & Hdata & _). simpl in Hdata.
      congruence.
    + rewrite Hposted. unfold stage2Url, stage2Key.
      destruct (useSuperCommon (averageByTag l1)); auto.
Qed.

Lemma classify_stages_witness :
  ((exists seq err,
       seq < List.length ["a.jpg"; "b.jpg"] /\
       rejected_at failing_network
                   (classify sample_env failing_network sample_body) seq err) /\
   posted (classify sample_env failing_network sample_body)
   = map (request_for (modelNotModelUrl sample_env)
                      (key_of (modelNotModelKey sample_env)))
         ["a.jpg"; "b.jpg"]) \/
  ((forall seq err,
       seq < List.length ["a.jpg"; "b.jpg"] ->
       ~ rejected_at failing_network
                     (classify sample_env failing_network sample_body) seq err) /\
   (posted (classify sample_env failing_network sample_body)
    = map (request_for (modelNotModelUrl sample_env)
                       (key_of (modelNotModelKey sample_env)))
          ["a.jpg"; "b.jpg"]
      ++ map (request_for (superCommonUrl sample_env)
                          (key_of (superCommonKey sample_env)))
             ["a.jpg"; "b.jpg"] \/
    posted (classify sample_env failing_network sample_body)
    = map (request_for (modelNotModelUrl sample_env)
                       (key_of (modelNotModelKey sample_env)))
          ["a.jpg"; "b.jpg"]
      ++ map (request_for (civilianHybridUrl sample_env)
                          (key_of (civilianHybridKey sample_env)))
             ["a.jpg"; "b.jpg"])).
Proof.
  apply (classify_stages sample_env failing_network sample_body
           ["a.jpg"; "b.jpg"]).
  - split; [reflexivity | discriminate].
  - repeat split.
Defined.

(** ** The result object *)

(** The result object of a successful call: it echoes the submitted URLs
    and their number, each stage lists one image per URL in the order of
    the URLs, the averages of each stage are those of its images, the
    reported probabilities are the stage-1 averages of [Model] and
    [NOT Model] with 0 for a missing one, and the predictor named for
    stage 2 is that of the branch taken. *)
Theorem classify_result_object (env : Env) (axios_post : Network)
  (body : Body) (r : ClassificationResult) :
  json_body (response (classify env axios_post body)) = Result r ->
  exists urls,
    validated body urls /\
    imageUrls (input r) = urls /\
    imageCount (input r) = List.length urls /\
    map imageUrl (Stage1.perImage (stage1 r)) = urls /\
    map imageUrl (Stage2.perImage (stage2 r)) = urls /\
    Stage1.averages (stage1 r) = averageByTag (Stage1.perImage (stage1 r)) /\
    Stage2.averages (stage2 r) = averageByTag (Stage2.perImage (stage2 r)) /\
    Stage1.modelProbability (stage1 r)
      = lookup_or_zero (Stage1.averages (stage1 r)) "Model" /\
    Stage1.notModelProbability (stage1 r)
      = lookup_or_zero (Stage1.averages (stage1 r)) "NOT Model" /\
    Stage1.isModel (stage1 r)
      = js_ge (Stage1.modelProbability (stage1 r))
              (Stage1.notModelProbability (stage1 r)) /\
    Stage1.predictor (stage1 r) = "Model/NOT Model Predictor" /\
    (Stage2.predictor (stage2 r), Stage2.branch (stage2 r))
      = (if Stage1.isModel (stage1 r)
         then ("SuperModel/Common Model Predictor", "SuperModelCommonModel")
         else ("Civilian/Hybrid Predictor", "CivilianHybrid")).
Proof.
  intros Hres.
  destruct (classify_cases env axios_post body)
    as [[_ Hh]|[(_ & _ & Hh)|[(urls & _ & _ & Hh)
       |[(urls & _ & _ & seq & err & _ & Hh)|(urls & Hval & Hkeys & _)]]]];
    try (rewrite Hh in Hres; discriminate).
  pose proof Hval as [Harr Hne].
  destruct (classify_outcome env axios_post body urls Harr Hne Hkeys)
    as [(seq & err & _ & Hh)|(_ & l1 & l2 & Hful1 & Hful2 & Hh)].
  { rewrite Hh in Hres. discriminate. }
  cbv zeta in Hful2, Hh. rewrite Hh in Hres. injection Hres as <-.
  exists urls. split; [exact Hval|]. simpl.
  rewrite (batchPredict_Fulfilled_urls _ _ _ _ _ _ Hful1).
  rewrite (batchPredict_Fulfilled_urls _ _ _ _ _ _ Hful2).
  rewrite modelProb_lookup, notModelProb_lookup.
  repeat (split; [reflexivity|]).
  unfold predictorName, branch, useSuperCommon, isModel.
  rewrite modelProb_lookup, notModelProb_lookup.
  now destruct (js_ge _ _).
Qed.

Lemma classify_result_object_witness :
  exists urls,
    validated sample_body urls /\
    imageUrls (input scenario_result) = urls /\
    imageCount (input scenario_result) = List.length urls /\
    map imageUrl (Stage1.perImage (stage1 scenario_result)) = urls /\
    map imageUrl (Stage2.perImage (stage2 scenario_result)) = urls /\
    Stage1.averages (stage1 scenario_result)
      = averageByTag (Stage1.perImage (stage1 scenario_result)) /\
    Stage2.averages (stage2 scenario_result)
      = averageByTag (Stage2.perImage (stage2 scenario_result)) /\
    Stage1.modelProbability (stage1 scenario_result)
      = lookup_or_zero (Stage1.averages (stage1 scenario_result)) "Model" /\
    Stage1.notModelProbability (stage1 scenario_result)
      = lookup_or_zero (Stage1.averages (stage1 scenario_result)) "NOT Model" /\
    Stage1.isModel (stage1 scenario_result)
      = js_ge (Stage1.modelProbability (stage1 scenario_result))
              (Stage1.notModelProbability (stage1 scenario_result)) /\
    Stage1.predictor (stage1 scenario_result) = "Model/NOT Model Predictor" /\
    (Stage2.predictor (stage2 scenario_result),
     Stage2.branch (stage2 scenario_result))
      = (if Stage1.isModel (stage1 scenario_result)
         then ("SuperModel/Common Model Predictor", "SuperModelCommonModel")
         else ("Civilian/Hybrid Predictor", "CivilianHybrid")).
Proof.
  apply (classify_result_object sample_env scenario_network sample_body
           scenario_result).
  vm_compute. reflexivity.
Defined.

(** ** Which rejection is reported, and what does not depend on timing *)

(** The rejection a batch reports is that of a rejected request than which
    no rejected request of the batch settled earlier. *)
Theorem batchPredict_reports_earliest (axios_post : Network)
  (issued : list Request) (urls : list string)
  (endpointUrl predictionKey : string) (err : AxiosError) :
  snd (batchPredict axios_post issued urls endpointUrl predictionKey)
    = Rejected err ->
  exists i u,
    nth_error urls i = Some u /\
    result (axios_post (List.length issued + i)
                       (request_for endpointUrl predictionKey u)) = inl err /\
    forall j u' err',
      nth_error urls j = Some u' ->
      result (axios_post (List.length issued + j)
                         (request_for endpointUrl predictionKey u')) = inl err' ->
      tick (axios_post (List.length issued + i)
                       (request_for endpointUrl predictionKey u))
      <= tick (axios_post (List.length issued + j)
                          (request_for endpointUrl predictionKey u')).
Proof.
  unfold batchPredict, Promise_all. simpl.
  destruct (earliest_rejection _) as [[t e]|] eqn:H; [|discriminate].
  intros [= <-].
  apply earliest_rejection_Some in H as [(i & p & Hi & Hp & Ht) Hmin].
  rewrite nth_error_map_from in Hi.
  destruct (nth_error urls i) as [u|] eqn:Hu; [|discriminate].
  injection Hi as <-. exists i, u. split; [exact Hu|].
  unfold predict_one in Hp, Ht. simpl in Hp, Ht. split.
  - destruct (result (axios_post _ _)) as [e'|data]; [congruence | discriminate].
  - intros j u' err' Hj Herr'. rewrite Ht.
    pose proof (nth_error_map_from
                  (predict_one axios_post endpointUrl predictionKey)
                  urls (List.length issued) j) as Hpj.
    rewrite Hj in Hpj. simpl in Hpj. apply nth_error_In in Hpj.
    apply (Hmin _ err' Hpj). unfold predict_one. simpl. now rewrite Herr'.
Qed.

Lemma batchPredict_reports_earliest_witness :
  exists i u,
    nth_error ["a.jpg"; "b.jpg"] i = Some u /\
    result (failing_network (0 + i)
              (request_for default_modelNotModelUrl "key-1" u))
      = inl {| response_data := None; message := "timeout of 25000ms exceeded" |} /\
    forall j u' err',
      nth_error ["a.jpg"; "b.jpg"] j = Some u' ->
      result (failing_network (0 + j)
                (request_for default_modelNotModelUrl "key-1" u')) = inl err' ->
      tick (failing_network (0 + i)
              (request_for default_modelNotModelUrl "key-1" u))
      <= tick (failing_network (0 + j)
                 (request_for default_modelNotModelUrl "key-1" u')).
Proof.
  apply (batchPredict_reports_earliest failing_network [] ["a.jpg"; "b.jpg"]
           default_modelNotModelUrl "key-1").
  reflexivity.
Defined.

(** The value of a fulfilled batch does not depend on when the requests
    settle: a network that gives the same answers at other ticks fulfils
    the batch with the same list. *)
Theorem batchPredict_ignores_timing (axios_post axios_post' : Network)
  (issued : list Request) (urls : list string)
  (endpointUrl predictionKey : string) (perImage : list ImagePrediction) :
  (forall seq req, result (axios_post seq req) = result (axios_post' seq req)) ->
  snd (batchPredict axios_post issued urls endpointUrl predictionKey)
    = Fulfilled perImage ->
  snd (batchPredict axios_post' issued urls endpointUrl predictionKey)
    = Fulfilled perImage.
Proof.
  intros Hsame Hful.
  destruct (batchPredict_Fulfilled _ _ _ _ _ _ Hful) as [Hlen Hnth].
  destruct (batchPredict_answered axios_post' issued urls endpointUrl
              predictionKey) as [perImage' Hful'].
  { intros i u Hu. destruct (Hnth i u Hu) as (data & Hdata & _).
    exists data. now rewrite <- Hsame. }
  rewrite Hful'. f_equal.
  destruct (batchPredict_Fulfilled _ _ _ _ _ _ Hful') as [Hlen' Hnth'].
  apply nth_error_ext. intros n.
  destruct (nth_error urls n) as [u|] eqn:Hu.
  - destruct (Hnth n u Hu) as (data & Hdata & ->).
    destruct (Hnth' n u Hu) as (data' & Hdata' & ->).
    rewrite <- Hsame in Hdata'. congruence.
  - apply nth_error_None in Hu.
    assert (H1 : nth_error perImage n = None) by (apply nth_error_None; lia).
    assert (H2 : nth_error perImage' n = None) by (apply nth_error_None; lia).
    congruence.
Qed.

Lemma batchPredict_ignores_timing_witness :
  snd (batchPredict late_network [] ["a.jpg"; "b.jpg"]
                    default_modelNotModelUrl "key-1")
  = Fulfilled sample_stage1.
Proof.
  apply (batchPredict_ignores_timing sample_network late_network [] _ _ _ _).
  - reflexivity.
  - reflexivity.
Defined.

(** ** Confidence and errors *)

Lemma sentinel_below_threshold : js_ge (Fin (Q2Qc (-1))) threshold = false.
Proof. vm_compute. reflexivity. Qed.

(** A response flagged as high confidence always names a label: one that
    the stage-2 predictions mention, with the probability the stage-2
    averages hold for it. *)
Theorem high_confidence_names_a_label (env : Env) (axios_post : Network)
  (body : Body) (r : ClassificationResult) :
  json_body (response (classify env axios_post body)) = Result r ->
  Stage2.highConfidence (stage2 r) = true ->
  exists label,
    Stage2.finalLabel (stage2 r) = Some label /\
    seen label (Stage2.perImage (stage2 r)) = true /\
    get_own (Stage2.averages (stage2 r)) label
      = Some (Stage2.finalLabelProbability (stage2 r)) /\
    js_ge (Stage2.finalLabelProbability (stage2 r)) (literal (95 # 100)) = true.
Proof.
  intros Hres Hflag.
  destruct (classify_cases env axios_post body)
    as [[_ Hh]|[(_ & _ & Hh)|[(urls & _ & _ & Hh)
       |[(urls & _ & _ & seq & err & _ & Hh)|(urls & [Harr Hne] & Hkeys & _)]]]];
    try (rewrite Hh in Hres; discriminate).
  destruct (classify_outcome env axios_post body urls Harr Hne Hkeys)
    as [(seq & err & _ & Hh)|(_ & l1 & l2 & _ & _ & Hh)].
  { rewrite Hh in Hres. discriminate. }
  cbv zeta in Hh. rewrite Hh in Hres. injection Hres as <-.
  simpl in *. unfold thresholdMet in Hflag.
  destruct (getMaxLabel_cases (averageByTag l2))
    as [[Hsentinel _]|(label & prob & Hbest & Hin & _)].
  - rewrite Hsentinel in Hflag. cbn [MaxLabel.probability] in Hflag.
    rewrite sentinel_below_threshold in Hflag. discriminate Hflag.
  - rewrite Hbest in *. simpl in *. exists label. split; [reflexivity|].
    pose proof (averageByTag_well_formed l2) as [Hnd _].
    pose proof (In_get_own _ _ _ Hnd Hin) as Hget.
    split; [|split; [exact Hget | exact Hflag]].
    assert (Hk : In label (keys (fst (tally l2)))).
    { apply get_own_In_keys. rewrite averageByTag_get_own in Hget.
      destruct (get_own (fst (tally l2)) label); discriminate. }
    now apply tally_keys in Hk.
Qed.

Lemma high_confidence_names_a_label_witness :
  exists label,
    Stage2.finalLabel (stage2 scenario_result) = Some label /\
    seen label (Stage2.perImage (stage2 scenario_result)) = true /\
    get_own (Stage2.averages (stage2 scenario_result)) label
      = Some (Stage2.finalLabelProbability (stage2 scenario_result)) /\
    js_ge (Stage2.finalLabelProbability (stage2 scenario_result))
          (literal (95 # 100)) = true.
Proof.
  apply (high_confidence_names_a_label sample_env scenario_network sample_body
           scenario_result).
  - vm_compute. reflexivity.
  - vm_compute. reflexivity.
Defined.

(** The [details] of the [catch] block are never empty: a payload that is
    reported is truthy, and a message that is reported is not the empty
    string. *)
Lemma error_details_truthy (err : AxiosError) :
  match error_details err with
  | Remote_payload p => payload_truthy p = true
  | Error_message msg => msg <> ""
  end.
Proof.
  unfold error_details, message_or_unknown.
  destruct (response_data err) as [p|].
  - destruct (payload_truthy p) eqn:Hp; [exact Hp|].
    destruct (String.eqb_spec (message err) ""); [discriminate | assumption].
  - destruct (String.eqb_spec (message err) ""); [discriminate | assumption].
Qed.

(** Every response that is not a success is one of three errors: 400 with
    the validation message, 500 with the message about the keys, or 500
    with [Internal server error] and details that are never empty; the
    first two carry no details. *)
Theorem classify_error_bodies (env : Env) (axios_post : Network) (body : Body) :
  status (response (classify env axios_post body)) <> 200 ->
  response (classify env axios_post body)
    = {| status := 400;
         json_body := Error_only "imageUrls must be a non-empty array of URLs" |} \/
  response (classify env axios_post body)
    = {| status := 500;
         json_body :=
           Error_only
             "Prediction keys not set (MODEL_NOT_MODEL_KEY / CIVILIAN_HYBRID_KEY / SUPERMODEL_COMMON_KEY)" |} \/
  exists details,
    response (classify env axios_post body)
      = {| status := 500;
           json_body := Error_with_details "Internal server error" details |} /\
    match details with
    | Remote_payload p => payload_truthy p = true
    | Error_message msg => msg <> ""
    end.
Proof.
  intros Hst.
  destruct (classify_cases env axios_post body)
    as [[_ Hh]|[(_ & _ & Hh)|[(urls & _ & _ & Hh)
       |[(urls & _ & _ & seq & err & _ & Hh)|(urls & _ & _ & _ & r & Hh)]]]].
  - right. right. exists (error_details body_TypeError).
    split; [now rewrite Hh | apply error_details_truthy].
  - left. now rewrite Hh.
  - right. left. now rewrite Hh.
  - right. right. exists (error_details err). split; [now rewrite Hh|].
    apply error_details_truthy.
  - elim Hst. now rewrite Hh.
Qed.

Lemma classify_error_bodies_witness :
  response (classify sample_env failing_network sample_body)
    = {| status := 400;
         json_body := Error_only "imageUrls must be a non-empty array of URLs" |} \/
  response (classify sample_env failing_network sample_body)
    = {| status := 500;
         json_body :=
           Error_only
             "Prediction keys not set (MODEL_NOT_MODEL_KEY / CIVILIAN_HYBRID_KEY / SUPERMODEL_COMMON_KEY)" |} \/
  exists details,
    response (classify sample_env failing_network sample_body)
      = {| status := 500;
           json_body := Error_with_details "Internal server error" details |} /\
    match details with
    | Remote_payload p => payload_truthy p = true
    | Error_message msg => msg <> ""
    end.
Proof.
  apply (classify_error_bodies sample_env failing_network sample_body).
  discriminate.
Defined.
